(** * BadgerOS [tools/ramfs-gen.py]: the RAM-filesystem image generator

    A shallow embedding of the generator script and the properties of the
    text it emits.  Python [str] values are lists of characters, [bytes]
    values are lists of [Byte.byte], the module-level globals of the script
    ([roms], [dirs], [files], [file_count]) are the fields of an explicit
    state, and every call that touches the outside world (printing, opening,
    listing, reading, writing) is recorded in a trace. *)

From Stdlib Require Import Ascii String Init.Byte DecimalString DecimalNat.
From stdpp Require Import gmap strings list fin_maps.

(** ** Strings and formatting *)

(** A Python [str]: a sequence of characters; [len] is [length], [+] is [++].
    The model covers the characters below 256.  In the script a character
    is one code point; in the output file, which Python writes in UTF-8, and
    so in the compiled program, a character below 128 is one byte and a
    character from 128 on is two (see [utf8] below). *)
Abbreviation str := (list ascii).

(** String literals of the source are written as literals here. *)
Coercion list_ascii_of_string : string >-> list.

Definition nl : ascii := ascii_of_nat 10.   (* line feed, '\n' *)
Definition cr : ascii := ascii_of_nat 13.   (* carriage return, '\r' *)
Definition dq : ascii := ascii_of_nat 34.   (* the double quote *)
Definition bs : ascii := ascii_of_nat 92.   (* the backslash *)
Definition slash : ascii := ascii_of_nat 47.

(** [raw.replace(old, new)] where [old] is one character, as at every call
    of the source: each occurrence of [old] becomes [new]. *)
Definition replace (old : ascii) (new : str) (raw : str) : str :=
  flat_map (fun c => if decide (c = old) then new else [c]) raw.

(** ramfs-gen.py, lines 26-31. *)
Definition escape (raw : str) : str :=
  replace dq [bs; dq]
    (replace nl [bs; "n"%char]
      (replace cr [bs; "r"%char]
        (replace bs [bs; bs] raw))).

(** What [escape] does to one character, as the spec words it. *)
Definition escape_char (c : ascii) : str :=
  if decide (c = bs) then [bs; bs]
  else if decide (c = cr) then [bs; "r"%char]
  else if decide (c = nl) then [bs; "n"%char]
  else if decide (c = dq) then [bs; dq]
  else [c].

(** The simple escape sequences of a C string literal (C11 6.4.4.4): the
    character that a backslash followed by [c] stands for. *)
Definition c_simple_escape (c : ascii) : option ascii :=
  if decide (c = "n"%char) then Some nl
  else if decide (c = "r"%char) then Some cr
  else if decide (c = "t"%char) then Some (ascii_of_nat 9)
  else if decide (c = "a"%char) then Some (ascii_of_nat 7)
  else if decide (c = "b"%char) then Some (ascii_of_nat 8)
  else if decide (c = "f"%char) then Some (ascii_of_nat 12)
  else if decide (c = "v"%char) then Some (ascii_of_nat 11)
  else if decide (c = bs) then Some bs
  else if decide (c = dq) then Some dq
  else if decide (c = "'"%char) then Some "'"%char
  else if decide (c = "?"%char) then Some "?"%char
  else None.

(** Reading the inside of a C string literal: a backslash starts an escape
    sequence; a bare double quote or a bare line feed cannot occur inside a
    literal; every other character stands for itself.  Octal and
    hexadecimal escapes, which [escape] never writes, are not read, and
    trigraphs are taken to be off, as compilers in GNU mode have them. *)
Fixpoint c_unescape (lit : str) : option str :=
  match lit with
  | [] => Some []
  | c :: rest =>
      if decide (c = bs) then
        match rest with
        | [] => None
        | e :: rest' =>
            match c_simple_escape e with
            | Some x => cons x <$> c_unescape rest'
            | None => None
            end
        end
      else if decide (c = dq) then None
      else if decide (c = nl) then None
      else cons c <$> c_unescape rest
  end.

(** Scanning a C string literal in running text, from just after its opening
    quote: the characters it denotes and the text after its closing quote. *)
Fixpoint c_scan_literal (text : str) : option (str * str) :=
  match text with
  | [] => None
  | c :: rest =>
      if decide (c = dq) then Some ([], rest)
      else if decide (c = nl) then None
      else if decide (c = bs) then
        match rest with
        | [] => None
        | e :: rest' =>
            match c_simple_escape e with
            | Some x => prod_map (cons x) id <$> c_scan_literal rest'
            | None => None
            end
        end
      else prod_map (cons c) id <$> c_scan_literal rest
  end.

(** [str(n)] for a non-negative integer: its decimal digits. *)
Definition dec (n : nat) : str :=
  list_ascii_of_string (NilEmpty.string_of_uint (Nat.to_uint n)).

Definition hexdigit (d : nat) : ascii :=
  nth d (list_ascii_of_string "0123456789abcdef") "0"%char.

(** ["{:02x}".format(byte)]: two lower-case hexadecimal digits. *)
Definition hex02 (b : byte) : str :=
  [hexdigit (Byte.to_nat b / 16); hexdigit (Byte.to_nat b mod 16)].

(** ** The host, as the script sees it *)

(** The three questions the script asks the build host.  [listdir] and
    [read_file] are [None] where Python raises [OSError]; [listdir] gives the
    names in the order of [os.listdir].  The oracles describe the host as it
    is during the walk, after the output file has been opened. *)
Record host := Host {
  listdir : str -> option (list str);     (* os.listdir(path) *)
  isdir : str -> bool;                    (* os.path.isdir(path) *)
  read_file : str -> option (list byte)   (* open(path, "rb").read() *)
}.

Inductive mode := ModeW | ModeRB.

(** One call that reaches outside the process. *)
Inductive event :=
  | EvPrint (line : str)                  (* print(line) *)
  | EvOpen (path : str) (m : mode)        (* open(path, m) *)
  | EvWrite (text : str)                  (* outfd.write(text) *)
  | EvFlush                               (* outfd.flush() *)
  | EvClose (path : str)                  (* fd.close() *)
  | EvListdir (path : str)                (* os.listdir(path) *)
  | EvIsdir (path : str)                  (* os.path.isdir(path) *)
  | EvRead (path : str).                  (* infd.read() *)

#[global] Instance mode_eq_dec : EqDecision mode.
Proof. solve_decision. Defined.
#[global] Instance event_eq_dec : EqDecision event.
Proof. solve_decision. Defined.

(** The globals of the script (lines 19-22) and the calls made so far. *)
Record state := State {
  roms : str;
  dirs : str;
  files : str;
  file_count : nat;
  trace : list event
}.

(** How a piece of the script ends: it falls through to the next statement,
    the process exits ([exit(code)]), an exception goes uncaught, or the
    model's recursion budget is used up. *)
Inductive status := Normal | Exit (code : nat) | Uncaught | OutOfFuel.

Definition prog := state -> state * status.

Definition skip : prog := fun s => (s, Normal).
Definition seq (p q : prog) : prog :=
  fun s => match p s with
           | (s', Normal) => q s'
           | r => r
           end.
Definition raise : prog := fun s => (s, Uncaught).
Definition exit (code : nat) : prog := fun s => (s, Exit code).

Notation "p >> q" := (seq p q) (at level 65, right associativity).

Fixpoint for_each {A} (l : list A) (body : A -> prog) : prog :=
  match l with
  | [] => skip
  | x :: l' => body x >> for_each l' body
  end.

Definition log (e : event) : prog :=
  fun s => (State (roms s) (dirs s) (files s) (file_count s) (trace s ++ [e]),
            Normal).
Definition roms_add (text : str) : prog :=
  fun s => (State (roms s ++ text) (dirs s) (files s) (file_count s) (trace s),
            Normal).
Definition dirs_add (text : str) : prog :=
  fun s => (State (roms s) (dirs s ++ text) (files s) (file_count s) (trace s),
            Normal).
Definition files_add (text : str) : prog :=
  fun s => (State (roms s) (dirs s) (files s ++ text) (file_count s) (trace s),
            Normal).
Definition file_count_incr : prog :=
  fun s => (State (roms s) (dirs s) (files s) (file_count s + 1) (trace s),
            Normal).

(** [outfd.write(text)]. *)
Definition write (text : str) : prog := log (EvWrite text).

(** ** The generator *)

Section generator.
Variable h : host.

(** ramfs-gen.py, lines 34-48. *)
Definition add_rom (path virtpath name : str) : prog :=
  log (EvOpen path ModeRB) >>
  match read_file h path with
  | None => raise
  | Some data =>
      log (EvRead path) >>
      roms_add ("uint8_t const " ++ name ++ "[] = {" ++ [nl] ++ "    ") >>
      for_each data (fun byte => roms_add ("0x" ++ hex02 byte ++ ",")) >>
      roms_add ([nl] ++ "};" ++ [nl]) >>
      roms_add ("size_t const " ++ name ++ "_len = " ++ dec (length data)
                ++ ";" ++ [nl]) >>
      files_add ("    fd = fs_open(FILE_NONE, " ++ [dq] ++ escape virtpath
                 ++ [dq] ++ ", " ++ dec (length virtpath)
                 ++ ", FS_O_CREATE | FS_O_WRITE_ONLY).file;" ++ [nl]) >>
      files_add ("    assert_always(fd.metadata);" ++ [nl]) >>
      files_add ("    len = fs_write(fd, " ++ name ++ ", " ++ name ++ "_len);"
                 ++ [nl]) >>
      files_add ("    assert_always(len == " ++ name ++ "_len);" ++ [nl]) >>
      files_add ("    fs_file_drop(fd);" ++ [nl]) >>
      log (EvClose path)
  end.

(** ramfs-gen.py, lines 51-59.  [fuel] bounds the depth of the recursion. *)
Fixpoint add_dir (fuel : nat) (path virtpath : str) : prog :=
  match fuel with
  | 0 => fun s => (s, OutOfFuel)
  | S fuel' =>
      log (EvListdir path) >>
      match listdir h path with
      | None => raise
      | Some names =>
          for_each names (fun filename =>
            log (EvIsdir (path ++ "/" ++ filename)) >>
            if isdir h (path ++ "/" ++ filename) then
              dirs_add ("    assert_dev_keep(fs_make_file(FILE_NONE, " ++ [dq]
                        ++ escape (virtpath ++ "/" ++ filename) ++ [dq] ++ ", "
                        ++ dec (length virtpath + 1 + length filename)
                        ++ ", (make_file_spec_t){.type = NODE_TYPE_DIRECTORY}) >= 0);"
                        ++ [nl]) >>
              add_dir fuel' (path ++ "/" ++ filename)
                      (virtpath ++ "/" ++ filename)
            else
              (fun s => add_rom (path ++ "/" ++ filename)
                                (virtpath ++ "/" ++ filename)
                                ("filerom_" ++ dec (file_count s)) s) >>
              file_count_incr)
      end
  end.

Definition usage : str := "Usage: ramfs-gen.py [indir] [outfile] [name]".

(** The state the script starts in (lines 19-22), nothing done yet. *)
Definition initial : state := State [] [] [] 0 [].

(** [sys.argv[i]]. *)
Definition arg (argv : list str) (i : nat) : str := nth i argv [].

(** Lines 9-17: the output file is opened and the fixed header written
    (opening the output file and writing to it are taken to succeed). *)
Definition prologue (argv : list str) : prog :=
  log (EvOpen (arg argv 2) ModeW) >>
  write ("// WARNING: This is a generated file, do not edit it!" ++ [nl]) >>
  write ("// clang-format off" ++ [nl]) >>
  write ("// NOLINTBEGIN" ++ [nl]) >>
  write ("#include <stdint.h>" ++ [nl]) >>
  write ("#include <stddef.h>" ++ [nl]) >>
  write ("#include " ++ [dq] ++ "filesystem.h" ++ [dq] ++ [nl]) >>
  write ("#include " ++ [dq] ++ "assertions.h" ++ [dq] ++ [nl]).

(** Lines 63-73: the collected fragments are written out (writing to the
    output file, flushing and closing it are taken to succeed). *)
Definition epilogue (argv : list str) : prog :=
  (fun s => write (roms s) s) >>
  write ("void " ++ arg argv 3 ++ "() {" ++ [nl]) >>
  write ("    file_t fd;" ++ [nl]) >>
  write ("    errno64_t len;" ++ [nl]) >>
  (fun s => write (dirs s) s) >>
  (fun s => write (files s) s) >>
  write ("    (void)len;" ++ [nl]) >>
  write ("}" ++ [nl]) >>
  write ("// NOLINTEND" ++ [nl]) >>
  log EvFlush >>
  log (EvClose (arg argv 2)).

(** The whole script; [argv] is [sys.argv], the script's name included. *)
Definition main (fuel : nat) (argv : list str) : state * status :=
  if decide (length argv <> 4) then
    (log (EvPrint usage) >> exit 1) initial
  else
    (prologue argv >>
     add_dir fuel (arg argv 1) [] >>
     epilogue argv) initial.

End generator.

(** The text the run has written to the output file. *)
Definition written (tr : list event) : str :=
  flat_map (fun e => match e with EvWrite text => text | _ => [] end) tr.

(** ** The input tree *)

(** What a walk finds under the input directory: the entries of each
    directory in enumeration order, an entry being a name with either the
    bytes read from it or the entries below it. *)
#[warnings="-register-all"]
Inductive node :=
  | File (data : list byte)
  | Dir (entries : list (str * node)).

Abbreviation tree := (list (str * node)).

(** The tree that host [h] presents under [path]: an entry is a directory
    exactly when [isdir] says so, and anything else is read as a file. *)
Fixpoint observe (h : host) (fuel : nat) (path : str) : option tree :=
  match fuel with
  | 0 => None
  | S fuel' =>
      names ← listdir h path;
      mapM (fun filename =>
              if isdir h (path ++ "/" ++ filename) then
                es ← observe h fuel' (path ++ "/" ++ filename);
                Some (filename, Dir es)
              else
                data ← read_file h (path ++ "/" ++ filename);
                Some (filename, File data))
           names
  end.

Inductive kind := KDir | KFile (data : list byte).

(** One discovery of the walk: an entry [name] found in the directory whose
    path is [parent]. *)
Record item := Item {
  item_parent : str;
  item_name : str;
  item_kind : kind
}.

Definition item_path (it : item) : str :=
  item_parent it ++ "/" ++ item_name it.

Definition is_dir (it : item) : bool :=
  match item_kind it with KDir => true | KFile _ => false end.
Definition is_file (it : item) : bool :=
  match item_kind it with KDir => false | KFile _ => true end.
Definition item_data (it : item) : list byte :=
  match item_kind it with KDir => [] | KFile data => data end.

(** Discovery order: a directory is met before what it contains, and what
    it contains before its next sibling. *)
Fixpoint walk_node (parent name : str) (n : node) : list item :=
  match n with
  | File data => [Item parent name (KFile data)]
  | Dir es =>
      Item parent name KDir
      :: flat_map (fun e => walk_node (parent ++ "/" ++ name) (fst e) (snd e)) es
  end.

Definition walk (es : tree) (parent : str) : list item :=
  flat_map (fun e => walk_node parent (fst e) (snd e)) es.

(** The calls the walk of a tree makes, in order. *)
Fixpoint node_events (path : str) (n : node) : list event :=
  match n with
  | File _ => [EvIsdir path; EvOpen path ModeRB; EvRead path; EvClose path]
  | Dir es =>
      EvIsdir path :: EvListdir path
      :: flat_map (fun e => node_events (path ++ "/" ++ fst e) (snd e)) es
  end.

Definition walk_events (path : str) (es : tree) : list event :=
  EvListdir path
  :: flat_map (fun e => node_events (path ++ "/" ++ fst e) (snd e)) es.

Fixpoint count_node (n : node) : nat :=
  match n with
  | File _ => 1
  | Dir es => S (list_sum (map (fun e => count_node (snd e)) es))
  end.

(** The number of directory entries the walk enumerates, at every depth. *)
Definition count_entries (es : tree) : nat :=
  list_sum (map (fun e => count_node (snd e)) es).

(** ** The generated artifact *)

(** A byte-array constant with its length constant. *)
Record rom_decl := RomDecl {
  rom_name : str;
  rom_data : list byte;
  rom_len : nat
}.

(** A statement of the entry function: a directory creation, or the five
    lines that open a file, write a byte array to it and drop the handle.
    [lit] is the inside of the string literal, [len] the number after it. *)
Inductive stmt :=
  | MakeDir (lit : str) (len : nat)
  | WriteFile (lit : str) (len : nat) (rom : str).

Record artifact := Artifact {
  art_roms : list rom_decl;
  art_entry : str;
  art_body : list stmt
}.

Definition print_rom (d : rom_decl) : str :=
  "uint8_t const " ++ rom_name d ++ "[] = {" ++ [nl] ++ "    "
  ++ flat_map (fun b => "0x" ++ hex02 b ++ ",") (rom_data d)
  ++ [nl] ++ "};" ++ [nl]
  ++ "size_t const " ++ rom_name d ++ "_len = " ++ dec (rom_len d) ++ ";" ++ [nl].

Definition print_stmt (st : stmt) : str :=
  match st with
  | MakeDir lit len =>
      "    assert_dev_keep(fs_make_file(FILE_NONE, " ++ [dq] ++ lit ++ [dq]
      ++ ", " ++ dec len
      ++ ", (make_file_spec_t){.type = NODE_TYPE_DIRECTORY}) >= 0);" ++ [nl]
  | WriteFile lit len rom =>
      "    fd = fs_open(FILE_NONE, " ++ [dq] ++ lit ++ [dq] ++ ", " ++ dec len
      ++ ", FS_O_CREATE | FS_O_WRITE_ONLY).file;" ++ [nl]
      ++ "    assert_always(fd.metadata);" ++ [nl]
      ++ "    len = fs_write(fd, " ++ rom ++ ", " ++ rom ++ "_len);" ++ [nl]
      ++ "    assert_always(len == " ++ rom ++ "_len);" ++ [nl]
      ++ "    fs_file_drop(fd);" ++ [nl]
  end.

Definition header : str :=
  "// WARNING: This is a generated file, do not edit it!" ++ [nl]
  ++ "// clang-format off" ++ [nl]
  ++ "// NOLINTBEGIN" ++ [nl]
  ++ "#include <stdint.h>" ++ [nl]
  ++ "#include <stddef.h>" ++ [nl]
  ++ "#include " ++ [dq] ++ "filesystem.h" ++ [dq] ++ [nl]
  ++ "#include " ++ [dq] ++ "assertions.h" ++ [dq] ++ [nl].

Definition print_artifact (a : artifact) : str :=
  header
  ++ flat_map print_rom (art_roms a)
  ++ "void " ++ art_entry a ++ "() {" ++ [nl]
  ++ "    file_t fd;" ++ [nl]
  ++ "    errno64_t len;" ++ [nl]
  ++ flat_map print_stmt (art_body a)
  ++ "    (void)len;" ++ [nl]
  ++ "}" ++ [nl]
  ++ "// NOLINTEND" ++ [nl].

(** The name of the [i]-th byte array. *)
Definition filerom (i : nat) : str := "filerom_" ++ dec i.

Definition rom_of (base i : nat) (it : item) : rom_decl :=
  RomDecl (filerom (base + i)) (item_data it) (length (item_data it)).

Definition stmt_of_dir (it : item) : stmt :=
  MakeDir (escape (item_path it))
          (length (item_parent it) + 1 + length (item_name it)).

Definition stmt_of_file (base i : nat) (it : item) : stmt :=
  WriteFile (escape (item_path it)) (length (item_path it))
            (filerom (base + i)).

(** The artifact for a list of discoveries: one byte array per file, numbered
    from [base] in discovery order; the directory creations, then the file
    writes. *)
Definition roms_of (base : nat) (l : list item) : list rom_decl :=
  imap (rom_of base) (filter is_file l).
Definition mkdirs_of (l : list item) : list stmt :=
  map stmt_of_dir (filter is_dir l).
Definition writes_of (base : nat) (l : list item) : list stmt :=
  imap (stmt_of_file base) (filter is_file l).

Definition compile (es : tree) (entry : str) : artifact :=
  Artifact (roms_of 0 (walk es []))
           entry
           (mkdirs_of (walk es []) ++ writes_of 0 (walk es [])).

(** ** Reading the output file back *)

(** The readers below accept the text of an artifact and nothing else of C:
    they serve to tell that the text written determines the artifact. *)

(** [text] with the prefix [pre] taken off. *)
Fixpoint expect (pre text : str) : option str :=
  match pre with
  | [] => Some text
  | c :: pre' =>
      match text with
      | [] => None
      | c' :: text' => if decide (c = c') then expect pre' text' else None
      end
  end.

(** The inside of a string literal, as written, and the text after its
    closing quote. *)
Fixpoint scan_raw_literal (text : str) : option (str * str) :=
  match text with
  | [] => None
  | c :: rest =>
      if decide (c = dq) then Some ([], rest)
      else if decide (c = bs) then
        match rest with
        | [] => None
        | e :: rest' =>
            prod_map (fun lit => c :: e :: lit) id <$> scan_raw_literal rest'
        end
      else prod_map (cons c) id <$> scan_raw_literal rest
  end.

(** The longest prefix of characters that satisfy [f], and the rest. *)
Fixpoint span (f : ascii -> bool) (text : str) : str * str :=
  match text with
  | [] => ([], [])
  | c :: rest =>
      if f c then (c :: fst (span f rest), snd (span f rest)) else ([], text)
  end.

Definition is_digit (c : ascii) : bool :=
  (48 <=? nat_of_ascii c) && (nat_of_ascii c <=? 57).

Definition is_ident_char (c : ascii) : bool :=
  is_digit c
  || ((65 <=? nat_of_ascii c) && (nat_of_ascii c <=? 90))
  || ((97 <=? nat_of_ascii c) && (nat_of_ascii c <=? 122))
  || (nat_of_ascii c =? 95).

(** A name the generated C can use: letters, digits and underscores,
    at least one. *)
Definition identifier (name : str) : Prop :=
  name <> [] /\ Forall (fun c => is_ident_char c = true) name.

Definition parse_dec (text : str) : option (nat * str) :=
  match fst (span is_digit text) with
  | [] => None
  | digits =>
      d ← NilEmpty.uint_of_string (string_of_list_ascii digits);
      Some (Nat.of_uint d, snd (span is_digit text))
  end.

Definition parse_ident (text : str) : option (str * str) :=
  match fst (span is_ident_char text) with
  | [] => None
  | name => Some (name, snd (span is_ident_char text))
  end.

Definition hexval (c : ascii) : option nat :=
  fst <$> list_find (fun d => d = c) (list_ascii_of_string "0123456789abcdef").

(** The byte that two hexadecimal digits denote. *)
Definition read_byte (hi lo : ascii) : option byte :=
  h ← hexval hi;
  l ← hexval lo;
  Byte.of_nat (16 * h + l).

(** The bytes of an array initialiser, up to the line feed that ends them. *)
Fixpoint parse_bytes (fuel : nat) (text : str) : option (list byte * str) :=
  match fuel with
  | 0 => None
  | S fuel' =>
      match expect "0x" text with
      | None => Some ([], text)
      | Some t =>
          match t with
          | hi :: lo :: t' =>
              b ← read_byte hi lo;
              t'' ← expect "," t';
              '(bytes, rest) ← parse_bytes fuel' t'';
              Some (b :: bytes, rest)
          | _ => None
          end
      end
  end.

Definition parse_rom (text : str) : option (rom_decl * str) :=
  t ← expect "uint8_t const " text;
  '(name, t) ← parse_ident t;
  t ← expect ("[] = {" ++ [nl] ++ "    ") t;
  '(data, t) ← parse_bytes (S (length t)) t;
  t ← expect ([nl] ++ "};" ++ [nl] ++ "size_t const ") t;
  t ← expect name t;
  t ← expect "_len = " t;
  '(len, t) ← parse_dec t;
  t ← expect (";" ++ [nl]) t;
  Some (RomDecl name data len, t).

Definition parse_mkdir (text : str) : option (stmt * str) :=
  t ← expect ("    assert_dev_keep(fs_make_file(FILE_NONE, " ++ [dq]) text;
  '(lit, t) ← scan_raw_literal t;
  t ← expect ", " t;
  '(len, t) ← parse_dec t;
  t ← expect (", (make_file_spec_t){.type = NODE_TYPE_DIRECTORY}) >= 0);"
              ++ [nl]) t;
  Some (MakeDir lit len, t).

Definition parse_write (text : str) : option (stmt * str) :=
  t ← expect ("    fd = fs_open(FILE_NONE, " ++ [dq]) text;
  '(lit, t) ← scan_raw_literal t;
  t ← expect ", " t;
  '(len, t) ← parse_dec t;
  t ← expect (", FS_O_CREATE | FS_O_WRITE_ONLY).file;" ++ [nl]
              ++ "    assert_always(fd.metadata);" ++ [nl]
              ++ "    len = fs_write(fd, ") t;
  '(rom, t) ← parse_ident t;
  t ← expect ", " t;
  t ← expect rom t;
  t ← expect ("_len);" ++ [nl] ++ "    assert_always(len == ") t;
  t ← expect rom t;
  t ← expect ("_len);" ++ [nl] ++ "    fs_file_drop(fd);" ++ [nl]) t;
  Some (WriteFile lit len rom, t).

Definition parse_stmt (text : str) : option (stmt * str) :=
  match parse_mkdir text with
  | Some r => Some r
  | None => parse_write text
  end.

(** As many of [item] as the text starts with. *)
Fixpoint parse_many {A} (item : str -> option (A * str)) (fuel : nat)
    (text : str) : list A * str :=
  match fuel with
  | 0 => ([], text)
  | S fuel' =>
      match item text with
      | None => ([], text)
      | Some (x, t) => (x :: fst (parse_many item fuel' t),
                        snd (parse_many item fuel' t))
      end
  end.

Definition parse_artifact (text : str) : option artifact :=
  t ← expect header text;
  let roms := parse_many parse_rom (length t) t in
  t ← expect "void " (snd roms);
  '(entry, t) ← parse_ident t;
  t ← expect ("() {" ++ [nl] ++ "    file_t fd;" ++ [nl]
              ++ "    errno64_t len;" ++ [nl]) t;
  let body := parse_many parse_stmt (length t) t in
  t ← expect ("    (void)len;" ++ [nl] ++ "}" ++ [nl] ++ "// NOLINTEND" ++ [nl])
             (snd body);
  match t with
  | [] => Some (Artifact (fst roms) entry (fst body))
  | _ => None
  end.

(** A statement as the generator writes them: the literal is an escaped
    path and the byte array is named by an identifier. *)
Definition wf_stmt (st : stmt) : Prop :=
  match st with
  | MakeDir lit _ => exists p, lit = escape p
  | WriteFile lit _ rom => (exists p, lit = escape p) /\ identifier rom
  end.

Definition wf_artifact (a : artifact) : Prop :=
  Forall (fun d => identifier (rom_name d)) (art_roms a) /\
  identifier (art_entry a) /\
  Forall wf_stmt (art_body a).

(** ** What the walk adds to the globals *)

(** [s'] is [s] with the text for the discoveries [l] added to the three
    fragments, the byte arrays numbered from the counter of [s]. *)
Definition emitted (l : list item) (s s' : state) : Prop :=
  roms s' = roms s ++ flat_map print_rom (roms_of (file_count s) l) /\
  dirs s' = dirs s ++ flat_map print_stmt (mkdirs_of l) /\
  files s' = files s ++ flat_map print_stmt (writes_of (file_count s) l) /\
  file_count s' = file_count s + length (filter is_file l).

(** ** Hosts and the trees they present *)

(** Host [h] presents node [n] at [path]: a file is a path that [isdir]
    rejects and whose bytes can be read; a directory is a path that [isdir]
    accepts and whose listing is the names of its entries, in order, each
    entry presented in turn one level down. *)
#[warnings="-register-all"]
Inductive presents_node (h : host) : str -> node -> Prop :=
  | presents_file path data :
      isdir h path = false ->
      read_file h path = Some data ->
      presents_node h path (File data)
  | presents_dir path es :
      isdir h path = true ->
      listdir h path = Some (map fst es) ->
      Forall (fun e => presents_node h (path ++ "/" ++ fst e) (snd e)) es ->
      presents_node h path (Dir es).

(** The input directory itself is listed without being tested. *)
Definition presents (h : host) (path : str) (es : tree) : Prop :=
  listdir h path = Some (map fst es) /\
  Forall (fun e => presents_node h (path ++ "/" ++ fst e) (snd e)) es.

Fixpoint depth_node (n : node) : nat :=
  match n with
  | File _ => 0
  | Dir es => S (list_max (map (fun e => depth_node (snd e)) es))
  end.

(** The number of directory levels below the input directory. *)
Definition depth (es : tree) : nat :=
  list_max (map (fun e => depth_node (snd e)) es).

(** ** The calls of a run *)

Definition header_writes : list event :=
  [EvWrite ("// WARNING: This is a generated file, do not edit it!" ++ [nl]);
   EvWrite ("// clang-format off" ++ [nl]);
   EvWrite ("// NOLINTBEGIN" ++ [nl]);
   EvWrite ("#include <stdint.h>" ++ [nl]);
   EvWrite ("#include <stddef.h>" ++ [nl]);
   EvWrite ("#include " ++ [dq] ++ "filesystem.h" ++ [dq] ++ [nl]);
   EvWrite ("#include " ++ [dq] ++ "assertions.h" ++ [dq] ++ [nl])].

(** Every call of a run that completes on a host presenting the tree [es]. *)
Definition run_trace (argv : list str) (es : tree) : list event :=
  [EvOpen (arg argv 2) ModeW] ++ header_writes
  ++ walk_events (arg argv 1) es
  ++ [EvWrite (flat_map print_rom (roms_of 0 (walk es [])));
      EvWrite ("void " ++ arg argv 3 ++ "() {" ++ [nl]);
      EvWrite ("    file_t fd;" ++ [nl]);
      EvWrite ("    errno64_t len;" ++ [nl]);
      EvWrite (flat_map print_stmt (mkdirs_of (walk es [])));
      EvWrite (flat_map print_stmt (writes_of 0 (walk es [])));
      EvWrite ("    (void)len;" ++ [nl]);
      EvWrite ("}" ++ [nl]);
      EvWrite ("// NOLINTEND" ++ [nl]);
      EvFlush;
      EvClose (arg argv 2)].

(** The calls of the walk: they list, test and read, and nothing else. *)
Definition read_only (e : event) : Prop :=
  match e with
  | EvListdir _ | EvIsdir _ | EvOpen _ ModeRB | EvRead _ | EvClose _ => True
  | _ => False
  end.

(** However it ends, [p] only adds calls that list, test and read, and it
    never exits the process. *)
Definition reads_only (p : prog) : Prop :=
  forall s s' st, p s = (s', st) ->
    (exists evs, trace s' = trace s ++ evs /\ Forall read_only evs) /\
    (forall code, st <> Exit code).

(** ** The scenario of the spec *)

(** [root/] holds [a.txt] (bytes 68 69) and [sub/], which holds the empty
    [b.bin]; the host lists [a.txt] before [sub]. *)
Definition root6 : tree :=
  [("a.txt" : str, File [x68; x69]);
   ("sub" : str, Dir [("b.bin" : str, File [])])].

Definition host6 : host :=
  Host (fun path =>
          if decide (path = "root") then Some ["a.txt" : str; "sub" : str]
          else if decide (path = "root/sub") then Some ["b.bin" : str]
          else None)
       (fun path => bool_decide (path = "root" \/ path = "root/sub"))
       (fun path =>
          if decide (path = "root/a.txt") then Some [x68; x69]
          else if decide (path = "root/sub/b.bin") then Some []
          else None).

(** The same directory on a host that lists [sub] before [a.txt]. *)
Definition root6r : tree :=
  [("sub" : str, Dir [("b.bin" : str, File [])]);
   ("a.txt" : str, File [x68; x69])].

Definition host6r : host :=
  Host (fun path =>
          if decide (path = "root") then Some ["sub" : str; "a.txt" : str]
          else listdir host6 path)
       (isdir host6)
       (read_file host6).

Definition argv6 : list str :=
  ["ramfs-gen.py" : str; "root" : str; "out.c" : str; "ramfs_init" : str].

Definition unlines (lines : list str) : str :=
  flat_map (fun line => line ++ [nl]) lines.

(** The output file for the scenario, line by line. *)
Definition expected6 (entry : str) : str :=
  unlines
    ["// WARNING: This is a generated file, do not edit it!" : str;
     "// clang-format off" : str;
     "// NOLINTBEGIN" : str;
     "#include <stdint.h>" : str;
     "#include <stddef.h>" : str;
     "#include " ++ [dq] ++ "filesystem.h" ++ [dq];
     "#include " ++ [dq] ++ "assertions.h" ++ [dq];
     "uint8_t const filerom_0[] = {" : str;
     "    0x68,0x69," : str;
     "};" : str;
     "size_t const filerom_0_len = 2;" : str;
     "uint8_t const filerom_1[] = {" : str;
     "    " : str;
     "};" : str;
     "size_t const filerom_1_len = 0;" : str;
     "void " ++ entry ++ "() {";
     "    file_t fd;" : str;
     "    errno64_t len;" : str;
     "    assert_dev_keep(fs_make_file(FILE_NONE, " ++ [dq] ++ "/sub" ++ [dq]
       ++ ", 4, (make_file_spec_t){.type = NODE_TYPE_DIRECTORY}) >= 0);";
     "    fd = fs_open(FILE_NONE, " ++ [dq] ++ "/a.txt" ++ [dq]
       ++ ", 6, FS_O_CREATE | FS_O_WRITE_ONLY).file;";
     "    assert_always(fd.metadata);" : str;
     "    len = fs_write(fd, filerom_0, filerom_0_len);" : str;
     "    assert_always(len == filerom_0_len);" : str;
     "    fs_file_drop(fd);" : str;
     "    fd = fs_open(FILE_NONE, " ++ [dq] ++ "/sub/b.bin" ++ [dq]
       ++ ", 10, FS_O_CREATE | FS_O_WRITE_ONLY).file;";
     "    assert_always(fd.metadata);" : str;
     "    len = fs_write(fd, filerom_1, filerom_1_len);" : str;
     "    assert_always(len == filerom_1_len);" : str;
     "    fs_file_drop(fd);" : str;
     "    (void)len;" : str;
     "}" : str;
     "// NOLINTEND" : str].

(** The scenario tree on a host that holds other things as well. *)
Definition host6' : host :=
  Host (fun path => if decide (path = "elsewhere") then Some []
                    else listdir host6 path)
       (fun path => bool_decide (path = "elsewhere") || isdir host6 path)
       (read_file host6).

(** ** What a run touches *)

Definition opens_for_writing (e : event) : bool :=
  match e with EvOpen _ ModeW => true | _ => false end.

(** The host paths of what the walk finds under the input directory. *)
Definition input_paths (argv : list str) (es : tree) : list str :=
  map item_path (walk es (arg argv 1)).

(** ** An output file inside the input directory *)

(** The output file placed inside the input directory, where an earlier run
    left it. *)
Definition host7 : host :=
  Host (fun path => if decide (path = "in") then Some ["out.c" : str] else None)
       (fun path => bool_decide (path = "in"))
       (fun path => if decide (path = "in/out.c") then Some [] else None).

Definition argv7 : list str :=
  ["ramfs-gen.py" : str; "in" : str; "in/out.c" : str; "init" : str].

(** ** Well-formed input trees *)

(** A name as a directory listing gives it: not empty, not [.] or [..],
    and without a slash. *)
Definition valid_name (name : str) : Prop :=
  name <> [] /\ name <> "." /\ name <> ".." /\ slash ∉ name.

(** A tree as a host can hold it: the names are valid and the names in one
    directory are pairwise distinct. *)
#[warnings="-register-all"]
Inductive wf_node : node -> Prop :=
  | wf_file data : wf_node (File data)
  | wf_dir es :
      NoDup (map fst es) ->
      Forall (fun e => valid_name (fst e) /\ wf_node (snd e)) es ->
      wf_node (Dir es).

Definition wf_tree (es : tree) : Prop := wf_node (Dir es).

#[global] Instance valid_name_dec name : Decision (valid_name name).
Proof. unfold valid_name. apply _. Defined.

(** The same, as a test that runs. *)
Fixpoint wf_nodeb (n : node) : bool :=
  match n with
  | File _ => true
  | Dir es =>
      bool_decide (NoDup (map fst es))
      && forallb (fun e => bool_decide (valid_name (fst e)) && wf_nodeb (snd e)) es
  end.

(** The node of a tree at a relative path given by its components. *)
Fixpoint node_at (n : node) (comps : list str) : option node :=
  match comps with
  | [] => Some n
  | c :: comps' =>
      match n with
      | File _ => None
      | Dir es =>
          (fix find (es : tree) : option node :=
             match es with
             | [] => None
             | e :: es' =>
                 if decide (fst e = c) then node_at (snd e) comps' else find es'
             end) es
      end
  end.

(** The virtual path with the given components: [/c1/c2/.../ck]. *)
Definition vpath (comps : list str) : str :=
  flat_map (fun c => "/" ++ c) comps.

(** ** The target filesystem *)

Inductive tnode := TDir | TFile (content : list byte).

#[global] Instance byte_eq_dec : EqDecision byte := Byte.byte_eq_dec.
#[global] Instance tnode_eq_dec : EqDecision tnode.
Proof. solve_decision. Defined.

(** Modelled from the spec: the target in-memory filesystem that the entry
    function populates; its code is in the kernel, not in the generator.  A
    filesystem maps the virtual path of each node to the node; the root
    directory, whose path is empty, always exists.  The primitives are the
    ones section 6 of the spec asks of the target: create a node of
    directory type at a path, open-or-create a file for writing by path,
    write bytes to the opened file. *)
Abbreviation tfs := (gmap str tnode).

(** Modelled from the spec: path resolution in the target filesystem, as
    far as the entry function needs it.  The path of the containing
    directory is what stands before the last slash. *)
Fixpoint dirname (p : str) : option str :=
  match p with
  | [] => None
  | c :: p' =>
      match dirname p' with
      | Some d => Some (c :: d)
      | None => if decide (c = slash) then Some [] else None
      end
  end.

Definition is_directory (fs : tfs) (p : str) : bool :=
  bool_decide (p = []) || bool_decide (fs !! p = Some TDir).

Definition parent_exists (fs : tfs) (p : str) : bool :=
  match dirname p with
  | Some d => is_directory fs d
  | None => false
  end.

(** Modelled from the spec: [fs_make_file] with a directory type succeeds
    when the containing directory exists and the path is free. *)
Definition fs_make_dir (fs : tfs) (p : str) : option tfs :=
  if parent_exists fs p && bool_decide (fs !! p = None)
  then Some (<[p := TDir]> fs)
  else None.

(** Modelled from the spec: [fs_open] with [FS_O_CREATE | FS_O_WRITE_ONLY]
    succeeds when the containing directory exists and the path is free, in
    which case an empty file is created, or is a file already. *)
Definition fs_open_create (fs : tfs) (p : str) : option tfs :=
  if parent_exists fs p then
    match fs !! p with
    | None => Some (<[p := TFile []]> fs)
    | Some (TFile _) => Some fs
    | Some TDir => None
    end
  else None.

(** Modelled from the spec: [fs_write] on a handle just opened writes the
    bytes from the start of the file. *)
Definition fs_write (fs : tfs) (p : str) (data : list byte) : option tfs :=
  match fs !! p with
  | Some (TFile old) => Some (<[p := TFile (data ++ drop (length data) old)]> fs)
  | _ => None
  end.

(** The bytes of a character in the output file ([open(..., "w")] encodes
    in UTF-8): one byte below 128, two from 128 to 255. *)
Definition utf8_char (c : ascii) : str :=
  if nat_of_ascii c <? 128 then [c]
  else [ascii_of_nat (192 + nat_of_ascii c / 64);
        ascii_of_nat (128 + nat_of_ascii c mod 64)].

Definition utf8 (s : str) : str := flat_map utf8_char s.

(** Every character is below 128. *)
Definition is_plain (s : str) : bool :=
  forallb (fun c => nat_of_ascii c <? 128) s.

(** The path a call receives: the bytes the literal denotes in the compiled
    program (the bytes of the output file between the quotes, with the
    escape sequences resolved), cut to the length passed with it, which
    counts bytes and must not exceed their number. *)
Definition c_path (lit : str) (len : nat) : option str :=
  p ← c_unescape (utf8 lit);
  if decide (len <= length p) then Some (take len p) else None.

Fixpoint rom_lookup (roms : list rom_decl) (name : str) : option rom_decl :=
  match roms with
  | [] => None
  | d :: roms' =>
      if decide (rom_name d = name) then Some d else rom_lookup roms' name
  end.

(** Modelled from the spec: what the statements of the entry function do
    through the primitives above; [None] is a failed assertion. *)
Definition exec_stmt (roms : list rom_decl) (fs : tfs) (st : stmt) : option tfs :=
  match st with
  | MakeDir lit len =>
      p ← c_path lit len;
      fs_make_dir fs p
  | WriteFile lit len rom =>
      p ← c_path lit len;
      d ← rom_lookup roms rom;
      fs1 ← fs_open_create fs p;
      if decide (rom_len d <= length (rom_data d))
      then fs_write fs1 p (take (rom_len d) (rom_data d))
      else None
  end.

Fixpoint exec_body (roms : list rom_decl) (fs : tfs) (body : list stmt) : option tfs :=
  match body with
  | [] => Some fs
  | st :: body' =>
      fs1 ← exec_stmt roms fs st;
      exec_body roms fs1 body'
  end.

(** Running the entry function of an artifact on a filesystem. *)
Definition run_entry (a : artifact) (fs : tfs) : option tfs :=
  exec_body (art_roms a) fs (art_body a).

Definition tnode_of (n : node) : tnode :=
  match n with File data => TFile data | Dir _ => TDir end.

Definition tnode_of_kind (k : kind) : tnode :=
  match k with KFile data => TFile data | KDir => TDir end.

(** The filesystem that holds the given discoveries and nothing else. *)
Definition fs_of (l : list item) : tfs :=
  list_to_map ((fun it => (item_path it, tnode_of_kind (item_kind it))) <$> l).

(** ** Paths and the order of discovery *)

(** [more] is empty or starts a further component. *)
Definition tail_of_path (more : str) : Prop :=
  more = [] \/ exists m, more = slash :: m.

(** The path of [it] is [p] or lies under [p]. *)
Definition below (p : str) (it : item) : Prop :=
  exists more, item_path it = p ++ more /\ tail_of_path more.

(** In [l], whatever lies under a directory deeper than [vp] comes after
    the discovery of that directory. *)
Definition ancestors_before (vp : str) (l : list item) : Prop :=
  forall l1 it l2 q rest,
    l = l1 ++ it :: l2 ->
    item_path it = q ++ slash :: rest ->
    length vp < length q ->
    exists it', it' ∈ l1 /\ is_dir it' = true /\ item_path it' = q.

(** What stands before [it] in [ops] makes room for it: its name has no
    slash, and its parent is the root or a directory met before. *)
Definition placed (ops : list item) : Prop :=
  forall before it after,
    ops = before ++ it :: after ->
    (slash ∉ item_name it) /\
    (item_parent it = [] \/
     exists it', it' ∈ before /\ is_dir it' = true
                 /\ item_path it' = item_parent it).

(** ** Further properties of the generator *)

(** The characters that [escape] rewrites. *)
Definition special (c : ascii) : bool :=
  bool_decide (c = bs \/ c = cr \/ c = nl \/ c = dq).

Fixpoint count_dirs_node (n : node) : nat :=
  match n with
  | File _ => 0
  | Dir es => S (list_sum (map (fun e => count_dirs_node (snd e)) es))
  end.

(** The number of directories below the input directory, empty ones too. *)
Definition count_dirs (es : tree) : nat :=
  list_sum (map (fun e => count_dirs_node (snd e)) es).

Fixpoint count_files_node (n : node) : nat :=
  match n with
  | File _ => 1
  | Dir es => list_sum (map (fun e => count_files_node (snd e)) es)
  end.

(** The number of files below the input directory. *)
Definition count_files (es : tree) : nat :=
  list_sum (map (fun e => count_files_node (snd e)) es).

(** The collected text only grows from [s] to [s']. *)
Definition grows (s s' : state) : Prop :=
  roms s `prefix_of` roms s' /\
  dirs s `prefix_of` dirs s' /\
  files s `prefix_of` files s' /\
  file_count s <= file_count s' /\
  trace s `prefix_of` trace s'.



(** A host with two entries that are not directories; the first cannot be
    read. *)
Definition host_refusing : host :=
  Host (fun path =>
          if decide (path = "root") then Some ["a.txt" : str; "b.txt" : str]
          else None)
       (fun _ => false)
       (fun path => if decide (path = "root/b.txt") then Some [x68] else None).

(** The trees all of whose paths are plain. *)
Definition plain_tree (es : tree) : Prop :=
  Forall (fun it => is_plain (item_path it) = true) (walk es []).

(** A host whose input directory holds one file, named by the one character
    U+00E9 (e with acute accent). *)
Definition e_acute : ascii := ascii_of_nat 233.

Definition root_accent : tree := [([e_acute], File [x68; x69])].

Definition host_accent : host :=
  Host (fun path => if decide (path = "root") then Some [[e_acute]] else None)
       (fun _ => false)
       (fun path =>
          if decide (path = "root/" ++ [e_acute]) then Some [x68; x69] else None).

(** A host whose input directory is empty. *)
Definition host_empty : host :=
  Host (fun path => if decide (path = "root") then Some [] else None)
       (fun _ => false)
       (fun _ => None).

(** Whatever [p] does and however it ends, it adds the text of whole
    discoveries. *)
Definition adds_whole_entries (p : prog) : Prop :=
  forall s s' st, p s = (s', st) -> exists l, emitted l s s'.

(** The text of a byte-array initialiser (line 39-40). *)
Definition bytes_text (data : list byte) : str :=
  flat_map (fun b => "0x" ++ hex02 b ++ ",") data.


(** * [tools/selarch.py]: the toolchain selection helper

    The script asks on the terminal, looks for compilers along [PATH] and
    derives the settings of the build configuration.  It is modelled as
    Python 3.12 runs it on a POSIX system (the nested quotes of lines
    148-150 are a syntax error before 3.12; [os.uname] exists on POSIX
    only, where [os.pathsep] is the colon), from the parsed arguments to
    the summary of lines 148-150; the writing of the two configuration
    files (lines 154-169) is not modelled.  The terminal is a list of
    pending input events and a list of what was printed; Ctrl-C is met at
    [input] only.  The environment (machine name, [PATH], directory
    listings, file existence, the answer of a compiler to [-dumpmachine])
    is a record of oracles, taken not to change during the run. *)
Module Selarch.

(** Built-in functions whose result depends on the whole of Unicode; the
    model takes them as they come. *)
Record runtime := Runtime {
  int_of : str -> option Z;    (* [int(resp)]; [None]: it raises ValueError *)
  strip : str -> str;          (* [s.strip()] *)
  lower : str -> str           (* [s.lower()] *)
}.

(** [subprocess.run([path, '-dumpmachine'], capture_output=True)]: it raises
    (no such file, not executable), or returns a code and the captured
    output; [stdout] is [None] when the bytes do not decode. *)
Inductive ran :=
  | Crashed
  | Returned (returncode : Z) (stdout : option str).

Record env := Env {
  machine : str;                          (* [os.uname().machine] *)
  getenv_PATH : option str;               (* [os.getenv("PATH")] *)
  listdir : str -> option (list str);     (* [None]: [os.listdir] raises *)
  path_exists : str -> bool;              (* [os.path.exists] *)
  dumpmachine : str -> ran
}.

Inductive exn :=
  | NameError | IndexError | AttributeError | UnicodeDecodeError | OSError.

(** What [input] meets: a line, Ctrl-C, or a failure of another kind; the
    end of the list is the end of the input. *)
Inductive input_event :=
  | Line (resp : str)
  | Interrupt
  | InputError.

(** [print(line)] and the prompt of [input(text)]. *)
Inductive output_event :=
  | Printed (line : str)
  | Prompted (text : str).

Record console := Console {
  stdin : list input_event;
  output : list output_event
}.

Inductive outcome (A : Type) :=
  | Ret (a : A)
  | Exit (code : Z)
  | Raised (e : exn).
Arguments Ret {A} a.
Arguments Exit {A} code.
Arguments Raised {A} e.

Definition io (A : Type) : Type := console -> console * outcome A.

Definition ret {A} (a : A) : io A := fun c => (c, Ret a).

Definition bind {A B} (m : io A) (k : A -> io B) : io B := fun c =>
  match m c with
  | (c', Ret a) => k a c'
  | (c', Exit code) => (c', Exit code)
  | (c', Raised e) => (c', Raised e)
  end.

Notation "'let*' x ':=' m 'in' k" := (bind m (fun x => k))
  (at level 10, x name, m at level 100, k at level 200).

Definition lift {A} (r : outcome A) : io A := fun c => (c, r).

Definition print (line : str) : io unit := fun c =>
  (Console (stdin c) (output c ++ [Printed line]), Ret tt).

(** [l[i]] for a non-negative [i]. *)
Definition index {A} (l : list A) (i : nat) : outcome A :=
  match l !! i with Some x => Ret x | None => Raised IndexError end.

(** ** The prompts (lines 12-60) *)

Definition choice_prompt (name : str) (preferred : option nat) : str :=
  match preferred with
  | Some p => "Select " ++ name ++ " [" ++ dec (p + 1) ++ "] "
  | None => "Select " ++ name ++ ": "
  end.

(** The [while True] of lines 20-35: one turn per input event. *)
Fixpoint choice_loop (rt : runtime) (name : str) (options : list str)
    (preferred : option nat) (ins : list input_event)
    (out : list output_event) : console * outcome nat :=
  let out := out ++ [Prompted (choice_prompt name preferred)] in
  match ins with
  | [] => (Console [] (out ++ [Printed []]), Exit 1)
  | Interrupt :: ins => (Console ins (out ++ [Printed []]), Exit 1)
  | InputError :: ins => choice_loop rt name options preferred ins out
  | Line resp :: ins =>
      match (if decide (strip rt resp = []) then preferred else None) with
      | Some p => (Console ins out, Ret p)
      | None =>
          match int_of rt resp with
          | Some index =>
              if decide (1 <= index /\ index <= Z.of_nat (length options))%Z
              then (Console ins out, Ret (Z.to_nat (index - 1)))
              else choice_loop rt name options preferred ins out
          | None => choice_loop rt name options preferred ins out
          end
      end
  end.

(** Lines 12-35. *)
Definition prompt_choice (rt : runtime) (use_defaults : bool) (name : str)
    (options : list str) (preferred : option nat) : io nat := fun c =>
  match (if use_defaults then preferred else None) with
  | Some p => (c, Ret p)
  | None =>
      choice_loop rt name options preferred (stdin c)
        (output c
         ++ [Printed []; Printed ("Options for " ++ name ++ ":")]
         ++ imap (fun i o => Printed ("[" ++ dec (i + 1) ++ "] " ++ o)) options)
  end.

Definition yesno_prompt (name : str) (default : option bool) : str :=
  match default with
  | Some true => name ++ " [Y/n] "
  | Some false => name ++ " [y/N] "
  | None => name ++ " [y/n] "
  end.

(** The [while True] of lines 42-60. *)
Fixpoint yesno_loop (rt : runtime) (name : str) (default : option bool)
    (ins : list input_event) (out : list output_event)
    : console * outcome bool :=
  let out := out ++ [Prompted (yesno_prompt name default)] in
  match ins with
  | [] => (Console [] (out ++ [Printed []]), Exit 1)
  | Interrupt :: ins => (Console ins (out ++ [Printed []]), Exit 1)
  | InputError :: ins => yesno_loop rt name default ins out
  | Line resp :: ins =>
      match (if decide (strip rt resp = []) then default else None) with
      | Some d => (Console ins out, Ret d)
      | None =>
          if decide (lower rt (strip rt resp) ∈ ["y" : str; "yes" : str])
          then (Console ins out, Ret true)
          else if decide (lower rt (strip rt resp) ∈ ["n" : str; "no" : str])
          then (Console ins out, Ret false)
          else yesno_loop rt name default ins out
      end
  end.

(** Lines 37-60. *)
Definition prompt_yesno (rt : runtime) (use_defaults : bool) (name : str)
    (default : option bool) : io bool := fun c =>
  match (if use_defaults then default else None) with
  | Some d => (c, Ret d)
  | None => yesno_loop rt name default (stdin c) (output c ++ [Printed []])
  end.

(** ** Looking for compilers (lines 62-111) *)

(** [needle in hay] on strings. *)
Fixpoint contains (needle hay : str) : bool :=
  bool_decide (needle `prefix_of` hay)
  || match hay with [] => false | _ :: hay' => contains needle hay' end.

(** [s.split(sep)] for a separator of one character. *)
Fixpoint split (sep : ascii) (s : str) : list str :=
  match s with
  | [] => [[]]
  | c :: s' =>
      if decide (c = sep) then [] :: split sep s'
      else match split sep s' with
           | [] => [[c]]
           | piece :: pieces => (c :: piece) :: pieces
           end
  end.

(** [s[:-n]]. *)
Definition but_last (n : nat) (s : str) : str :=
  match n with 0 => [] | _ => take (length s - n) s end.

(** Lines 62-65. *)
Definition query_compiler_arch (rt : runtime) (e : env) (path : str)
    : outcome (option str) :=
  match dumpmachine e path with
  | Crashed => Raised OSError
  | Returned returncode stdout =>
      if decide (returncode <> 0%Z) then Ret None
      else match stdout with
           | Some text => Ret (Some (strip rt text))
           | None => Raised UnicodeDecodeError
           end
  end.

(** Lines 67-74; [cpu] is [config["cpu"]], set at line 92 before any call
    and not changed afterwards. *)
Definition test_candidate (rt : runtime) (e : env) (cpu : str)
    (prefix compiler_name : str) : outcome bool :=
  if negb (path_exists e (prefix ++ "objdump"))
     || negb (path_exists e (prefix ++ "addr2line"))
  then Ret false
  else match query_compiler_arch rt e (prefix ++ compiler_name) with
       | Ret None => Ret false
       | Ret (Some cc_arch) =>
           Ret (contains cpu cc_arch
                && (contains "badgeros" cc_arch || contains "linux-gnu" cc_arch))
       | Exit code => Exit code
       | Raised x => Raised x
       end.

Definition known_compiler_names : list str :=
  ["gcc" : str; "cc" : str; "clang" : str].
Definition architectures : list str :=
  ["riscv64" : str; "riscv32" : str; "x86_64" : str].

(** The two lists of lines 94-95. *)
Record found := Found {
  candidates : list str;
  prefixes : list str
}.

(** Lines 103-111 for one file name: the names still to try. *)
Fixpoint try_names (rt : runtime) (e : env) (cpu : str) (dir filename : str)
    (names : list str) (f : found) : outcome found :=
  match names with
  | [] => Ret f
  | compiler_name :: names =>
      if decide (compiler_name `suffix_of` filename) then
        if bool_decide (length compiler_name < length filename)
           && negb (bool_decide
                (filename !! (length filename - length compiler_name - 1)
                 = Some "-"%char))
        then try_names rt e cpu dir filename names f
        else
          let prefix := dir ++ "/" ++ but_last (length compiler_name) filename in
          match test_candidate rt e cpu prefix compiler_name with
          | Ret ok =>
              if ok && negb (bool_decide (prefix ++ compiler_name ∈ candidates f))
              then Ret (Found (candidates f ++ [prefix ++ compiler_name])
                              (prefixes f ++ [prefix]))
              else Ret f
          | Exit code => Exit code
          | Raised x => Raised x
          end
      else try_names rt e cpu dir filename names f
  end.

(** A [for] loop whose body may raise. *)
Fixpoint for_each_in {A S} (l : list A) (body : A -> S -> outcome S) (s : S)
    : outcome S :=
  match l with
  | [] => Ret s
  | x :: l' =>
      match body x s with
      | Ret s' => for_each_in l' body s'
      | Exit code => Exit code
      | Raised e => Raised e
      end
  end.

(** Lines 97-111. *)
Definition scan (rt : runtime) (e : env) (cpu : str) : outcome found :=
  match getenv_PATH e with
  | None => Raised AttributeError
  | Some path =>
      for_each_in (split ":" path)
        (fun dir f =>
           match listdir e dir with
           | None => Ret f
           | Some files =>
               for_each_in files
                 (fun filename f =>
                    try_names rt e cpu dir filename known_compiler_names f)
                 f
           end)
        (Found [] [])
  end.

(** ** The configuration (lines 86-150) *)

(** A Python dict of strings: the pairs in insertion order. *)
Definition dict := list (str * str).

Fixpoint dict_set (d : dict) (k v : str) : dict :=
  match d with
  | [] => [(k, v)]
  | (k', v') :: d' =>
      if decide (k' = k) then (k, v) :: d' else (k', v') :: dict_set d' k v
  end.

Fixpoint dict_get (d : dict) (k : str) : option str :=
  match d with
  | [] => None
  | (k', v') :: d' => if decide (k' = k) then Some v' else dict_get d' k
  end.

Record args := Args {
  arch : option str;      (* [--arch], one of [architectures] when given *)
  use_default : bool      (* [--default] *)
}.

Definition rv_float_enum : list str := ["none" : str; "single" : str; "double" : str].
Definition rv_float_isa : list str := ["" : str; "f" : str; "fd" : str].
Definition x64_arch_enum : list str :=
  ["minimum" : str; "~2008 onwards" : str; "~2013 onwards" : str].
Definition x64_arch_isa : list str :=
  ["x86-64" : str; "x86-64-v2" : str; "x86-64-v3" : str].

Definition startswith (s p : str) : bool := bool_decide (p `prefix_of` s).

(** [str(b)] for a bool. *)
Definition str_of_bool (b : bool) : str := if b then "True" else "False".

(** Lines 88-92. *)
Definition choose_cpu (rt : runtime) (e : env) (a : args) : io str :=
  let host_arch := fst <$> list_find (fun x => x = machine e) architectures in
  match arch a with
  | Some (c :: x) => ret (c :: x)
  | _ =>
      let* i := prompt_choice rt (use_default a) "architecture" architectures
                  host_arch in
      lift (index architectures i)
  end.

(** Lines 117-136: the configuration so far, paired with [float_spec]
    when line 126 has bound it. *)
Definition choose_isa (rt : runtime) (e : env) (a : args) (cpu : str)
    (config : dict) : io (dict * option nat) :=
  let* native :=
    if decide (machine e = cpu)
    then prompt_yesno rt (use_default a) "Use native ISA?" (Some true)
    else ret false in
  if native then
    let config := dict_set config "isa_spec" "native" in
    if startswith cpu "riscv" then
      ret (dict_set config "kisa_spec"
             ("rv" ++ drop 5 cpu ++ "imac_zicsr_zifencei"), None)
    else
      ret (dict_set config "kisa_spec" "x86-64", None)
  else if startswith cpu "riscv" then
    let* float_spec :=
      prompt_choice rt (use_default a) "float spec" rv_float_enum (Some 2) in
    let* use_vec :=
      prompt_yesno rt (use_default a) "Support vector extensions?" (Some true) in
    let* float_name := lift (index rv_float_enum float_spec) in
    let config := dict_set config "rv_float_spec" float_name in
    let config := dict_set config "rv_use_vector" (str_of_bool use_vec) in
    let* float_isa := lift (index rv_float_isa float_spec) in
    let config := dict_set config "isa_spec"
      ("rv" ++ drop 5 cpu ++ "ima" ++ float_isa ++ "c"
       ++ (if use_vec then "v" else "") ++ "_zicsr_zifencei") in
    let config := dict_set config "kisa_spec"
      ("rv" ++ drop 5 cpu ++ "imac_zicsr_zifencei") in
    ret (config, Some float_spec)
  else
    let* i := prompt_choice rt (use_default a) "approx. architecture"
                x64_arch_enum (Some 2) in
    let* isa := lift (index x64_arch_isa i) in
    let config := dict_set config "isa_spec" isa in
    ret (dict_set config "kisa_spec" "x86-64", None).

(** Lines 138-143; reading [float_spec] when nothing has bound it raises
    NameError. *)
Definition choose_abi (cpu : str) (config : dict) (float_spec : option nat)
    : outcome dict :=
  if startswith cpu "riscv" then
    let kabi : str := if decide (cpu = "riscv32") then "ilp32" else "lp64" in
    let config := dict_set config "kabi_spec" kabi in
    match float_spec with
    | None => Raised NameError
    | Some i =>
        match index (["" : str; "f" : str; "d" : str]) i with
        | Ret suffix => Ret (dict_set config "abi_spec" (kabi ++ suffix))
        | Exit code => Exit code
        | Raised x => Raised x
        end
    end
  else
    Ret (dict_set (dict_set config "abi_spec" "sysv") "kabi_spec" "sysv").

(** [config[k]] in the summary of lines 148-150. *)
Definition config_item (config : dict) (k : str) : str := default [] (dict_get config k).

(** Lines 145-150. *)
Definition summary (a : args) (config : dict) : io unit :=
  let* _ := if use_default a then ret tt
            else (let* _ := print [] in print []) in
  let* _ := print ("Selected architecture " ++ config_item config "cpu"
                   ++ " and compiler " ++ config_item config "compiler") in
  let* _ := print ("Userspace is using -march=" ++ config_item config "isa_spec"
                   ++ " and -mabi=" ++ config_item config "abi_spec") in
  print ("Kernel is using -march=" ++ config_item config "kisa_spec"
         ++ " and -mabi=" ++ config_item config "kabi_spec").

(** Lines 85-150: the run up to the point where the configuration is
    complete and about to be written. *)
Definition selarch (rt : runtime) (e : env) (a : args) : io dict :=
  let* cpu := choose_cpu rt e a in
  let config := dict_set [] "cpu" cpu in
  let* f := lift (scan rt e cpu) in
  let* compiler := prompt_choice rt (use_default a) "compiler" (candidates f)
                     (Some 0) in
  let* chosen := lift (index (candidates f) compiler) in
  let config := dict_set config "compiler" chosen in
  let* prefix := lift (index (prefixes f) compiler) in
  let config := dict_set config "prefix" prefix in
  let* chosen_isa := choose_isa rt e a cpu config in
  let* config := lift (choose_abi cpu (fst chosen_isa) (snd chosen_isa)) in
  let* _ := summary a config in
  ret config.

End Selarch.

(** ** Answers to the prompts *)

Module SelarchAnswers.
Import Selarch.

(** [resp] is an answer that [prompt_choice] takes, and [i] what it returns
    for it: an empty answer where there is a preferred option, or a number
    from 1 to the number of options. *)
Definition accepted (rt : runtime) (options : list str)
    (preferred : option nat) (resp : str) (i : nat) : Prop :=
  (strip rt resp = [] /\ preferred = Some i) \/
  ((strip rt resp = [] -> preferred = None) /\
   exists index, int_of rt resp = Some index /\
                 (1 <= index <= Z.of_nat (length options))%Z /\
                 i = Z.to_nat (index - 1)).

(** An input event after which [prompt_choice] asks again. *)
Definition rejected (rt : runtime) (options : list str)
    (preferred : option nat) (ev : input_event) : Prop :=
  match ev with
  | Line resp =>
      (strip rt resp = [] -> preferred = None) /\
      match int_of rt resp with
      | Some index => ~ (1 <= index <= Z.of_nat (length options))%Z
      | None => True
      end
  | Interrupt => False
  | InputError => True
  end.

(** [resp] is an answer that [prompt_yesno] takes, and [b] what it returns
    for it. *)
Definition said (rt : runtime) (default : option bool) (resp : str)
    (b : bool) : Prop :=
  (strip rt resp = [] /\ default = Some b) \/
  ((strip rt resp = [] -> default = None) /\
   if b then lower rt (strip rt resp) ∈ ["y" : str; "yes" : str]
   else (lower rt (strip rt resp) ∉ ["y" : str; "yes" : str]) /\
        (lower rt (strip rt resp) ∈ ["n" : str; "no" : str])).

(** An input event after which [prompt_yesno] asks again. *)
Definition unclear (rt : runtime) (default : option bool)
    (ev : input_event) : Prop :=
  match ev with
  | Line resp =>
      (strip rt resp = [] -> default = None) /\
      lower rt (strip rt resp) ∉ ["y" : str; "yes" : str; "n" : str; "no" : str]
  | Interrupt => False
  | InputError => True
  end.

(** What [prompt_choice] prints before it asks. *)
Definition menu (name : str) (options : list str) : list output_event :=
  [Printed []; Printed ("Options for " ++ name ++ ":")]
  ++ imap (fun i o => Printed ("[" ++ dec (i + 1) ++ "] " ++ o)) options.

(** A prompt loop that started with [ins] pending and [out] on the
    terminal, and asks with [P], ended in [r]: it read some of the input
    and asked once per event read; it never raises, and it exits, with
    status 1 and after printing an empty line, only on Ctrl-C or at the end
    of the input. *)
Definition asked {A} (P : output_event) (ins : list input_event)
    (out : list output_event) (r : console * outcome A) : Prop :=
  exists read,
    ins = read ++ stdin r.1 /\
    match r.2 with
    | Ret _ => output r.1 = out ++ replicate (length read) P
    | Exit code =>
        code = 1%Z /\
        exists n,
          output r.1 = out ++ replicate n P ++ [Printed []] /\
          ((n = length read /\ exists before, read = before ++ [Interrupt])
           \/ (n = S (length read) /\ stdin r.1 = []))
    | Raised _ => False
    end.

(** What line 108 asks of a compiler before it is listed: [cand] is a file
    of a directory on [PATH] that could be listed, named after a known
    compiler, alone or after a dash; [prefix] is its path without that
    name; [objdump] and [addr2line] exist under the same prefix; and the
    compiler answers [-dumpmachine] with status 0 and a machine that names
    [cpu] and one of [badgeros] and [linux-gnu]. *)
Definition suitable (rt : runtime) (e : env) (cpu cand prefix : str) : Prop :=
  exists path dir files filename compiler_name out,
    getenv_PATH e = Some path /\ dir ∈ split ":" path /\
    listdir e dir = Some files /\ filename ∈ files /\
    compiler_name ∈ known_compiler_names /\
    cand = dir ++ "/" ++ filename /\
    cand = prefix ++ compiler_name /\
    (filename = compiler_name
     \/ exists stem, filename = stem ++ "-" ++ compiler_name) /\
    path_exists e (prefix ++ "objdump") = true /\
    path_exists e (prefix ++ "addr2line") = true /\
    dumpmachine e cand = Returned 0 (Some out) /\
    contains cpu (strip rt out) = true /\
    (contains "badgeros" (strip rt out) = true
     \/ contains "linux-gnu" (strip rt out) = true).

(** The two lists go together. *)
Definition paired (rt : runtime) (e : env) (cpu : str) (f : found) : Prop :=
  length (candidates f) = length (prefixes f) /\
  NoDup (candidates f) /\
  Forall2 (suitable rt e cpu) (candidates f) (prefixes f).

(** The three configurations a run can complete with. *)
Definition native_config (cpu compiler prefix : str) : dict :=
  [("cpu" : str, cpu); ("compiler" : str, compiler); ("prefix" : str, prefix);
   ("isa_spec" : str, "native" : str); ("kisa_spec" : str, "x86-64" : str);
   ("abi_spec" : str, "sysv" : str); ("kabi_spec" : str, "sysv" : str)].

Definition riscv_config (cpu compiler prefix : str)
    (float_name float_isa float_abi : str) (use_vec : bool) : dict :=
  [("cpu" : str, cpu); ("compiler" : str, compiler); ("prefix" : str, prefix);
   ("rv_float_spec" : str, float_name);
   ("rv_use_vector" : str, str_of_bool use_vec);
   ("isa_spec" : str,
    "rv" ++ drop 5 cpu ++ "ima" ++ float_isa ++ "c"
    ++ (if use_vec then "v" else "") ++ "_zicsr_zifencei");
   ("kisa_spec" : str, "rv" ++ drop 5 cpu ++ "imac_zicsr_zifencei");
   ("kabi_spec" : str, if decide (cpu = "riscv32") then "ilp32" : str else "lp64" : str);
   ("abi_spec" : str,
    (if decide (cpu = "riscv32") then "ilp32" : str else "lp64" : str) ++ float_abi)].

Definition x64_config (cpu compiler prefix isa : str) : dict :=
  [("cpu" : str, cpu); ("compiler" : str, compiler); ("prefix" : str, prefix);
   ("isa_spec" : str, isa); ("kisa_spec" : str, "x86-64" : str);
   ("abi_spec" : str, "sysv" : str); ("kabi_spec" : str, "sysv" : str)].

(** The three lines of lines 148-150. *)
Definition summary_lines (config : dict) : list output_event :=
  [Printed ("Selected architecture " ++ config_item config "cpu"
            ++ " and compiler " ++ config_item config "compiler");
   Printed ("Userspace is using -march=" ++ config_item config "isa_spec"
            ++ " and -mabi=" ++ config_item config "abi_spec");
   Printed ("Kernel is using -march=" ++ config_item config "kisa_spec"
            ++ " and -mabi=" ++ config_item config "kabi_spec")].

End SelarchAnswers.

(** ** One runtime and one machine, for the scenarios *)

Module SelarchScenario.
Import Selarch.

Definition is_space (c : ascii) : bool :=
  ((9 <=? nat_of_ascii c) && (nat_of_ascii c <=? 13)) || (nat_of_ascii c =? 32).

(** The built-in functions on plain ASCII text: decimal digits between
    blanks for [int], ASCII blanks for [strip], ASCII letters for
    [lower]. *)
Definition ascii_strip (s : str) : str :=
  reverse (snd (span is_space (reverse (snd (span is_space s))))).

Definition ascii_int (s : str) : option Z :=
  match parse_dec (ascii_strip s) with
  | Some (n, []) => Some (Z.of_nat n)
  | _ => None
  end.

Definition ascii_lower (s : str) : str :=
  map (fun c =>
         let n := nat_of_ascii c in
         if (65 <=? n) && (n <=? 90) then ascii_of_nat (n + 32) else c) s.

Definition ascii_runtime : runtime :=
  Runtime ascii_int ascii_strip ascii_lower.

(** An x86_64 machine with two directories on [PATH]: a native [gcc] and a
    RISC-V cross compiler in the first, a native [cc] and a BadgerOS
    [clang] in the second, each with its [objdump] and [addr2line]. *)
Definition bin1 : list str :=
  ["riscv64-linux-gnu-gcc" : str; "gcc" : str; "xgcc" : str;
   "foo-objdump" : str; "objdump" : str; "foo-addr2line" : str;
   "riscv64-linux-gnu-addr2line" : str; "riscv64-linux-gnu-objdump" : str;
   "foo-cc" : str; "addr2line" : str].
Definition bin2 : list str :=
  ["riscv64-badgeros-addr2line" : str; "riscv64-badgeros-objdump" : str;
   "riscv64-badgeros-clang" : str; "riscv64-elf-addr2line" : str;
   "objdump" : str; "riscv64-elf-objdump" : str; "addr2line" : str;
   "cc" : str; "riscv64-elf-gcc" : str].

Definition pc : env :=
  Env "x86_64"
      (Some ("fs/bin1:/nonexistent::fs/bin2:fs/bin1" : str))
      (fun dir =>
         if decide (dir = "fs/bin1") then Some bin1
         else if decide (dir = "fs/bin2") then Some bin2
         else None)
      (fun path =>
         bool_decide (path ∈ map (fun f => "fs/bin1/" ++ f) bin1
                             ++ map (fun f => "fs/bin2/" ++ f) bin2))
      (fun path =>
         if decide (path = "fs/bin1/riscv64-linux-gnu-gcc")
         then Returned 0 (Some ("riscv64-linux-gnu" ++ [nl]))
         else if decide (path = "fs/bin1/gcc")
         then Returned 0 (Some ("x86_64-linux-gnu" ++ [nl]))
         else if decide (path = "fs/bin1/foo-cc")
         then Returned 1 (Some [])
         else if decide (path = "fs/bin2/riscv64-badgeros-clang")
         then Returned 0 (Some ("  riscv64-unknown-badgeros  " ++ [nl]))
         else if decide (path = "fs/bin2/cc")
         then Returned 0 (Some ("x86_64-pc-linux-gnu" ++ [nl]))
         else if decide (path = "fs/bin2/riscv64-elf-gcc")
         then Returned 0 (Some ("riscv64-unknown-elf" ++ [nl]))
         else Crashed).

(** The same machine with no compiler that passes: [xgcc] is not a name
    the search takes. *)
Definition bare : env :=
  Env "x86_64"
      (Some ("/bin" : str))
      (fun dir =>
         if decide (dir = "/bin") then Some ["ls" : str; "xgcc" : str] else None)
      (fun _ => true)
      (fun _ => Crashed).

(** A RISC-V machine with the directories of [pc]. *)
Definition board : env :=
  Env "riscv64" (getenv_PATH pc) (listdir pc) (path_exists pc) (dumpmachine pc).

End SelarchScenario.

(** * Proofs *)

(** ** Escaping *)

Lemma replace_app old new s1 s2 :
  replace old new (s1 ++ s2) = replace old new s1 ++ replace old new s2.
Proof. unfold replace. apply flat_map_app. Qed.

Lemma replace_cons old new c s :
  replace old new (c :: s) = replace old new [c] ++ replace old new s.
Proof. apply (replace_app old new [c] s). Qed.

Lemma escape_app s1 s2 : escape (s1 ++ s2) = escape s1 ++ escape s2.
Proof. unfold escape. by rewrite !replace_app. Qed.

Lemma escape_one c : escape [c] = escape_char c.
Proof.
  unfold escape, escape_char, replace; simpl.
  repeat (case_decide; simplify_eq; simpl; try done).
Qed.

Lemma escape_flat s : escape s = flat_map escape_char s.
Proof.
  induction s as [|c s IH]; [done|].
  change (c :: s) with ([c] ++ s).
  by rewrite escape_app, escape_one, IH.
Qed.

Lemma escape_cons c s : escape (c :: s) = escape_char c ++ escape s.
Proof. change (c :: s) with ([c] ++ s). by rewrite escape_app, escape_one. Qed.

Lemma c_unescape_escape s : c_unescape (escape s) = Some s.
Proof.
  induction s as [|c s IH]; [done|].
  rewrite escape_cons. unfold escape_char.
  repeat case_decide; subst; simpl; try (by rewrite IH).
  repeat (case_decide; try done). by rewrite IH.
Qed.

Lemma c_scan_literal_escape s rest :
  c_scan_literal (escape s ++ dq :: rest) = Some (s, rest).
Proof.
  induction s as [|c s IH]; [done|].
  rewrite escape_cons. unfold escape_char.
  repeat case_decide; subst; simpl; try (by rewrite IH).
  repeat (case_decide; try done). by rewrite IH.
Qed.

Lemma escape_inj s1 s2 : escape s1 = escape s2 -> s1 = s2.
Proof.
  intros E. apply (f_equal c_unescape) in E.
  rewrite !c_unescape_escape in E. congruence.
Qed.

(** C3. [escape] rewrites exactly the backslash, the carriage return, the
    line feed and the double quote (to a backslash followed by a backslash,
    [r], [n] and a double quote), character by character, and leaves every
    other character as it is; reading [escape s] back under the rules of a
    C string literal gives [s], so [escape] is injective. *)
Theorem C3_escape_roundtrip :
  escape [bs] = [bs; bs] /\
  escape [cr] = [bs; "r"%char] /\
  escape [nl] = [bs; "n"%char] /\
  escape [dq] = [bs; dq] /\
  (forall c, c <> bs -> c <> cr -> c <> nl -> c <> dq -> escape [c] = [c]) /\
  (forall s, escape s = flat_map (fun c => escape [c]) s) /\
  (forall s, c_unescape (escape s) = Some s) /\
  (forall s rest, c_scan_literal (escape s ++ dq :: rest) = Some (s, rest)) /\
  (forall s1 s2, escape s1 = escape s2 -> s1 = s2).
Proof.
  repeat split; try reflexivity.
  - intros c ? ? ? ?. rewrite escape_one. unfold escape_char.
    repeat case_decide; congruence.
  - intros s. rewrite escape_flat. apply flat_map_ext. intros c.
    by rewrite escape_one.
  - apply c_unescape_escape.
  - apply c_scan_literal_escape.
  - apply escape_inj.
Qed.
(** ** The monad of the script *)

Lemma seq_normal (p q : prog) s s1 :
  p s = (s1, Normal) -> (p >> q) s = q s1.
Proof. unfold seq. by intros ->. Qed.

Lemma seq_assoc (p q r : prog) s : ((p >> q) >> r) s = (p >> q >> r) s.
Proof. unfold seq. by destruct (p s) as [? []]. Qed.

Lemma seq_stop (p q : prog) s s1 st :
  p s = (s1, st) -> st <> Normal -> (p >> q) s = (s1, st).
Proof. unfold seq. intros -> ?. by destruct st. Qed.

Lemma seq_inv (p q : prog) s s2 st :
  (p >> q) s = (s2, st) ->
  (exists s1, p s = (s1, Normal) /\ q s1 = (s2, st)) \/
  (p s = (s2, st) /\ st <> Normal).
Proof.
  unfold seq. destruct (p s) as [s1 [| | |]]; intros E.
  - left. eauto.
  - right. by simplify_eq.
  - right. by simplify_eq.
  - right. by simplify_eq.
Qed.

Lemma for_each_roms_add {A} (f : A -> str) (l : list A) s :
  for_each l (fun x => roms_add (f x)) s =
  (State (roms s ++ flat_map f l) (dirs s) (files s) (file_count s) (trace s),
   Normal).
Proof.
  revert s. induction l as [|x l IH]; intros s; simpl.
  - unfold skip. rewrite app_nil_r. by destruct s.
  - erewrite seq_normal by reflexivity. rewrite IH. simpl.
    by rewrite <- app_assoc.
Qed.

(** One statement of the script run to its end, the state it leaves named. *)
Ltac step :=
  erewrite seq_normal by reflexivity;
  cbn [roms dirs files file_count trace].

(** ** What the walk adds to the globals *)

Lemma emitted_nil s s' :
  roms s' = roms s -> dirs s' = dirs s -> files s' = files s ->
  file_count s' = file_count s -> emitted [] s s'.
Proof.
  intros Hr Hd Hf Hc. unfold emitted, roms_of, mkdirs_of, writes_of. simpl.
  rewrite !app_nil_r. repeat split; auto with lia.
Qed.

Lemma roms_of_app base l1 l2 :
  roms_of base (l1 ++ l2) =
  roms_of base l1 ++ roms_of (base + length (filter is_file l1)) l2.
Proof.
  unfold roms_of. rewrite filter_app, imap_app. f_equal.
  apply imap_ext. intros i it _. unfold rom_of. simpl. by rewrite Nat.add_assoc.
Qed.

Lemma writes_of_app base l1 l2 :
  writes_of base (l1 ++ l2) =
  writes_of base l1 ++ writes_of (base + length (filter is_file l1)) l2.
Proof.
  unfold writes_of. rewrite filter_app, imap_app. f_equal.
  apply imap_ext. intros i it _. unfold stmt_of_file. simpl.
  by rewrite Nat.add_assoc.
Qed.

Lemma mkdirs_of_app l1 l2 : mkdirs_of (l1 ++ l2) = mkdirs_of l1 ++ mkdirs_of l2.
Proof. unfold mkdirs_of. by rewrite filter_app, map_app. Qed.

Lemma emitted_app l1 l2 s s1 s2 :
  emitted l1 s s1 -> emitted l2 s1 s2 -> emitted (l1 ++ l2) s s2.
Proof.
  intros (Hr1 & Hd1 & Hf1 & Hc1) (Hr2 & Hd2 & Hf2 & Hc2).
  unfold emitted.
  rewrite roms_of_app, writes_of_app, mkdirs_of_app, !flat_map_app, filter_app,
    length_app.
  rewrite Hr2, Hd2, Hf2, Hc2, Hr1, Hd1, Hf1, Hc1, <- !app_assoc.
  repeat split; auto with lia.
Qed.

Lemma emitted_cons it l s s1 s2 :
  emitted [it] s s1 -> emitted l s1 s2 -> emitted (it :: l) s s2.
Proof. apply (emitted_app [it] l). Qed.

Section refinement.
Variable h : host.

Lemma add_rom_ok path virtpath name data s :
  read_file h path = Some data ->
  add_rom h path virtpath name s =
  (State (roms s ++ print_rom (RomDecl name data (length data)))
         (dirs s)
         (files s ++ print_stmt (WriteFile (escape virtpath) (length virtpath) name))
         (file_count s)
         (trace s ++ [EvOpen path ModeRB; EvRead path; EvClose path]),
   Normal).
Proof.
  intros Hread. unfold add_rom. rewrite Hread.
  do 3 step.
  erewrite seq_normal by apply for_each_roms_add. cbn [roms dirs files file_count trace].
  do 7 step.
  unfold log, print_rom, print_stmt.
  cbn [roms dirs files file_count trace rom_name rom_data rom_len].
  by rewrite <- !app_assoc.
Qed.

Lemma add_rom_fail path virtpath name s :
  read_file h path = None ->
  add_rom h path virtpath name s =
  (State (roms s) (dirs s) (files s) (file_count s)
         (trace s ++ [EvOpen path ModeRB]), Uncaught).
Proof. intros Hread. unfold add_rom. by rewrite Hread. Qed.

Lemma emitted_mkdir parent name s s' :
  roms s' = roms s ->
  dirs s' = dirs s ++ print_stmt (stmt_of_dir (Item parent name KDir)) ->
  files s' = files s ->
  file_count s' = file_count s ->
  emitted [Item parent name KDir] s s'.
Proof.
  intros Hr Hd Hf Hc. unfold emitted, roms_of, mkdirs_of, writes_of. simpl.
  rewrite !app_nil_r. repeat split; auto with lia.
Qed.

Lemma emitted_file parent name data s s' :
  roms s' = roms s ++ print_rom (RomDecl (filerom (file_count s)) data (length data)) ->
  dirs s' = dirs s ->
  files s' = files s ++ print_stmt (WriteFile (escape (parent ++ "/" ++ name))
                                              (length (parent ++ "/" ++ name))
                                              (filerom (file_count s))) ->
  file_count s' = file_count s + 1 ->
  emitted [Item parent name (KFile data)] s s'.
Proof.
  intros Hr Hd Hf Hc.
  unfold emitted, roms_of, mkdirs_of, writes_of, rom_of, stmt_of_file. simpl.
  rewrite !app_nil_r, Nat.add_0_r. repeat split; auto with lia.
Qed.

(** The walk of the script and the walk of the tree it finds agree. *)
Lemma add_dir_ok fuel : forall path virtpath es s,
  observe h fuel path = Some es ->
  exists s', add_dir h fuel path virtpath s = (s', Normal) /\
             emitted (walk es virtpath) s s' /\
             trace s' = trace s ++ walk_events path es.
Proof.
  induction fuel as [|fuel IH]; intros path virtpath es s Hobs; [done|].
  cbn [observe] in Hobs. apply bind_Some in Hobs as (names & Hls & Hobs).
  apply mapM_Some in Hobs.
  cbn [add_dir]. step. rewrite Hls.
  unfold walk_events.
  set (s0 := (State (roms s) (dirs s) (files s) (file_count s)
                    (trace s ++ [EvListdir path]))).
  assert (Hgoal : exists s',
    for_each names (fun filename =>
      log (EvIsdir (path ++ "/" ++ filename)) >>
      if isdir h (path ++ "/" ++ filename) then
        dirs_add (print_stmt (MakeDir (escape (virtpath ++ "/" ++ filename))
                    (length virtpath + 1 + length filename))) >>
        add_dir h fuel (path ++ "/" ++ filename) (virtpath ++ "/" ++ filename)
      else
        (fun s => add_rom h (path ++ "/" ++ filename) (virtpath ++ "/" ++ filename)
                          ("filerom_" ++ dec (file_count s)) s) >>
        file_count_incr) s0 = (s', Normal) /\
    emitted (walk es virtpath) s0 s' /\
    trace s' = trace s0 ++
               flat_map (fun e => node_events (path ++ "/" ++ fst e) (snd e)) es).
  { clearbody s0. clear Hls. revert s0.
    induction Hobs as [|name e names es Hstep _ IHnames]; intros s0.
    - exists s0. split; [done|]. split; [by apply emitted_nil|].
      simpl. by rewrite app_nil_r.
    - cbn [for_each]. rewrite seq_assoc. step.
      destruct (isdir h (path ++ "/" ++ name)) eqn:Hdir.
      + apply bind_Some in Hstep as (sub & Hsub & [= <-]).
        rewrite seq_assoc. step.
        match goal with |- context [add_dir h fuel ?p ?v >> _] =>
          match goal with |- context [seq _ _ ?st] =>
            destruct (IH p v _ st Hsub) as (s1 & Hrun & Hem & Htr)
          end
        end.
        erewrite seq_normal by exact Hrun.
        destruct (IHnames s1) as (s2 & Hrun2 & Hem2 & Htr2).
        exists s2. split; [done|]. split.
        * unfold walk. cbn [flat_map walk_node fst snd].
          apply (emitted_app _ _ s0 s1 s2); [|exact Hem2].
          eapply emitted_cons; [|exact Hem]. by apply emitted_mkdir.
        * rewrite Htr2, Htr. cbn [trace]. by rewrite <- !app_assoc.
      + apply bind_Some in Hstep as (data & Hread & [= <-]).
        rewrite seq_assoc.
        erewrite seq_normal by (apply add_rom_ok; exact Hread).
        cbn [roms dirs files file_count trace]. step.
        match goal with |- context [for_each names _ ?st] =>
          destruct (IHnames st) as (s2 & Hrun2 & Hem2 & Htr2)
        end.
        exists s2. split; [done|]. split.
        * unfold walk. cbn [flat_map walk_node fst snd app].
          eapply emitted_cons; [|exact Hem2]. by apply emitted_file.
        * rewrite Htr2. cbn [trace]. by rewrite <- !app_assoc. }
  destruct Hgoal as (s' & Hrun & Hem & Htr). exists s'. split; [exact Hrun|].
  split; [exact Hem|]. rewrite Htr. unfold s0. cbn [trace].
  by rewrite <- app_assoc.
Qed.

End refinement.

(** ** Induction on trees *)

Section node_induction.
Variable P : node -> Prop.
Hypothesis HFile : forall data, P (File data).
Hypothesis HDir : forall es, Forall (fun e => P (snd e)) es -> P (Dir es).

Fixpoint node_induction (n : node) : P n :=
  match n with
  | File data => HFile data
  | Dir es =>
      HDir es
        ((fix go (es : tree) : Forall (fun e => P (snd e)) es :=
            match es as l return Forall (fun e => P (snd e)) l with
            | [] => @List.Forall_nil _ _
            | e :: es' =>
                @List.Forall_cons _ _ e es' (node_induction (snd e)) (go es')
            end) es)
  end.
End node_induction.

Lemma tree_induction (P : node -> Prop) (Q : tree -> Prop) :
  (forall data, P (File data)) ->
  (forall es, Q es -> P (Dir es)) ->
  Q [] ->
  (forall name n es, P n -> Q es -> Q ((name, n) :: es)) ->
  forall es, Q es.
Proof.
  intros HF HD HN HC.
  assert (HP : forall n, P n).
  { apply node_induction; [exact HF|]. intros es Hes. apply HD.
    induction Hes as [|[name n] es Hn _ IH]; [exact HN|]. by apply HC. }
  induction es as [|[name n] es IH]; [exact HN|]. by apply HC.
Qed.

(** ** Hosts and the trees they present *)

Lemma observe_presents h fuel : forall path es,
  observe h fuel path = Some es -> presents h path es.
Proof.
  induction fuel as [|fuel IH]; intros path es Hobs; [done|].
  cbn [observe] in Hobs. apply bind_Some in Hobs as (names & Hls & Hobs).
  apply mapM_Some in Hobs. unfold presents. rewrite Hls.
  assert (names = map fst es /\
          Forall (fun e => presents_node h (path ++ "/" ++ fst e) (snd e)) es)
    as [-> ?]; [|done].
  clear Hls. induction Hobs as [|name e names es Hstep _ [IH1 IH2]]; [done|].
  subst names.
  destruct (isdir h (path ++ "/" ++ name)) eqn:Hdir.
  - apply bind_Some in Hstep as (sub & Hsub & [= <-]).
    split; [done|]. constructor; [|done]. cbn [fst snd].
    destruct (IH _ _ Hsub) as [Hl Hall]. by constructor.
  - apply bind_Some in Hstep as (data & Hread & [= <-]).
    split; [done|]. constructor; [|done]. cbn [fst snd]. by constructor.
Qed.

Lemma presents_observe_entries h : forall es path fuel,
  Forall (fun e => presents_node h (path ++ "/" ++ fst e) (snd e)) es ->
  depth es <= fuel ->
  mapM (fun filename =>
          if isdir h (path ++ "/" ++ filename) then
            es ← observe h fuel (path ++ "/" ++ filename);
            Some (filename, Dir es)
          else
            data ← read_file h (path ++ "/" ++ filename);
            Some (filename, File data)) (map fst es) = Some es.
Proof.
  apply (tree_induction
    (fun n => forall path fuel name,
       presents_node h (path ++ "/" ++ name) n -> depth_node n <= fuel ->
       (if isdir h (path ++ "/" ++ name) then
          es ← observe h fuel (path ++ "/" ++ name); Some (name, Dir es)
        else
          data ← read_file h (path ++ "/" ++ name); Some (name, File data))
       = Some (name, n))
    (fun es => forall path fuel,
       Forall (fun e => presents_node h (path ++ "/" ++ fst e) (snd e)) es ->
       depth es <= fuel ->
       mapM (fun filename =>
               if isdir h (path ++ "/" ++ filename) then
                 es ← observe h fuel (path ++ "/" ++ filename);
                 Some (filename, Dir es)
               else
                 data ← read_file h (path ++ "/" ++ filename);
                 Some (filename, File data)) (map fst es) = Some es)).
  - intros data path fuel name Hp _. inversion Hp as [? ? Hd Hr|]; subst.
    by rewrite Hd, Hr.
  - intros es IH path fuel name Hp Hfuel.
    inversion Hp as [|? ? Hd Hl Hall]; subst.
    rewrite Hd. cbn [depth_node] in Hfuel. destruct fuel as [|fuel]; [lia|].
    cbn [observe]. rewrite Hl. cbn [mbind option_bind].
    rewrite (IH (path ++ "/" ++ name) fuel); [done|done|]. unfold depth. lia.
  - done.
  - intros name n es Hn Hes path fuel Hall Hfuel.
    apply Forall_cons in Hall as [Hp Hall].
    unfold depth in *. simpl in Hfuel.
    apply mapM_Some. cbn [map fst]. constructor.
    + apply Hn; [done|lia].
    + apply mapM_Some. apply Hes; [done|lia].
Qed.

(** A host that presents a tree is walked to the end by any budget above
    the depth of the tree. *)
Lemma presents_observe h es path fuel :
  presents h path es -> depth es < fuel -> observe h fuel path = Some es.
Proof.
  intros [Hl Hall] Hfuel. destruct fuel as [|fuel]; [lia|].
  cbn [observe]. rewrite Hl. cbn [mbind option_bind].
  apply presents_observe_entries; [done|lia].
Qed.

Lemma add_dir_normal_observe h fuel : forall path virtpath s s',
  add_dir h fuel path virtpath s = (s', Normal) ->
  exists es, observe h fuel path = Some es.
Proof.
  induction fuel as [|fuel IH]; intros path virtpath s s' Hrun; [done|].
  cbn [add_dir] in Hrun.
  apply seq_inv in Hrun as [(s0 & _ & Hrun)|[_ ?]]; [|done].
  cbn [observe]. destruct (listdir h path) as [names|]; [|done].
  cbn [mbind option_bind].
  clear s. revert s0 Hrun. induction names as [|name names IHn]; intros s0 Hrun.
  - by exists [].
  - cbn [for_each] in Hrun.
    apply seq_inv in Hrun as [(s1 & Hstep & Hrun)|[_ ?]]; [|done].
    destruct (IHn _ Hrun) as [es Hes]. apply mapM_Some in Hes.
    apply seq_inv in Hstep as [(s2 & _ & Hstep)|[_ ?]]; [|done].
    destruct (isdir h (path ++ "/" ++ name)) eqn:Hdir.
    + apply seq_inv in Hstep as [(s3 & _ & Hstep)|[_ ?]]; [|done].
      destruct (IH _ _ _ _ Hstep) as [sub Hsub].
      exists ((name, Dir sub) :: es). apply mapM_Some. constructor; [|done].
      by rewrite Hdir, Hsub.
    + apply seq_inv in Hstep as [(s3 & Hrom & _)|[_ ?]]; [|done].
      destruct (read_file h (path ++ "/" ++ name)) as [data|] eqn:Hread.
      * exists ((name, File data) :: es). apply mapM_Some. constructor; [|done].
        by rewrite Hdir, Hread.
      * by rewrite add_rom_fail in Hrom.
Qed.

(** ** The whole run *)

Lemma written_app tr1 tr2 : written (tr1 ++ tr2) = written tr1 ++ written tr2.
Proof. apply flat_map_app. Qed.

Lemma written_read_only tr : Forall read_only tr -> written tr = [].
Proof.
  induction 1 as [|e tr He _ IH]; [done|].
  unfold written in *. simpl. rewrite IH. by destruct e as [| ? []| | | | | |].
Qed.

Lemma walk_events_read_only path es : Forall read_only (walk_events path es).
Proof.
  revert path.
  apply (tree_induction
    (fun n => forall path, Forall read_only (node_events path n))
    (fun es => forall path,
       Forall read_only
         (flat_map (fun e => node_events (path ++ "/" ++ fst e) (snd e)) es)
       /\ Forall read_only (walk_events path es))).
  - intros data path. simpl. repeat constructor.
  - intros es' IH path. simpl. constructor; [done|]. apply IH.
  - intros path. split; repeat constructor.
  - intros name n es' Hn Hes path. destruct (Hes path) as [H1 H2].
    assert (Forall read_only
      (flat_map (fun e => node_events (path ++ "/" ++ fst e) (snd e))
                ((name, n) :: es'))).
    { simpl. apply Forall_app. split; [apply Hn | apply H1]. }
    split; [done|]. unfold walk_events. by constructor.
Qed.

Lemma prologue_ok argv :
  prologue argv initial =
  (State [] [] [] 0 ([EvOpen (arg argv 2) ModeW] ++ header_writes), Normal).
Proof. reflexivity. Qed.

Lemma epilogue_ok argv s :
  epilogue argv s =
  (State (roms s) (dirs s) (files s) (file_count s)
     (trace s ++
      [EvWrite (roms s);
       EvWrite ("void " ++ arg argv 3 ++ "() {" ++ [nl]);
       EvWrite ("    file_t fd;" ++ [nl]);
       EvWrite ("    errno64_t len;" ++ [nl]);
       EvWrite (dirs s);
       EvWrite (files s);
       EvWrite ("    (void)len;" ++ [nl]);
       EvWrite ("}" ++ [nl]);
       EvWrite ("// NOLINTEND" ++ [nl]);
       EvFlush;
       EvClose (arg argv 2)]), Normal).
Proof.
  unfold epilogue. do 10 step. unfold log.
  cbn [roms dirs files file_count trace]. by rewrite <- !app_assoc.
Qed.

Lemma written_run_trace argv es :
  written (run_trace argv es) = print_artifact (compile es (arg argv 3)).
Proof.
  unfold run_trace. rewrite !written_app.
  rewrite (written_read_only (walk_events _ _)) by apply walk_events_read_only.
  unfold print_artifact, compile, written, header_writes, header.
  cbn [flat_map art_roms art_entry art_body app].
  rewrite flat_map_app, !app_nil_r, <- !app_assoc. reflexivity.
Qed.

(** A run with three arguments on a host that presents the tree [es] under
    the input directory completes, makes the calls of [run_trace], and leaves
    the printed artifact of [es] in the output file. *)
Lemma main_ok h fuel argv es :
  length argv = 4 ->
  observe h fuel (arg argv 1) = Some es ->
  exists s, main h fuel argv = (s, Normal) /\
            emitted (walk es []) initial s /\
            trace s = run_trace argv es /\
            written (trace s) = print_artifact (compile es (arg argv 3)).
Proof.
  intros Hlen Hobs. unfold main. rewrite decide_False by lia.
  erewrite seq_normal by apply prologue_ok.
  edestruct (add_dir_ok h fuel _ [] es
              (State [] [] [] 0 ([EvOpen (arg argv 2) ModeW] ++ header_writes)) Hobs)
    as (s1 & Hrun & Hem & Htr).
  erewrite seq_normal by exact Hrun. rewrite epilogue_ok.
  eexists. split; [reflexivity|].
  assert (Hem' := Hem). destruct Hem' as (Hr & Hd & Hf & Hc).
  cbn [roms dirs files file_count trace] in *.
  assert (Htrace : trace s1 ++
      [EvWrite (roms s1); EvWrite ("void " ++ arg argv 3 ++ "() {" ++ [nl]);
       EvWrite ("    file_t fd;" ++ [nl]); EvWrite ("    errno64_t len;" ++ [nl]);
       EvWrite (dirs s1); EvWrite (files s1); EvWrite ("    (void)len;" ++ [nl]);
       EvWrite ("}" ++ [nl]); EvWrite ("// NOLINTEND" ++ [nl]); EvFlush;
       EvClose (arg argv 2)] = run_trace argv es).
  { unfold run_trace. rewrite Htr, Hr, Hd, Hf. cbn [app].
    by rewrite <- !app_assoc. }
  split; [|split].
  - unfold emitted. cbn [roms dirs files file_count]. done.
  - exact Htrace.
  - rewrite Htrace. apply written_run_trace.
Qed.

(** A run on a host that presents [es], with a budget above its depth. *)
Lemma main_presents h fuel argv es :
  length argv = 4 ->
  presents h (arg argv 1) es ->
  depth es < fuel ->
  exists s, main h fuel argv = (s, Normal) /\
            emitted (walk es []) initial s /\
            trace s = run_trace argv es /\
            written (trace s) = print_artifact (compile es (arg argv 3)).
Proof. intros Hlen Hp Hfuel. apply main_ok; [done|]. by apply presents_observe. Qed.

(** ** What any piece of the walk may do *)

Lemma reads_only_seq p q : reads_only p -> reads_only q -> reads_only (p >> q).
Proof.
  intros Hp Hq s s' st Hrun.
  apply seq_inv in Hrun as [(s1 & H1 & H2)|[H1 Hst]].
  - destruct (Hp _ _ _ H1) as [(e1 & Ht1 & F1) _].
    destruct (Hq _ _ _ H2) as [(e2 & Ht2 & F2) Hx]. rewrite Ht2, Ht1.
    split; [|done]. exists (e1 ++ e2). rewrite app_assoc. split; [done|].
    by apply Forall_app.
  - by apply Hp in H1.
Qed.

Lemma reads_only_for_each {A} (l : list A) body :
  (forall x, reads_only (body x)) -> reads_only (for_each l body).
Proof.
  intros Hb. induction l as [|x l IH]; cbn [for_each].
  - intros s s' st [= <- <-]. split; [|done]. exists []. by rewrite app_nil_r.
  - by apply reads_only_seq.
Qed.

Lemma reads_only_log e : read_only e -> reads_only (log e).
Proof.
  intros He s s' st [= <- <-]. split; [|done]. exists [e]. split; [done|].
  by constructor.
Qed.

Lemma reads_only_silent (p : prog) :
  (forall s, trace (p s).1 = trace s /\ forall code, (p s).2 <> Exit code) ->
  reads_only p.
Proof.
  intros Hp s s' st Hrun. destruct (Hp s) as [Ht Hst]. rewrite Hrun in Ht, Hst.
  split; [|done]. exists []. rewrite app_nil_r. by split.
Qed.

Lemma reads_only_add_rom h path virtpath name :
  reads_only (add_rom h path virtpath name).
Proof.
  intros s s' st. destruct (read_file h path) as [data|] eqn:Hread.
  - rewrite (add_rom_ok h _ _ _ _ _ Hread). intros [= <- <-]. split; [|done].
    eexists. split; [reflexivity|]. by repeat constructor.
  - rewrite (add_rom_fail h _ _ _ _ Hread). intros [= <- <-]. split; [|done].
    eexists. split; [reflexivity|]. by repeat constructor.
Qed.

Lemma reads_only_add_dir h fuel : forall path virtpath,
  reads_only (add_dir h fuel path virtpath).
Proof.
  induction fuel as [|fuel IH]; intros path virtpath; cbn [add_dir].
  - intros s s' st [= <- <-]. split; [|done]. exists []. by rewrite app_nil_r.
  - apply reads_only_seq; [by apply reads_only_log|].
    destruct (listdir h path) as [names|].
    + apply reads_only_for_each. intros filename.
      apply reads_only_seq; [by apply reads_only_log|].
      destruct (isdir h (path ++ "/" ++ filename)).
      * apply reads_only_seq; [by apply reads_only_silent|]. apply IH.
      * apply reads_only_seq; [|by apply reads_only_silent].
        intros s. apply reads_only_add_rom.
    + by apply reads_only_silent.
Qed.

(** ** The argument check *)

(** C4. With any number of arguments other than three (the script's own
    name not counted) the run prints the usage line, which is one line, and
    exits with code 1 having made no other call: no file is opened.  With
    three arguments the first call opens the output file for writing and
    the header is written to it, however the run goes on. *)
Theorem C4_argument_count h fuel argv :
  (length argv <> 4 ->
     main h fuel argv = (State [] [] [] 0 [EvPrint usage], Exit 1)) /\
  (length argv = 4 ->
     exists s st evs,
       main h fuel argv = (s, st) /\
       (forall code, st <> Exit code) /\
       trace s = [EvOpen (arg argv 2) ModeW] ++ header_writes ++ evs) /\
  nl ∉ usage.
Proof.
  split; [|split].
  - intros Hlen. unfold main. by rewrite decide_True.
  - intros Hlen. unfold main. rewrite decide_False by lia.
    erewrite seq_normal by apply prologue_ok.
    destruct (add_dir h fuel (arg argv 1) []
                (State [] [] [] 0 ([EvOpen (arg argv 2) ModeW] ++ header_writes)))
      as [s1 st1] eqn:Hrun.
    destruct (reads_only_add_dir h fuel _ _ _ _ _ Hrun) as [(evs & Ht & _) Hst].
    cbn [trace] in Ht.
    assert (st1 = Normal \/ st1 <> Normal) as [->|Hne]
      by (destruct st1; auto).
    + erewrite seq_normal by exact Hrun. rewrite epilogue_ok.
      eexists _, _, _. split; [reflexivity|]. split; [done|].
      cbn [trace]. rewrite Ht, <- !app_assoc. reflexivity.
    + erewrite seq_stop by eauto.
      exists s1, st1, evs. split; [done|]. split; [done|].
      by rewrite Ht, <- !app_assoc.
  - apply (bool_decide_unpack _). by vm_compute.
Qed.

(** ** The scenario of the spec *)

Lemma presents_root6 : presents host6 "root" root6.
Proof. apply (observe_presents host6 2). reflexivity. Qed.

Lemma compile_root6 entry :
  compile root6 entry =
  Artifact [RomDecl "filerom_0" [x68; x69] 2; RomDecl "filerom_1" [] 0]
           entry
           [MakeDir "/sub" 4;
            WriteFile "/a.txt" 6 "filerom_0";
            WriteFile "/sub/b.bin" 10 "filerom_1"].
Proof. reflexivity. Qed.

Lemma print_root6 entry : print_artifact (compile root6 entry) = expected6 entry.
Proof.
  rewrite compile_root6. unfold print_artifact, expected6, unlines.
  cbn [art_roms art_entry art_body flat_map]. unfold print_rom, print_stmt, header.
  cbn [rom_name rom_data rom_len flat_map].
  repeat rewrite <- app_assoc. reflexivity.
Qed.

(** C6, as stated, fails: the same directory on a host that lists [sub]
    before [a.txt] gives the byte array of [b.bin] the index 0 and writes
    [/sub/b.bin] before [/a.txt]; the output is not the expected text. *)
Lemma C6_other_enumeration_order :
  exists s,
    main host6r 2 argv6 = (s, Normal) /\
    presents host6r (arg argv6 1) root6r /\
    written (trace s) = print_artifact (compile root6r (arg argv6 3)) /\
    compile root6r (arg argv6 3) =
      Artifact [RomDecl "filerom_0" [] 0; RomDecl "filerom_1" [x68; x69] 2]
               (arg argv6 3)
               [MakeDir "/sub" 4;
                WriteFile "/sub/b.bin" 10 "filerom_0";
                WriteFile "/a.txt" 6 "filerom_1"] /\
    written (trace s) <> expected6 (arg argv6 3).
Proof.
  assert (Hp : presents host6r (arg argv6 1) root6r).
  { apply (observe_presents host6r 2). by vm_compute. }
  destruct (main_presents host6r 2 argv6 root6r) as (s & Hrun & _ & _ & Hw);
    [done|exact Hp|vm_compute; lia|].
  exists s. split; [exact Hrun|]. split; [exact Hp|]. split; [exact Hw|].
  split; [reflexivity|]. rewrite Hw.
  apply (bool_decide_eq_false_1 (print_artifact (compile root6r (arg argv6 3))
                                 = expected6 (arg argv6 3))).
  by vm_compute.
Qed.

(** C6, amended. On a host that presents the scenario tree with [a.txt]
    listed before [sub], the run completes and the artifact is: byte arrays [filerom_0]
    (68 69, length 2, for [a.txt]) and [filerom_1] (empty, length 0, for
    [b.bin]); then, in the entry function, the creation of [/sub], the write
    of [/a.txt] from [filerom_0] and the write of [/sub/b.bin] from
    [filerom_1]; the output file holds exactly the text [expected6]. *)
Theorem C6_scenario h fuel argv :
  length argv = 4 ->
  presents h (arg argv 1) root6 ->
  1 < fuel ->
  exists s,
    main h fuel argv = (s, Normal) /\
    compile root6 (arg argv 3) =
      Artifact [RomDecl "filerom_0" [x68; x69] 2; RomDecl "filerom_1" [] 0]
               (arg argv 3)
               [MakeDir "/sub" 4;
                WriteFile "/a.txt" 6 "filerom_0";
                WriteFile "/sub/b.bin" 10 "filerom_1"] /\
    written (trace s) = print_artifact (compile root6 (arg argv 3)) /\
    written (trace s) = expected6 (arg argv 3) /\
    file_count s = 2.
Proof.
  intros Hlen Hp Hfuel.
  destruct (main_presents h fuel argv root6 Hlen Hp) as (s & Hrun & Hem & _ & Hw).
  { exact Hfuel. }
  exists s. split; [exact Hrun|]. split; [apply compile_root6|].
  split; [exact Hw|]. split; [by rewrite Hw, print_root6|].
  by destruct Hem as (_ & _ & _ & ->).
Qed.

Lemma C6_scenario_witness :
  exists s,
    main host6 2 argv6 = (s, Normal) /\
    compile root6 (arg argv6 3) =
      Artifact [RomDecl "filerom_0" [x68; x69] 2; RomDecl "filerom_1" [] 0]
               (arg argv6 3)
               [MakeDir "/sub" 4;
                WriteFile "/a.txt" 6 "filerom_0";
                WriteFile "/sub/b.bin" 10 "filerom_1"] /\
    written (trace s) = print_artifact (compile root6 (arg argv6 3)) /\
    written (trace s) = expected6 (arg argv6 3) /\
    file_count s = 2.
Proof.
  apply (C6_scenario host6 2 argv6).
  - reflexivity.
  - apply (observe_presents host6 2). vm_compute. reflexivity.
  - lia.
Defined.

(** ** Names of the byte arrays *)

Lemma dec_inj n m : dec n = dec m -> n = m.
Proof.
  unfold dec. intros E.
  apply (f_equal string_of_list_ascii) in E.
  rewrite !string_of_list_ascii_of_string in E.
  apply (f_equal NilEmpty.uint_of_string) in E.
  rewrite !NilEmpty.usu in E. injection E as E.
  apply (f_equal Nat.of_uint) in E. by rewrite !Unsigned.of_to in E.
Qed.

Lemma filerom_inj i j : filerom i = filerom j -> i = j.
Proof. unfold filerom. intros E. apply app_inv_head in E. by apply dec_inj. Qed.

(** C5. A completed run leaves in [roms] one byte array per file found,
    in discovery order; the [i]-th (from 0) is named [filerom_i], holds the
    bytes of the [i]-th file and is followed by a length constant equal to
    the number of those bytes; the counter ends at the number of files; the
    names are pairwise distinct; and [roms] is written right after the
    header. *)
Theorem C5_one_blob_per_file h fuel argv es :
  length argv = 4 ->
  presents h (arg argv 1) es ->
  depth es < fuel ->
  exists s,
    main h fuel argv = (s, Normal) /\
    roms s =
      flat_map print_rom
        (imap (fun i it => RomDecl ("filerom_" ++ dec i) (item_data it)
                                   (length (item_data it)))
              (filter is_file (walk es []))) /\
    file_count s = length (filter is_file (walk es [])) /\
    (exists rest, written (trace s) = header ++ roms s ++ rest) /\
    (forall i j, filerom i = filerom j -> i = j).
Proof.
  intros Hlen Hp Hfuel.
  destruct (main_presents h fuel argv es Hlen Hp Hfuel)
    as (s & Hrun & (Hr & _ & _ & Hc) & _ & Hw).
  exists s. split; [exact Hrun|]. split; [exact Hr|]. split; [exact Hc|].
  split; [|exact filerom_inj].
  rewrite Hw, Hr. unfold print_artifact, compile. cbn [art_roms].
  eexists. reflexivity.
Qed.

Lemma C5_one_blob_per_file_witness :
  exists s,
    main host6 2 argv6 = (s, Normal) /\
    roms s =
      flat_map print_rom
        (imap (fun i it => RomDecl ("filerom_" ++ dec i) (item_data it)
                                   (length (item_data it)))
              (filter is_file (walk root6 []))) /\
    file_count s = length (filter is_file (walk root6 [])) /\
    (exists rest, written (trace s) = header ++ roms s ++ rest) /\
    (forall i j, filerom i = filerom j -> i = j).
Proof.
  apply (C5_one_blob_per_file host6 2 argv6 root6).
  - reflexivity.
  - apply (observe_presents host6 2). vm_compute. reflexivity.
  - vm_compute. lia.
Defined.

(** ** The length passed with a path *)

(** C9. In the text a run collects, the number after each path literal is
    the length of the path itself: for an [fs_open] the length of the
    virtual path, for an [fs_make_file] the length of the parent virtual
    path plus one plus the length of the entry name, which is again the
    length of the virtual path; the literal holds the escaped path, whose
    length may be another. *)
Theorem C9_length_of_raw_path h fuel argv es :
  length argv = 4 ->
  presents h (arg argv 1) es ->
  depth es < fuel ->
  exists s,
    main h fuel argv = (s, Normal) /\
    files s =
      flat_map print_stmt
        (imap (fun i it => WriteFile (escape (item_path it))
                                     (length (item_path it)) (filerom i))
              (filter is_file (walk es []))) /\
    dirs s =
      flat_map print_stmt
        (map (fun it => MakeDir (escape (item_parent it ++ "/" ++ item_name it))
                                (length (item_parent it) + 1
                                 + length (item_name it)))
             (filter is_dir (walk es []))) /\
    (forall it, length (item_parent it) + 1 + length (item_name it)
                = length (item_path it)) /\
    length (escape [slash; dq]) <> length [slash; dq].
Proof.
  intros Hlen Hp Hfuel.
  destruct (main_presents h fuel argv es Hlen Hp Hfuel)
    as (s & Hrun & (_ & Hd & Hf & _) & _ & _).
  exists s. split; [exact Hrun|]. split; [exact Hf|]. split; [exact Hd|].
  split; [|by vm_compute].
  intros it. unfold item_path. rewrite length_app. simpl. lia.
Qed.

Lemma C9_length_of_raw_path_witness :
  exists s,
    main host6 2 argv6 = (s, Normal) /\
    files s =
      flat_map print_stmt
        (imap (fun i it => WriteFile (escape (item_path it))
                                     (length (item_path it)) (filerom i))
              (filter is_file (walk root6 []))) /\
    dirs s =
      flat_map print_stmt
        (map (fun it => MakeDir (escape (item_parent it ++ "/" ++ item_name it))
                                (length (item_parent it) + 1
                                 + length (item_name it)))
             (filter is_dir (walk root6 []))) /\
    (forall it, length (item_parent it) + 1 + length (item_name it)
                = length (item_path it)) /\
    length (escape [slash; dq]) <> length [slash; dq].
Proof.
  apply (C9_length_of_raw_path host6 2 argv6 root6).
  - reflexivity.
  - apply (observe_presents host6 2). vm_compute. reflexivity.
  - vm_compute. lia.
Defined.

(** ** Two runs on the same tree *)

(** C8. Two runs with the same arguments, on hosts that present the same
    tree under the input directory (the same names in the same enumeration
    order, the same bytes), both complete, make the same calls and write the
    same bytes to the output file; the byte arrays are the same.  The hosts
    may differ anywhere else, and so may the recursion budgets. *)
Theorem C8_deterministic h1 h2 fuel1 fuel2 argv es :
  length argv = 4 ->
  presents h1 (arg argv 1) es ->
  presents h2 (arg argv 1) es ->
  depth es < fuel1 ->
  depth es < fuel2 ->
  exists s1 s2,
    main h1 fuel1 argv = (s1, Normal) /\
    main h2 fuel2 argv = (s2, Normal) /\
    written (trace s1) = written (trace s2) /\
    roms s1 = roms s2 /\
    trace s1 = trace s2.
Proof.
  intros Hlen Hp1 Hp2 Hf1 Hf2.
  destruct (main_presents h1 fuel1 argv es Hlen Hp1 Hf1)
    as (s1 & Hrun1 & (Hr1 & _) & Ht1 & Hw1).
  destruct (main_presents h2 fuel2 argv es Hlen Hp2 Hf2)
    as (s2 & Hrun2 & (Hr2 & _) & Ht2 & Hw2).
  exists s1, s2. split; [exact Hrun1|]. split; [exact Hrun2|].
  split; [by rewrite Hw1, Hw2|]. split; [by rewrite Hr1, Hr2|].
  by rewrite Ht1, Ht2.
Qed.

Lemma C8_deterministic_witness :
  exists s1 s2,
    main host6 2 argv6 = (s1, Normal) /\
    main host6' 5 argv6 = (s2, Normal) /\
    written (trace s1) = written (trace s2) /\
    roms s1 = roms s2 /\
    trace s1 = trace s2.
Proof.
  apply (C8_deterministic host6 host6' 2 5 argv6 root6).
  - reflexivity.
  - apply (observe_presents host6 2). vm_compute. reflexivity.
  - apply (observe_presents host6' 2). reflexivity.
  - vm_compute. lia.
  - vm_compute. lia.
Defined.

(** ** Every entry is classified *)

Lemma walk_length es : forall parent, length (walk es parent) = count_entries es.
Proof.
  apply (tree_induction
    (fun n => forall parent name, length (walk_node parent name n) = count_node n)
    (fun es => forall parent, length (walk es parent) = count_entries es)).
  - done.
  - intros es' IH parent name. cbn [walk_node count_node length].
    f_equal. apply (IH (parent ++ "/" ++ name)).
  - done.
  - intros name n es' Hn Hes parent. unfold walk, count_entries in *.
    cbn [flat_map map list_sum foldr fst snd]. rewrite length_app.
    by rewrite Hn, Hes.
Qed.

Lemma dirs_and_files (l : list item) :
  length (filter is_dir l) + length (filter is_file l) = length l.
Proof.
  induction l as [|[parent name [|data]] l IH]; [done| |];
    rewrite !filter_cons; simpl; lia.
Qed.

(** The tree a host presents is determined by the answers of the host. *)
Lemma presents_unique h : forall es path es',
  presents h path es -> presents h path es' -> es = es'.
Proof.
  assert (Hgen : forall es path es',
    Forall (fun e => presents_node h (path ++ "/" ++ fst e) (snd e)) es ->
    Forall (fun e => presents_node h (path ++ "/" ++ fst e) (snd e)) es' ->
    map fst es = map fst es' -> es = es').
  { apply (tree_induction
      (fun n => forall path n',
         presents_node h path n -> presents_node h path n' -> n = n')
      (fun es => forall path es',
         Forall (fun e => presents_node h (path ++ "/" ++ fst e) (snd e)) es ->
         Forall (fun e => presents_node h (path ++ "/" ++ fst e) (snd e)) es' ->
         map fst es = map fst es' -> es = es')).
    - intros data path n' H1 H2.
      inversion H1; subst; inversion H2; subst; congruence.
    - intros es IH path n' H1 H2.
      inversion H1; subst; inversion H2; subst; try congruence.
      f_equal. eapply IH; eauto. congruence.
    - intros path [|e es'] _ _ E; [done|discriminate].
    - intros name n es Hn Hes path [|[name' n'] es'] H1 H2 E; [discriminate|].
      injection E as -> E.
      apply Forall_cons in H1 as [H1 H1'], H2 as [H2 H2']. cbn [fst snd] in *.
      f_equal; [f_equal; eauto|eauto]. }
  intros es path es' [Hl1 H1] [Hl2 H2]. eapply Hgen; eauto. congruence.
Qed.

(** C10, as stated, fails: of two entries that [isdir] rejects, the first
    is opened in binary mode but cannot be read; the walk ends there with
    the exception, nothing is embedded for the first entry, and the second
    is neither tested nor opened. *)
Lemma C10_unreadable_entry :
  listdir host_refusing "root" = Some ["a.txt" : str; "b.txt" : str] /\
  isdir host_refusing "root/a.txt" = false /\
  isdir host_refusing "root/b.txt" = false /\
  exists s,
    add_dir host_refusing 1 "root" [] initial = (s, Uncaught) /\
    trace s = [EvListdir "root"; EvIsdir "root/a.txt"; EvOpen "root/a.txt" ModeRB] /\
    roms s = [] /\ dirs s = [] /\ files s = [] /\ file_count s = 0.
Proof.
  split; [reflexivity|]. split; [reflexivity|]. split; [reflexivity|].
  exists (add_dir host_refusing 1 "root" [] initial).1.
  repeat split; vm_compute; reflexivity.
Qed.

(** C10, amended.  On a host where every listing and every read of the
    walk succeeds, that is, a host that presents a tree under [path], the
    walk completes (given a budget above the depth of the tree).  It tests
    every name of every listing with [isdir] and with nothing else: the
    names for which the test holds are listed in turn as directories, all
    the others are opened in binary mode and read to the end, whatever they
    are.  The tree so presented is the only one the answers of the host
    allow, and every entry of it has its statement in the text collected: a
    directory creation or a byte array with its write; none is passed
    over. *)
Theorem C10_classified_by_isdir h fuel path virtpath s es :
  presents h path es ->
  depth es < fuel ->
  exists s',
    add_dir h fuel path virtpath s = (s', Normal) /\
    (forall es', presents h path es' -> es' = es) /\
    trace s' = trace s ++ walk_events path es /\
    emitted (walk es virtpath) s s' /\
    length (mkdirs_of (walk es virtpath))
    + length (roms_of (file_count s) (walk es virtpath)) = count_entries es /\
    length (mkdirs_of (walk es virtpath))
    + length (writes_of (file_count s) (walk es virtpath)) = count_entries es.
Proof.
  intros Hp Hfuel.
  pose proof (presents_observe h es path fuel Hp Hfuel) as Hobs.
  destruct (add_dir_ok h fuel path virtpath es s Hobs) as (s' & Hrun & Hem & Htr).
  exists s'. split; [exact Hrun|]. split.
  { intros es' Hp'. by apply (presents_unique h es' path es). }
  split; [exact Htr|]. split; [exact Hem|].
  unfold mkdirs_of, roms_of, writes_of.
  rewrite length_map, !length_imap, dirs_and_files. split; apply walk_length.
Qed.

Lemma C10_classified_by_isdir_witness :
  exists s',
    add_dir host6 2 "root" [] initial = (s', Normal) /\
    (forall es', presents host6 "root" es' -> es' = root6) /\
    trace s' = trace initial ++ walk_events "root" root6 /\
    emitted (walk root6 []) initial s' /\
    length (mkdirs_of (walk root6 []))
    + length (roms_of (file_count initial) (walk root6 [])) = count_entries root6 /\
    length (mkdirs_of (walk root6 []))
    + length (writes_of (file_count initial) (walk root6 [])) = count_entries root6.
Proof.
  apply (C10_classified_by_isdir host6 2 "root" [] initial root6).
  - apply (observe_presents host6 2). vm_compute. reflexivity.
  - vm_compute. lia.
Defined.

(** ** What a completed run touches *)

Lemma main_normal_inv h fuel argv s :
  main h fuel argv = (s, Normal) ->
  length argv = 4 /\ exists es, observe h fuel (arg argv 1) = Some es.
Proof.
  unfold main. case_decide as Hlen; [done|]. intros Hrun.
  split; [lia|].
  erewrite seq_normal in Hrun by apply prologue_ok.
  apply seq_inv in Hrun as [(s1 & Hrun & _)|[_ ?]]; [|done].
  by apply add_dir_normal_observe in Hrun.
Qed.

Lemma read_only_not_writing e : read_only e -> opens_for_writing e = false.
Proof. by destruct e as [| ? []| | | | | |]. Qed.

Lemma filter_read_only tr :
  Forall read_only tr -> filter opens_for_writing tr = [].
Proof.
  induction 1 as [|e tr He _ IH]; [done|].
  rewrite filter_cons_False; [done|]. cbv beta.
  rewrite (read_only_not_writing e He). intros [].
Qed.

Lemma run_trace_events argv es e :
  e ∈ run_trace argv es ->
  e = EvOpen (arg argv 2) ModeW \/ read_only e \/ (exists text, e = EvWrite text)
  \/ e = EvFlush.
Proof.
  unfold run_trace, header_writes. rewrite !elem_of_app.
  intros [He|[He|[He|He]]].
  - apply list_elem_of_singleton in He. auto.
  - repeat (apply elem_of_cons in He as [->|He];
            [right; right; left; eexists; reflexivity|]).
    by apply not_elem_of_nil in He.
  - right. left. pose proof (walk_events_read_only (arg argv 1) es) as Hall.
    rewrite Forall_forall in Hall. by apply Hall.
  - repeat (apply elem_of_cons in He as [->|He];
            [first [ right; right; left; eexists; reflexivity
                   | right; right; right; reflexivity
                   | right; left; exact I ]|]).
    by apply not_elem_of_nil in He.
Qed.

(** C7, as stated, fails: here the run completes and the one file it opens
    for writing is a file of the input tree, which the walk then reads. *)
Lemma C7_output_inside_input :
  exists s es,
    main host7 1 argv7 = (s, Normal) /\
    presents host7 (arg argv7 1) es /\
    list_ascii_of_string "in/out.c" ∈ input_paths argv7 es /\
    EvOpen "in/out.c" ModeW ∈ trace s /\
    EvOpen "in/out.c" ModeRB ∈ trace s.
Proof.
  exists (main host7 1 argv7).1, [("out.c" : str, File [])].
  split; [by vm_compute|].
  split; [apply (observe_presents host7 1); by vm_compute|].
  split; [|split]; apply (bool_decide_unpack _); by vm_compute.
Qed.

(** C7, amended. A completed run opens exactly one file for writing, the
    output file named by the second argument; every other call it makes on
    the host lists a directory, tests a path or opens a file for reading and
    reads it; it prints nothing.  So nothing of the input tree is written,
    created or removed, unless the output file itself is placed there. *)
Theorem C7_effects_of_a_run h fuel argv s :
  main h fuel argv = (s, Normal) ->
  exists es,
    length argv = 4 /\
    presents h (arg argv 1) es /\
    trace s = run_trace argv es /\
    filter opens_for_writing (trace s) = [EvOpen (arg argv 2) ModeW] /\
    (forall e, e ∈ trace s ->
       e = EvOpen (arg argv 2) ModeW \/ read_only e
       \/ (exists text, e = EvWrite text) \/ e = EvFlush) /\
    (forall line, EvPrint line ∉ trace s) /\
    (arg argv 2 ∉ input_paths argv es ->
     forall p, p ∈ input_paths argv es -> EvOpen p ModeW ∉ trace s).
Proof.
  intros Hrun. destruct (main_normal_inv h fuel argv s Hrun) as [Hlen [es Hobs]].
  destruct (main_ok h fuel argv es Hlen Hobs) as (s1 & Hrun1 & _ & Htr & _).
  rewrite Hrun in Hrun1. injection Hrun1 as <-.
  exists es. split; [exact Hlen|]. split; [by apply (observe_presents h fuel)|].
  split; [exact Htr|]. rewrite Htr.
  assert (Hev := run_trace_events argv es).
  split; [|split; [exact Hev|split]].
  - unfold run_trace, header_writes. rewrite !filter_app.
    rewrite (filter_read_only (walk_events _ _)) by apply walk_events_read_only.
    reflexivity.
  - intros line Hin. by destruct (Hev _ Hin) as [?|[?|[[? ?]|?]]].
  - intros Hout p Hp Hin.
    destruct (Hev _ Hin) as [E|[?|[[? ?]|?]]]; try done.
    injection E as ->. done.
Qed.

Lemma C7_effects_of_a_run_witness :
  exists es,
    length argv6 = 4 /\
    presents host6 (arg argv6 1) es /\
    trace (main host6 2 argv6).1 = run_trace argv6 es /\
    filter opens_for_writing (trace (main host6 2 argv6).1)
      = [EvOpen (arg argv6 2) ModeW] /\
    (forall e, e ∈ trace (main host6 2 argv6).1 ->
       e = EvOpen (arg argv6 2) ModeW \/ read_only e
       \/ (exists text, e = EvWrite text) \/ e = EvFlush) /\
    (forall line, EvPrint line ∉ trace (main host6 2 argv6).1) /\
    (arg argv6 2 ∉ input_paths argv6 es ->
     forall p, p ∈ input_paths argv6 es ->
               EvOpen p ModeW ∉ trace (main host6 2 argv6).1).
Proof.
  apply (C7_effects_of_a_run host6 2 argv6 (main host6 2 argv6).1).
  vm_compute. reflexivity.
Defined.

(** ** The scenario on the target filesystem *)

Example run_root6 :
  run_entry (compile root6 "init") ∅ = Some (fs_of (walk root6 [])).
Proof. vm_compute. reflexivity. Qed.

(** ** Paths *)

Lemma app_eq_prefix {A} (a b c d : list A) :
  a ++ b = c ++ d -> length a <= length c ->
  exists x, c = a ++ x /\ b = x ++ d.
Proof.
  revert c. induction a as [|y a IH]; intros c E Hlen.
  - exists c. by split.
  - destruct c as [|z c]; [simpl in Hlen; lia|].
    injection E as -> E. destruct (IH c E) as (x & -> & ->); [simpl in Hlen; lia|].
    by exists x.
Qed.

Lemma app_eq_split {A} (X Y l1 l2 : list A) (x : A) :
  X ++ Y = l1 ++ x :: l2 ->
  (exists l2', X = l1 ++ x :: l2' /\ l2 = l2' ++ Y) \/
  (exists l1', l1 = X ++ l1' /\ Y = l1' ++ x :: l2).
Proof.
  revert l1. induction X as [|y X IH]; intros l1 E.
  - right. exists l1. by split.
  - destruct l1 as [|z l1].
    + injection E as -> E. left. exists X. by split.
    + injection E as -> E. destruct (IH l1 E) as [(l2' & -> & ->)|(l1' & -> & ->)].
      * left. by exists l2'.
      * right. by exists l1'.
Qed.

Lemma filter_split {A} (P : A -> Prop) `{forall x, Decision (P x)}
    (l a b : list A) (x : A) :
  filter P l = a ++ x :: b ->
  exists l1 l2, l = l1 ++ x :: l2 /\ filter P l1 = a /\ filter P l2 = b.
Proof.
  revert a. induction l as [|y l IH]; intros a E.
  - by destruct a.
  - rewrite filter_cons in E. destruct (decide (P y)) as [Hy|Hy].
    + destruct a as [|z a].
      * injection E as -> E. exists [], l. by split.
      * injection E as -> E. destruct (IH a E) as (l1 & l2 & -> & <- & <-).
        exists (z :: l1), l2. split; [done|]. split; [|done].
        by rewrite filter_cons_True.
    + destruct (IH a E) as (l1 & l2 & -> & <- & <-).
      exists (y :: l1), l2. split; [done|]. split; [|done].
      by rewrite filter_cons_False.
Qed.

(** Where a directory prefix [q] of a path [vp/name...] that reaches below
    [vp] can end: right after [name], or further down. *)
Lemma path_split (vp name more q rest : str) :
  slash ∉ name -> tail_of_path more ->
  vp ++ slash :: name ++ more = q ++ slash :: rest ->
  length vp < length q ->
  (q = vp ++ slash :: name /\ more = slash :: rest) \/
  length (vp ++ slash :: name) < length q.
Proof.
  intros Hname Hmore E Hlen.
  destruct (decide (length (vp ++ slash :: name) < length q)) as [|Hle]; [by right|].
  left.
  assert (E' : (vp ++ slash :: name) ++ more = q ++ slash :: rest)
    by (by rewrite <- app_assoc).
  symmetry in E'. apply app_eq_prefix in E' as (x & Eq & Ex); [|lia].
  destruct x as [|c x].
  { rewrite app_nil_r in Eq. simpl in Ex. by subst. }
  exfalso. injection Ex as Hc Ex. subst c.
  apply app_eq_prefix in Eq as (y & -> & Ey); [|lia].
  destruct y as [|c y]; [rewrite app_nil_r in Hlen; lia|].
  injection Ey as Hc Ey. apply Hname. rewrite Ey.
  apply elem_of_app. right. by left.
Qed.

(** ** The order of discovery *)

Lemma walk_cons name n es parent :
  walk ((name, n) :: es) parent = walk_node parent name n ++ walk es parent.
Proof. reflexivity. Qed.

Lemma walk_node_dir parent name es :
  walk_node parent name (Dir es)
  = Item parent name KDir :: walk es (parent ++ slash :: name).
Proof. reflexivity. Qed.

Lemma walk_node_file parent name data :
  walk_node parent name (File data) = [Item parent name (KFile data)].
Proof. reflexivity. Qed.

Lemma item_path_eq it : item_path it = item_parent it ++ slash :: item_name it.
Proof. reflexivity. Qed.

Lemma walk_below : forall es parent it,
  it ∈ walk es parent ->
  exists e, e ∈ es /\ below (parent ++ slash :: fst e) it.
Proof.
  apply (tree_induction
    (fun n => forall parent name it,
       it ∈ walk_node parent name n -> below (parent ++ slash :: name) it)
    (fun es => forall parent it,
       it ∈ walk es parent ->
       exists e, e ∈ es /\ below (parent ++ slash :: fst e) it)).
  - intros data parent name it Hin. rewrite walk_node_file in Hin.
    apply list_elem_of_singleton in Hin as ->.
    exists []. split; [by rewrite app_nil_r|by left].
  - intros es IH parent name it Hin. rewrite walk_node_dir in Hin.
    apply elem_of_cons in Hin as [->|Hin].
    + exists []. split; [by rewrite app_nil_r|by left].
    + destruct (IH _ _ Hin) as (e & _ & more & Hpath & _).
      exists (slash :: fst e ++ more). split; [|right; eauto].
      by rewrite Hpath, <- app_assoc.
  - intros parent it Hin. by apply not_elem_of_nil in Hin.
  - intros name n es Hn Hes parent it Hin. rewrite walk_cons in Hin.
    apply elem_of_app in Hin as [Hin|Hin].
    + exists (name, n). split; [by left|]. by apply Hn.
    + destruct (Hes _ _ Hin) as (e & He & Hb). exists e. split; [by right|done].
Qed.

Lemma walk_node_below n parent name it :
  it ∈ walk_node parent name n -> below (parent ++ slash :: name) it.
Proof.
  intros Hin.
  destruct (walk_below [(name, n)] parent it) as (e & He & Hb).
  { rewrite walk_cons. apply elem_of_app. by left. }
  by apply list_elem_of_singleton in He as ->.
Qed.

Lemma wf_tree_inv es :
  wf_tree es ->
  NoDup (map fst es) /\
  Forall (fun e => valid_name (fst e) /\ wf_node (snd e)) es.
Proof. intros Hwf. by inversion Hwf. Qed.

Lemma walk_valid_names_entries : forall es parent,
  Forall (fun e => valid_name (fst e) /\ wf_node (snd e)) es ->
  Forall (fun it => valid_name (item_name it)) (walk es parent).
Proof.
  apply (tree_induction
    (fun n => forall parent name,
       valid_name name -> wf_node n ->
       Forall (fun it => valid_name (item_name it)) (walk_node parent name n))
    (fun es => forall parent,
       Forall (fun e => valid_name (fst e) /\ wf_node (snd e)) es ->
       Forall (fun it => valid_name (item_name it)) (walk es parent))
    ).
  - intros data parent name Hname _. rewrite walk_node_file.
    constructor; [done|constructor].
  - intros es IH parent name Hname Hwf. inversion Hwf as [|? _ Hall]; subst.
    rewrite walk_node_dir. constructor; [done|]. by apply IH.
  - intros parent _. constructor.
  - intros name n es Hn Hes parent Hall.
    apply Forall_cons in Hall as [[Hname Hwf] Hall]. rewrite walk_cons.
    apply Forall_app. split; [by apply Hn|by apply Hes].
Qed.

Lemma walk_valid_names es parent :
  wf_tree es -> Forall (fun it => valid_name (item_name it)) (walk es parent).
Proof. intros [_ Hall]%wf_tree_inv. by apply walk_valid_names_entries. Qed.

Lemma entry_no_ancestor parent name q rest :
  slash ∉ name ->
  parent ++ slash :: name = q ++ slash :: rest ->
  length parent < length q -> False.
Proof.
  intros Hname E Hlen.
  destruct (path_split parent name [] q rest) as [[_ ?]|Hlt]; try done.
  - by left.
  - by rewrite app_nil_r.
  - apply (f_equal length) in E. rewrite !length_app in *. simpl in *. lia.
Qed.

Lemma walk_ancestors : forall es parent,
  Forall (fun e => valid_name (fst e) /\ wf_node (snd e)) es ->
  ancestors_before parent (walk es parent).
Proof.
  apply (tree_induction
    (fun n => forall parent name,
       valid_name name -> wf_node n ->
       ancestors_before parent (walk_node parent name n))
    (fun es => forall parent,
       Forall (fun e => valid_name (fst e) /\ wf_node (snd e)) es ->
       ancestors_before parent (walk es parent))).
  - intros data parent name (_ & _ & _ & Hname) _ l1 it l2 q rest El Ep Hlen.
    rewrite walk_node_file in El.
    destruct l1 as [|? [|? ?]]; try done. injection El as <- _.
    exfalso. by eapply (entry_no_ancestor parent name).
  - intros es IH parent name (_ & _ & _ & Hname) Hwf l1 it l2 q rest El Ep Hlen.
    inversion Hwf as [|? _ Hall]; subst. rewrite walk_node_dir in El.
    destruct l1 as [|it0 l1].
    { injection El as <- _. exfalso. by eapply (entry_no_ancestor parent name). }
    injection El as <- El.
    assert (Hin : it ∈ walk es (parent ++ slash :: name)).
    { rewrite El. apply elem_of_app. right. by left. }
    destruct (walk_below _ _ _ Hin) as (e & _ & more & Hpath & _).
    rewrite Ep, <- app_assoc in Hpath. symmetry in Hpath.
    destruct (path_split parent name (slash :: e.1 ++ more) q rest)
      as [[-> _]|Hlt]; try done.
    + right. eauto.
    + by rewrite <- Hpath, <- app_assoc.
    + exists (Item parent name KDir). split; [by left|done].
    + destruct (IH (parent ++ slash :: name) Hall l1 it l2 q rest El Ep Hlt)
        as (it' & Hin' & Hd & Hq).
      exists it'. split; [by right|done].
  - intros parent _ l1 it l2 q rest El. by destruct l1.
  - intros name n es Hn Hes parent Hall l1 it l2 q rest El Ep Hlen.
    apply Forall_cons in Hall as [[Hname Hwf] Hall]. cbn [fst snd] in *.
    rewrite walk_cons in El.
    apply app_eq_split in El as [(l2' & El & _)|(l1' & -> & El)].
    + by apply (Hn parent name Hname Hwf l1 it l2' q rest).
    + destruct (Hes parent Hall l1' it l2 q rest El Ep Hlen)
        as (it' & Hin' & Hd & Hq).
      exists it'. split; [|done]. apply elem_of_app. by right.
Qed.

(** ** The order of the statements *)

Lemma ancestors_before_grouped l :
  ancestors_before [] l ->
  ancestors_before [] (filter is_dir l ++ filter is_file l).
Proof.
  intros H a it b q rest E Ep Hlen.
  apply app_eq_split in E as [(b' & E & _)|(a' & -> & E)];
    apply filter_split in E as (l1 & l2 & -> & <- & <-);
    destruct (H l1 it l2 q rest eq_refl Ep Hlen) as (it' & Hin & Hd & Hq);
    exists it'; (split; [|done]).
  - apply list_elem_of_filter. split; [by rewrite Hd|done].
  - apply elem_of_app. left. apply list_elem_of_filter.
    split; [by rewrite Hd|]. apply elem_of_app. by left.
Qed.

(** C2. In the entry function of a completed run the directory creations
    ([dirs]) stand before the file writes ([files]); the creations are those
    of the directories found, in discovery order, and the writes those of
    the files found, in discovery order; and whatever statement is on a path
    [q/rest], with [q] not empty, the creation of directory [q] stands
    somewhere before it. *)
Theorem C2_order_of_statements h fuel argv es :
  length argv = 4 ->
  presents h (arg argv 1) es ->
  depth es < fuel ->
  wf_tree es ->
  exists s,
    main h fuel argv = (s, Normal) /\
    written (trace s) =
      header ++ roms s
      ++ "void " ++ arg argv 3 ++ "() {" ++ [nl]
      ++ "    file_t fd;" ++ [nl]
      ++ "    errno64_t len;" ++ [nl]
      ++ dirs s ++ files s
      ++ "    (void)len;" ++ [nl]
      ++ "}" ++ [nl]
      ++ "// NOLINTEND" ++ [nl] /\
    dirs s = flat_map print_stmt (map stmt_of_dir (filter is_dir (walk es []))) /\
    files s =
      flat_map print_stmt (imap (stmt_of_file 0) (filter is_file (walk es []))) /\
    (forall before it after q rest,
       filter is_dir (walk es []) ++ filter is_file (walk es [])
         = before ++ it :: after ->
       item_path it = q ++ "/" ++ rest ->
       q <> [] ->
       exists it', it' ∈ before /\ is_dir it' = true /\ item_path it' = q).
Proof.
  intros Hlen Hp Hfuel Hwf.
  destruct (main_presents h fuel argv es Hlen Hp Hfuel)
    as (s & Hrun & (Hr & Hd & Hf & _) & _ & Hw).
  exists s. split; [exact Hrun|]. split; [|split; [exact Hd|split; [exact Hf|]]].
  - rewrite Hw, Hr, Hd, Hf. unfold print_artifact, compile.
    cbn [art_roms art_entry art_body]. rewrite flat_map_app, <- !app_assoc.
    reflexivity.
  - intros before it after q rest E Ep Hq.
    apply wf_tree_inv in Hwf as [_ Hall].
    apply (ancestors_before_grouped (walk es []) (walk_ancestors es [] Hall)
             before it after q rest E Ep).
    destruct q; [done|simpl; lia].
Qed.

Lemma wf_nodeb_sound : forall n, wf_nodeb n = true -> wf_node n.
Proof.
  apply (node_induction (fun n => wf_nodeb n = true -> wf_node n)).
  - constructor.
  - intros es IH Hb. cbn [wf_nodeb] in Hb.
    apply andb_prop in Hb as [Hnd Hall]. apply bool_decide_eq_true in Hnd.
    constructor; [done|]. rewrite forallb_forall in Hall.
    rewrite Forall_forall in IH. apply Forall_forall. intros e He.
    specialize (Hall e (proj1 (list_elem_of_In _ _) He)).
    apply andb_prop in Hall as [Hv Hwf]. apply bool_decide_eq_true in Hv.
    split; [done|]. by apply IH.
Qed.

Lemma wf_root6 : wf_tree root6.
Proof. apply wf_nodeb_sound. by vm_compute. Qed.

Lemma C2_order_of_statements_witness :
  exists s,
    main host6 2 argv6 = (s, Normal) /\
    written (trace s) =
      header ++ roms s
      ++ "void " ++ arg argv6 3 ++ "() {" ++ [nl]
      ++ "    file_t fd;" ++ [nl]
      ++ "    errno64_t len;" ++ [nl]
      ++ dirs s ++ files s
      ++ "    (void)len;" ++ [nl]
      ++ "}" ++ [nl]
      ++ "// NOLINTEND" ++ [nl] /\
    dirs s = flat_map print_stmt (map stmt_of_dir (filter is_dir (walk root6 []))) /\
    files s =
      flat_map print_stmt (imap (stmt_of_file 0) (filter is_file (walk root6 []))) /\
    (forall before it after q rest,
       filter is_dir (walk root6 []) ++ filter is_file (walk root6 [])
         = before ++ it :: after ->
       item_path it = q ++ "/" ++ rest ->
       q <> [] ->
       exists it', it' ∈ before /\ is_dir it' = true /\ item_path it' = q).
Proof.
  apply (C2_order_of_statements host6 2 argv6 root6).
  - reflexivity.
  - apply (observe_presents host6 2). vm_compute. reflexivity.
  - vm_compute. lia.
  - apply wf_nodeb_sound. vm_compute. reflexivity.
Defined.

(** ** Paths are met once *)

Lemma map_fmap {A B} (f : A -> B) (l : list A) : map f l = f <$> l.
Proof. induction l as [|x l IH]; [done|]. simpl. by rewrite IH. Qed.

(** Two names without a slash that start the same path are the same name. *)
Lemma name_prefix_eq (name name' more more' : str) :
  slash ∉ name -> slash ∉ name' ->
  tail_of_path more -> tail_of_path more' ->
  name ++ more = name' ++ more' -> name = name'.
Proof.
  assert (Hle : forall (a b ma mb : str),
    slash ∉ b -> tail_of_path ma ->
    a ++ ma = b ++ mb -> length a <= length b -> a = b).
  { intros a b ma mb Hb Hma E Hlen.
    apply app_eq_prefix in E as (x & -> & Ex); [|done].
    destruct x as [|c x]; [by rewrite app_nil_r|]. exfalso.
    destruct Hma as [->|[m ->]]; [done|]. injection Ex as <- _.
    apply Hb. apply elem_of_app. right. by left. }
  intros Hn Hn' Hm Hm' E.
  destruct (decide (length name <= length name')).
  - by apply (Hle name name' more more').
  - symmetry. apply (Hle name' name more' more); [done|done|done|lia].
Qed.

Lemma below_same_name parent name name' it :
  slash ∉ name -> slash ∉ name' ->
  below (parent ++ slash :: name) it -> below (parent ++ slash :: name') it ->
  name = name'.
Proof.
  intros Hn Hn' (more & E & Hm) (more' & E' & Hm').
  rewrite E in E'. rewrite <- !app_assoc in E'. apply app_inv_head in E'.
  injection E' as E'. by apply (name_prefix_eq name name' more more').
Qed.

Lemma walk_paths_NoDup : forall es parent,
  NoDup (map fst es) ->
  Forall (fun e => valid_name (fst e) /\ wf_node (snd e)) es ->
  NoDup (item_path <$> walk es parent).
Proof.
  apply (tree_induction
    (fun n => forall parent name,
       wf_node n -> NoDup (item_path <$> walk_node parent name n))
    (fun es => forall parent,
       NoDup (map fst es) ->
       Forall (fun e => valid_name (fst e) /\ wf_node (snd e)) es ->
       NoDup (item_path <$> walk es parent))).
  - intros data parent name _. rewrite walk_node_file. apply NoDup_singleton.
  - intros es IH parent name Hwf. inversion Hwf as [|? Hnd Hall]; subst.
    rewrite walk_node_dir, fmap_cons. apply NoDup_cons. split; [|by apply IH].
    intros (it & Ep & Hin)%list_elem_of_fmap.
    destruct (walk_below _ _ _ Hin) as (e & _ & more & Hpath & _).
    rewrite Hpath in Ep. apply (f_equal length) in Ep.
    rewrite item_path_eq in Ep. cbn [item_parent item_name] in Ep.
    rewrite !length_app in Ep. simpl in Ep. lia.
  - intros parent _ _. constructor.
  - intros name n es Hn Hes parent Hnd Hall.
    apply Forall_cons in Hall as [[Hname Hwf] Hall]. cbn [fst snd] in *.
    cbn [map fst] in Hnd. apply NoDup_cons in Hnd as [Hfresh Hnd].
    rewrite walk_cons, fmap_app. apply NoDup_app.
    split; [by apply Hn|]. split; [|by apply Hes].
    intros p (it & -> & Hin)%list_elem_of_fmap (it' & Ep & Hin')%list_elem_of_fmap.
    apply walk_node_below in Hin.
    destruct (walk_below _ _ _ Hin') as (e & He & Hb').
    assert (Hb : below (parent ++ slash :: e.1) it).
    { destruct Hb' as (more & E & Hm). exists more. by rewrite Ep. }
    rewrite Forall_forall in Hall. destruct (Hall e He) as [(_ & _ & _ & Hs) _].
    destruct Hname as (_ & _ & _ & Hs').
    assert (name = e.1) as -> by (by eapply below_same_name).
    apply Hfresh. rewrite map_fmap. by apply list_elem_of_fmap_2.
Qed.

(** ** Running the entry function *)

Lemma dirname_no_slash name : slash ∉ name -> dirname name = None.
Proof.
  induction name as [|c name IH]; [done|]. intros Hn.
  apply not_elem_of_cons in Hn as [Hc Hn]. simpl. rewrite IH by done.
  by rewrite decide_False.
Qed.

Lemma dirname_entry parent name :
  slash ∉ name -> dirname (parent ++ slash :: name) = Some parent.
Proof.
  intros Hn. induction parent as [|c parent IH]; simpl.
  - by rewrite dirname_no_slash.
  - by rewrite IH.
Qed.

Lemma utf8_plain p : is_plain p = true -> utf8 p = p.
Proof.
  induction p as [|c p IH]; [done|]. cbn [is_plain forallb].
  intros [Hc Hp]%andb_true_iff. cbn [utf8 flat_map]. unfold utf8_char at 1.
  rewrite Hc. cbn [app]. f_equal. by apply IH.
Qed.

Lemma is_plain_app p q : is_plain (p ++ q) = is_plain p && is_plain q.
Proof. unfold is_plain. apply forallb_app. Qed.

Lemma replace_plain old new raw :
  is_plain new = true -> is_plain raw = true -> is_plain (replace old new raw) = true.
Proof.
  intros Hnew. induction raw as [|c raw IH]; [done|]. cbn [is_plain forallb].
  intros [Hc Hraw]%andb_true_iff. unfold replace. cbn [flat_map].
  rewrite is_plain_app. fold (replace old new raw). rewrite IH by done.
  destruct (decide (c = old)); [by rewrite Hnew|].
  cbn [is_plain forallb]. by rewrite Hc.
Qed.

Lemma escape_plain p : is_plain p = true -> is_plain (escape p) = true.
Proof.
  intros Hp. unfold escape. repeat (apply replace_plain; [by vm_compute|]). done.
Qed.

Lemma c_path_escape p :
  is_plain p = true -> c_path (escape p) (length p) = Some p.
Proof.
  intros Hp. unfold c_path. rewrite (utf8_plain _ (escape_plain p Hp)).
  rewrite c_unescape_escape. simpl.
  rewrite decide_True by done. by rewrite firstn_all.
Qed.

Lemma rom_lookup_roms : forall (F : list item) base i it,
  F !! i = Some it ->
  rom_lookup (imap (rom_of base) F) (filerom (base + i)) = Some (rom_of base i it).
Proof.
  induction F as [|x F IH]; intros base i it Hi; [done|].
  rewrite imap_cons. cbn [rom_lookup]. destruct i as [|i].
  - injection Hi as ->. by rewrite decide_True.
  - rewrite decide_False.
    2:{ unfold rom_of. cbn [rom_name]. intros E%filerom_inj. lia. }
    rewrite (imap_ext _ (rom_of (S base))).
    2:{ intros j y _. unfold rom_of. simpl. by rewrite Nat.add_succ_r. }
    replace (base + S i) with (S base + i) by lia.
    rewrite (IH (S base) i it Hi). unfold rom_of.
    by replace (S base + i) with (base + S i) by lia.
Qed.

Lemma exec_body_app roms fs b1 b2 :
  exec_body roms fs (b1 ++ b2)
  = fs1 ← exec_body roms fs b1; exec_body roms fs1 b2.
Proof.
  revert fs. induction b1 as [|st b1 IH]; intros fs; [done|].
  cbn [exec_body app]. destruct (exec_stmt roms fs st) as [fs1|]; [|done].
  apply IH.
Qed.

Lemma fs_of_snoc done it :
  item_path it ∉ item_path <$> done ->
  fs_of (done ++ [it])
  = <[item_path it := tnode_of_kind (item_kind it)]> (fs_of done).
Proof.
  intros Hfresh. unfold fs_of. rewrite fmap_app. cbn [fmap list_fmap].
  apply list_to_map_snoc. by rewrite <- list_fmap_compose.
Qed.

Lemma fs_of_fresh done p : p ∉ item_path <$> done -> fs_of done !! p = None.
Proof.
  intros Hfresh. apply not_elem_of_list_to_map_1. by rewrite <- list_fmap_compose.
Qed.

Lemma fs_of_lookup done it :
  NoDup (item_path <$> done) -> it ∈ done ->
  fs_of done !! item_path it = Some (tnode_of_kind (item_kind it)).
Proof.
  intros Hnd Hin. apply elem_of_list_to_map_1.
  - by rewrite <- list_fmap_compose.
  - by apply (list_elem_of_fmap_2
                (fun it => (item_path it, tnode_of_kind (item_kind it)))).
Qed.

Lemma parent_exists_placed done it after :
  NoDup (item_path <$> done) ->
  placed (done ++ it :: after) ->
  parent_exists (fs_of done) (item_path it) = true.
Proof.
  intros Hnd Hpl. destruct (Hpl done it after eq_refl) as [Hname Hparent].
  unfold parent_exists. rewrite item_path_eq, dirname_entry by done.
  unfold is_directory. destruct Hparent as [->|(it' & Hin & Hd & <-)]; [done|].
  rewrite (fs_of_lookup done it') by done.
  destruct it' as [? ? []]; [|done]. simpl. apply orb_true_r.
Qed.

Ltac snoc_step :=
  match goal with
  | H : placed (?d ++ ?it :: ?l) |- _ =>
      replace (d ++ it :: l) with ((d ++ [it]) ++ l) in *
        by (by rewrite <- app_assoc)
  end.

Lemma exec_mkdirs roms : forall D done,
  NoDup (item_path <$> (done ++ D)) ->
  placed (done ++ D) ->
  Forall (fun it => is_dir it = true) D ->
  Forall (fun it => is_plain (item_path it) = true) D ->
  exec_body roms (fs_of done) (map stmt_of_dir D) = Some (fs_of (done ++ D)).
Proof.
  induction D as [|it D IH]; intros done Hnd Hpl Hdirs Hplain.
  - by rewrite app_nil_r.
  - apply Forall_cons in Hdirs as [Hd Hdirs].
    apply Forall_cons in Hplain as [Hplain1 Hplain].
    assert (Hnd' := Hnd). rewrite fmap_app, fmap_cons in Hnd'.
    apply NoDup_app in Hnd' as (Hnd1 & Hdisj & _).
    assert (Hfresh : item_path it ∉ item_path <$> done).
    { intros Hin. apply (Hdisj _ Hin). by left. }
    cbn [map exec_body]. unfold exec_stmt, stmt_of_dir.
    assert (Hlen : length (item_parent it) + 1 + length (item_name it)
                   = length (item_path it)).
    { rewrite item_path_eq, length_app. simpl. lia. }
    rewrite Hlen, c_path_escape by done. cbn [mbind option_bind].
    unfold fs_make_dir.
    rewrite (parent_exists_placed done it D), (fs_of_fresh done) by done.
    rewrite bool_decide_eq_true_2 by done. cbn [andb mbind option_bind].
    replace TDir with (tnode_of_kind (item_kind it))
      by (by destruct it as [? ? []]).
    rewrite <- fs_of_snoc by done. snoc_step.
    apply IH; [done|done|done|done].
Qed.

Lemma exec_writes roms : forall F done base,
  NoDup (item_path <$> (done ++ F)) ->
  placed (done ++ F) ->
  Forall (fun it => is_file it = true) F ->
  Forall (fun it => is_plain (item_path it) = true) F ->
  (forall i it, F !! i = Some it ->
     rom_lookup roms (filerom (base + i)) = Some (rom_of base i it)) ->
  exec_body roms (fs_of done) (imap (stmt_of_file base) F)
  = Some (fs_of (done ++ F)).
Proof.
  induction F as [|it F IH]; intros done base Hnd Hpl Hfiles Hplain Hroms.
  - by rewrite app_nil_r.
  - apply Forall_cons in Hfiles as [Hf Hfiles].
    apply Forall_cons in Hplain as [Hplain1 Hplain].
    assert (Hnd' := Hnd). rewrite fmap_app, fmap_cons in Hnd'.
    apply NoDup_app in Hnd' as (Hnd1 & Hdisj & _).
    assert (Hfresh : item_path it ∉ item_path <$> done).
    { intros Hin. apply (Hdisj _ Hin). by left. }
    rewrite imap_cons. cbn [exec_body]. unfold exec_stmt, stmt_of_file.
    rewrite c_path_escape by done. cbn [mbind option_bind].
    rewrite (Hroms 0 it) by done. cbn [mbind option_bind].
    unfold fs_open_create.
    rewrite (parent_exists_placed done it F), (fs_of_fresh done) by done.
    cbn [mbind option_bind]. unfold rom_of. cbn [rom_len rom_data].
    rewrite decide_True by done. unfold fs_write.
    rewrite lookup_insert_eq, insert_insert_eq, firstn_all, drop_nil, app_nil_r.
    cbn [mbind option_bind].
    replace (TFile (item_data it)) with (tnode_of_kind (item_kind it))
      by (by destruct it as [? ? []]).
    rewrite <- fs_of_snoc by done. snoc_step.
    rewrite (imap_ext _ (stmt_of_file (S base))).
    2:{ intros j y _. unfold stmt_of_file. simpl. by rewrite Nat.add_succ_r. }
    apply IH; [done|done|done|done|].
    intros i it' Hi. specialize (Hroms (S i) it' Hi).
    rewrite Nat.add_succ_r in Hroms. cbn [Nat.add]. rewrite Hroms.
    unfold rom_of. by rewrite Nat.add_succ_r.
Qed.

Lemma dirs_then_files (l : list item) :
  filter is_dir l ++ filter is_file l ≡ₚ l.
Proof.
  rewrite <- (filter_app_complement is_dir l) at 3.
  apply Permutation_app; [done|].
  rewrite (list_filter_iff (fun it => is_file it) (fun it => ¬ is_dir it)); [done|].
  intros [? ? []]; unfold is_file, is_dir; simpl; tauto.
Qed.

Lemma placed_grouped es :
  wf_tree es -> placed (filter is_dir (walk es []) ++ filter is_file (walk es [])).
Proof.
  intros Hwf before it after E.
  assert (Hin : it ∈ walk es []).
  { rewrite <- (dirs_then_files (walk es [])), E. apply elem_of_app. right. by left. }
  pose proof (walk_valid_names es [] Hwf) as Hnames.
  rewrite Forall_forall in Hnames. destruct (Hnames it Hin) as (_ & _ & _ & Hs).
  split; [done|].
  destruct (item_parent it) as [|c parent] eqn:Hparent; [by left|right].
  apply wf_tree_inv in Hwf as [_ Hall].
  apply (ancestors_before_grouped (walk es []) (walk_ancestors es [] Hall)
           before it after (c :: parent) (item_name it) E).
  - by rewrite item_path_eq, Hparent.
  - simpl. lia.
Qed.

(** The entry function compiled from a well-formed tree with plain paths
    runs to its end on the empty filesystem and leaves exactly what the walk
    found. *)
Lemma run_compile es entry :
  wf_tree es -> plain_tree es ->
  run_entry (compile es entry) ∅ = Some (fs_of (walk es [])).
Proof.
  intros Hwf Hplain. unfold run_entry, compile. cbn [art_roms art_body].
  unfold plain_tree in Hplain. rewrite Forall_forall in Hplain.
  set (l := walk es []). fold l in Hplain.
  assert (Hnd : NoDup (item_path <$> (filter is_dir l ++ filter is_file l))).
  { rewrite (dirs_then_files l).
    destruct (wf_tree_inv es Hwf) as [Hnd Hall]. by apply walk_paths_NoDup. }
  pose proof (placed_grouped es Hwf) as Hpl. fold l in Hpl.
  rewrite exec_body_app. unfold mkdirs_of, writes_of, roms_of.
  change (∅ : tfs) with (fs_of []).
  rewrite (exec_mkdirs _ (filter is_dir l) []).
  - cbn [mbind option_bind app].
    rewrite (exec_writes _ (filter is_file l) (filter is_dir l) 0).
    + f_equal. unfold fs_of. apply list_to_map_proper.
      * by rewrite <- list_fmap_compose.
      * by rewrite (dirs_then_files l).
    + done.
    + done.
    + apply Forall_forall. intros it [Hf _]%list_elem_of_filter.
      by apply Is_true_eq_true.
    + apply Forall_forall. intros it [_ Hin]%list_elem_of_filter.
      by apply Hplain.
    + intros i it Hi. by apply (rom_lookup_roms _ 0).
  - rewrite fmap_app in Hnd. apply NoDup_app in Hnd as (Hnd & _ & _). done.
  - intros before it after E.
    apply (Hpl before it (after ++ filter is_file l)).
    cbn [app] in E. rewrite E, <- app_assoc. done.
  - apply Forall_forall. intros it [Hd _]%list_elem_of_filter.
    by apply Is_true_eq_true.
  - apply Forall_forall. intros it [_ Hin]%list_elem_of_filter.
    by apply Hplain.
Qed.

(** ** The filesystem and the tree *)

Lemma vpath_cons c cs : vpath (c :: cs) = slash :: c ++ vpath cs.
Proof. reflexivity. Qed.

Lemma vpath_tail cs : tail_of_path (vpath cs).
Proof. destruct cs as [|c cs]; [by left|right]. rewrite vpath_cons. eauto. Qed.

Lemma node_at_dir_cons name n es c cs :
  node_at (Dir ((name, n) :: es)) (c :: cs)
  = if decide (name = c) then node_at n cs else node_at (Dir es) (c :: cs).
Proof. reflexivity. Qed.

Lemma node_at_name es c cs n :
  node_at (Dir es) (c :: cs) = Some n -> c ∈ map fst es.
Proof.
  induction es as [|[name m] es IH]; [done|].
  rewrite node_at_dir_cons. cbn [map fst]. case_decide as Hc.
  - intros _. subst. by left.
  - intros H. right. by apply IH.
Qed.

(** Every node of the tree was found by the walk, at its path. *)
Lemma walk_finds : forall es parent c cs n,
  node_at (Dir es) (c :: cs) = Some n ->
  exists it, it ∈ walk es parent /\
             item_path it = parent ++ vpath (c :: cs) /\
             tnode_of_kind (item_kind it) = tnode_of n.
Proof.
  apply (tree_induction
    (fun m => forall parent name cs n,
       node_at m cs = Some n ->
       exists it, it ∈ walk_node parent name m /\
                  item_path it = parent ++ slash :: name ++ vpath cs /\
                  tnode_of_kind (item_kind it) = tnode_of n)
    (fun es => forall parent c cs n,
       node_at (Dir es) (c :: cs) = Some n ->
       exists it, it ∈ walk es parent /\
                  item_path it = parent ++ vpath (c :: cs) /\
                  tnode_of_kind (item_kind it) = tnode_of n)).
  - intros data parent name [|c cs] n H; [|done]. injection H as <-.
    exists (Item parent name (KFile data)). rewrite walk_node_file.
    split; [by left|]. split; [|done].
    by rewrite item_path_eq, app_nil_r.
  - intros es IH parent name [|c cs] n H.
    + injection H as <-. exists (Item parent name KDir). rewrite walk_node_dir.
      split; [by left|]. split; [|done]. by rewrite item_path_eq, app_nil_r.
    + destruct (IH (parent ++ slash :: name) c cs n H) as (it & Hin & Hp & Hk).
      exists it. rewrite walk_node_dir. split; [by right|]. split; [|done].
      by rewrite Hp, <- app_assoc.
  - done.
  - intros name m es Hm Hes parent c cs n H. rewrite node_at_dir_cons in H.
    rewrite walk_cons. case_decide as Hc.
    + subst c. destruct (Hm parent name cs n H) as (it & Hin & Hp & Hk).
      exists it. split; [apply elem_of_app; by left|]. by split.
    + destruct (Hes parent c cs n H) as (it & Hin & Hp & Hk).
      exists it. split; [apply elem_of_app; by right|]. by split.
Qed.

(** Everything the walk found is a node of the tree, at its path. *)
Lemma walk_found : forall es parent it,
  NoDup (map fst es) ->
  Forall (fun e => valid_name (fst e) /\ wf_node (snd e)) es ->
  it ∈ walk es parent ->
  exists c cs n, Forall valid_name (c :: cs) /\
                 item_path it = parent ++ vpath (c :: cs) /\
                 node_at (Dir es) (c :: cs) = Some n /\
                 tnode_of_kind (item_kind it) = tnode_of n.
Proof.
  apply (tree_induction
    (fun m => forall parent name it,
       wf_node m -> it ∈ walk_node parent name m ->
       exists cs n, Forall valid_name cs /\
                    item_path it = parent ++ slash :: name ++ vpath cs /\
                    node_at m cs = Some n /\
                    tnode_of_kind (item_kind it) = tnode_of n)
    (fun es => forall parent it,
       NoDup (map fst es) ->
       Forall (fun e => valid_name (fst e) /\ wf_node (snd e)) es ->
       it ∈ walk es parent ->
       exists c cs n, Forall valid_name (c :: cs) /\
                      item_path it = parent ++ vpath (c :: cs) /\
                      node_at (Dir es) (c :: cs) = Some n /\
                      tnode_of_kind (item_kind it) = tnode_of n)).
  - intros data parent name it _ Hin. rewrite walk_node_file in Hin.
    apply list_elem_of_singleton in Hin as ->. exists [], (File data).
    split; [constructor|]. split; [by rewrite item_path_eq, app_nil_r|done].
  - intros es IH parent name it Hwf Hin. inversion Hwf as [|? Hnd Hall]; subst.
    rewrite walk_node_dir in Hin. apply elem_of_cons in Hin as [->|Hin].
    + exists [], (Dir es). split; [constructor|].
      split; [by rewrite item_path_eq, app_nil_r|done].
    + destruct (IH _ _ Hnd Hall Hin) as (c & cs & n & Hv & Hp & Hn & Hk).
      exists (c :: cs), n. split; [done|]. split; [|done].
      by rewrite Hp, <- app_assoc.
  - intros parent it _ _ Hin. by apply not_elem_of_nil in Hin.
  - intros name m es Hm Hes parent it Hnd Hall Hin.
    apply Forall_cons in Hall as [[Hname Hwf] Hall]. cbn [fst snd] in *.
    cbn [map fst] in Hnd. apply NoDup_cons in Hnd as [Hfresh Hnd].
    rewrite walk_cons in Hin. apply elem_of_app in Hin as [Hin|Hin].
    + destruct (Hm parent name it Hwf Hin) as (cs & n & Hv & Hp & Hn & Hk).
      exists name, cs, n. split; [by constructor|]. split; [done|].
      split; [|done]. by rewrite node_at_dir_cons, decide_True.
    + destruct (Hes parent it Hnd Hall Hin) as (c & cs & n & Hv & Hp & Hn & Hk).
      exists c, cs, n. split; [done|]. split; [done|]. split; [|done].
      rewrite node_at_dir_cons, decide_False; [done|].
      intros ->. apply Hfresh. by apply (node_at_name es c cs n).
Qed.

(** Paths with valid components are read back in one way only. *)
Lemma vpath_inj : forall cs cs',
  Forall valid_name cs -> Forall valid_name cs' ->
  vpath cs = vpath cs' -> cs = cs'.
Proof.
  induction cs as [|c cs IH]; intros [|c' cs'] Hv Hv' E; try done.
  apply Forall_cons in Hv as [(_ & _ & _ & Hc) Hv].
  apply Forall_cons in Hv' as [(_ & _ & _ & Hc') Hv'].
  rewrite !vpath_cons in E. injection E as E.
  assert (c = c') as <-.
  { apply (name_prefix_eq c c' (vpath cs) (vpath cs')); try done;
      apply vpath_tail. }
  apply app_inv_head in E. f_equal. by apply IH.
Qed.

(** The filesystem of what the walk found is the tree, path by path. *)
Lemma fs_of_walk es p x :
  wf_tree es ->
  fs_of (walk es []) !! p = Some x <->
  exists comps n, comps <> [] /\ Forall valid_name comps /\ p = vpath comps /\
                  node_at (Dir es) comps = Some n /\ x = tnode_of n.
Proof.
  intros Hwf. destruct (wf_tree_inv es Hwf) as [Hnd Hall].
  pose proof (walk_paths_NoDup es [] Hnd Hall) as Hpaths.
  split.
  - intros Hl. unfold fs_of in Hl. apply elem_of_list_to_map_2 in Hl.
    apply list_elem_of_fmap in Hl as (it & [= -> ->] & Hin).
    destruct (walk_found es [] it Hnd Hall Hin) as (c & cs & n & Hv & Hp & Hn & Hk).
    exists (c :: cs), n. by repeat split.
  - intros (comps & n & Hne & Hv & -> & Hn & ->).
    destruct comps as [|c cs]; [done|].
    destruct (walk_finds es [] c cs n Hn) as (it & Hin & Hp & Hk).
    cbn [app] in Hp. rewrite <- Hp, <- Hk. by apply fs_of_lookup.
Qed.


(** ** Reading the output file back *)

Lemma expect_app pre text : expect pre (pre ++ text) = Some text.
Proof.
  induction pre as [|c pre IH]; [done|]. cbn [expect app].
  by rewrite decide_True.
Qed.

Lemma expect_eq pre t text : text = pre ++ t -> expect pre text = Some t.
Proof. intros ->. apply expect_app. Qed.

Lemma scan_raw_escape p rest :
  scan_raw_literal (escape p ++ dq :: rest) = Some (escape p, rest).
Proof.
  induction p as [|c p IH]; [done|].
  rewrite escape_cons. unfold escape_char.
  repeat case_decide; subst; simpl; try (by rewrite IH).
  repeat (case_decide; try done). by rewrite IH.
Qed.

Lemma span_app f name c rest :
  Forall (fun x => f x = true) name -> f c = false ->
  span f (name ++ c :: rest) = (name, c :: rest).
Proof.
  intros Hall Hc. induction Hall as [|x name Hx _ IH]; simpl.
  - by rewrite Hc.
  - by rewrite Hx, IH.
Qed.

Lemma string_of_uint_digits d :
  Forall (fun c => is_digit c = true)
         (list_ascii_of_string (NilEmpty.string_of_uint d)).
Proof. induction d; simpl; by constructor. Qed.

Lemma dec_digits n : Forall (fun c => is_digit c = true) (dec n).
Proof. apply string_of_uint_digits. Qed.

Lemma dec_not_nil n : dec n <> [].
Proof.
  intros E. assert (Hn : n = 0).
  { apply (f_equal string_of_list_ascii) in E. unfold dec in E.
    rewrite string_of_list_ascii_of_string in E.
    apply (f_equal NilEmpty.uint_of_string) in E. rewrite NilEmpty.usu in E.
    simpl in E. injection E as E. apply (f_equal Nat.of_uint) in E.
    by rewrite Unsigned.of_to in E. }
  subst n. discriminate E.
Qed.

Lemma parse_dec_dec n c rest :
  is_digit c = false -> parse_dec (dec n ++ c :: rest) = Some (n, c :: rest).
Proof.
  intros Hc. unfold parse_dec. rewrite (span_app _ (dec n)) by (done || apply dec_digits).
  cbn [fst snd]. destruct (dec n) as [|x digits] eqn:E; [by apply dec_not_nil in E|].
  rewrite <- E. unfold dec. rewrite string_of_list_ascii_of_string, NilEmpty.usu.
  simpl. by rewrite Unsigned.of_to.
Qed.

Lemma parse_ident_app name c rest :
  identifier name -> is_ident_char c = false ->
  parse_ident (name ++ c :: rest) = Some (name, c :: rest).
Proof.
  intros [Hne Hall] Hc. unfold parse_ident. rewrite (span_app _ name) by done.
  cbn [fst snd]. by destruct name.
Qed.

Lemma identifier_filerom i : identifier (filerom i).
Proof.
  unfold filerom. split.
  - intros E. apply (f_equal length) in E. by rewrite length_app in E.
  - apply Forall_app. split; [by repeat constructor|].
    eapply Forall_impl; [apply dec_digits|]. intros c Hc. unfold is_ident_char.
    by rewrite Hc.
Qed.

Lemma read_byte_hex02 b :
  read_byte (hexdigit (Byte.to_nat b / 16)) (hexdigit (Byte.to_nat b mod 16))
  = Some b.
Proof. destruct b; vm_compute; reflexivity. Qed.

Lemma parse_bytes_text : forall data fuel rest,
  length data < fuel ->
  expect "0x" rest = None ->
  parse_bytes fuel (flat_map (fun b => "0x" ++ hex02 b ++ ",") data ++ rest)
  = Some (data, rest).
Proof.
  induction data as [|b data IH]; intros fuel rest Hfuel Hrest.
  - destruct fuel as [|fuel]; [simpl in Hfuel; lia|].
    cbn [flat_map app parse_bytes]. by rewrite Hrest.
  - destruct fuel as [|fuel]; [simpl in Hfuel; lia|].
    cbn [flat_map parse_bytes]. rewrite <- !app_assoc, expect_app.
    unfold hex02. cbn [app]. rewrite read_byte_hex02. cbn [mbind option_bind].
    rewrite expect_app. cbn [mbind option_bind].
    rewrite IH; [done| simpl in Hfuel; lia | done].
Qed.

Lemma parse_ident_eq name c rest text :
  identifier name -> text = name ++ c :: rest -> is_ident_char c = false ->
  parse_ident text = Some (name, c :: rest).
Proof. intros ? -> ?. by apply parse_ident_app. Qed.

Lemma parse_dec_eq n c rest text :
  text = dec n ++ c :: rest -> is_digit c = false ->
  parse_dec text = Some (n, c :: rest).
Proof. intros -> ?. by apply parse_dec_dec. Qed.

Lemma scan_raw_eq p rest text :
  text = escape p ++ dq :: rest ->
  scan_raw_literal text = Some (escape p, rest).
Proof. intros ->. apply scan_raw_escape. Qed.

Lemma bytes_text_length (data : list byte) rest :
  length data
  <= length (flat_map (fun b => "0x" ++ hex02 b ++ ",") data ++ rest).
Proof.
  set (f := fun b : byte => "0x" ++ hex02 b ++ ",").
  induction data as [|b data IH]; [simpl; lia|].
  assert (1 <= length (f b)) by (unfold f; simpl; lia).
  cbn [flat_map length]. rewrite !length_app in *. lia.
Qed.

Ltac expect_ok :=
  erewrite expect_eq by (rewrite <- ?app_assoc; reflexivity);
  cbn [mbind option_bind].

Lemma parse_rom_print d rest :
  identifier (rom_name d) ->
  parse_rom (print_rom d ++ rest) = Some (d, rest).
Proof.
  intros Hname. unfold parse_rom, print_rom. expect_ok.
  erewrite (parse_ident_eq (rom_name d)) by (done || reflexivity).
  cbn [mbind option_bind]. expect_ok.
  rewrite parse_bytes_text;
    [|apply le_n_S, bytes_text_length|reflexivity].
  cbn [mbind option_bind]. expect_ok. expect_ok. expect_ok.
  erewrite parse_dec_eq by reflexivity.
  cbn [mbind option_bind]. expect_ok. by destruct d.
Qed.

Lemma parse_mkdir_print p len rest :
  parse_mkdir (print_stmt (MakeDir (escape p) len) ++ rest)
  = Some (MakeDir (escape p) len, rest).
Proof.
  unfold parse_mkdir, print_stmt. expect_ok.
  erewrite scan_raw_eq by reflexivity. cbn [mbind option_bind]. expect_ok.
  erewrite parse_dec_eq by reflexivity. cbn [mbind option_bind]. by expect_ok.
Qed.

Lemma parse_write_print p len rom rest :
  identifier rom ->
  parse_write (print_stmt (WriteFile (escape p) len rom) ++ rest)
  = Some (WriteFile (escape p) len rom, rest).
Proof.
  intros Hrom. unfold parse_write, print_stmt. expect_ok.
  erewrite scan_raw_eq by reflexivity. cbn [mbind option_bind]. expect_ok.
  erewrite parse_dec_eq by reflexivity. cbn [mbind option_bind]. expect_ok.
  erewrite (parse_ident_eq rom) by (done || reflexivity).
  cbn [mbind option_bind]. by do 5 expect_ok.
Qed.

Lemma parse_stmt_print st rest :
  wf_stmt st -> parse_stmt (print_stmt st ++ rest) = Some (st, rest).
Proof.
  destruct st as [lit len|lit len rom].
  - intros [p ->]. unfold parse_stmt. by rewrite parse_mkdir_print.
  - intros [[p ->] Hrom]. unfold parse_stmt.
    replace (parse_mkdir (print_stmt (WriteFile (escape p) len rom) ++ rest))
      with (@None (stmt * str)) by reflexivity.
    by apply parse_write_print.
Qed.

Lemma parse_many_print {A} (item : str -> option (A * str)) (print : A -> str)
    (xs : list A) (fuel : nat) (rest : str) :
  Forall (fun x => forall t, item (print x ++ t) = Some (x, t)) xs ->
  item rest = None ->
  length xs <= fuel ->
  parse_many item fuel (flat_map print xs ++ rest) = (xs, rest).
Proof.
  intros Hall Hrest. revert fuel.
  induction Hall as [|x xs Hx _ IH]; intros fuel Hfuel.
  - destruct fuel; cbn [flat_map app parse_many]; [done|]. by rewrite Hrest.
  - destruct fuel as [|fuel]; [simpl in Hfuel; lia|].
    cbn [flat_map parse_many]. rewrite <- app_assoc, Hx.
    rewrite IH by (simpl in Hfuel; lia). done.
Qed.

Lemma flat_map_length_le {A} (print : A -> str) (xs : list A) rest :
  (forall x, 1 <= length (print x)) ->
  length xs <= length (flat_map print xs ++ rest).
Proof.
  intros Hp. induction xs as [|x xs IH]; [simpl; lia|].
  cbn [flat_map length]. specialize (Hp x). rewrite !length_app in *. lia.
Qed.

(** The text of a well-formed artifact is read back as that artifact. *)
Lemma parse_print_artifact a :
  wf_artifact a -> parse_artifact (print_artifact a) = Some a.
Proof.
  intros (Hroms & Hentry & Hbody). unfold parse_artifact, print_artifact.
  rewrite expect_app. cbn [mbind option_bind].
  rewrite (parse_many_print parse_rom print_rom (art_roms a)).
  - cbn [fst snd]. expect_ok.
    erewrite (parse_ident_eq (art_entry a)) by (done || reflexivity).
    cbn [mbind option_bind]. expect_ok.
    rewrite (parse_many_print parse_stmt print_stmt (art_body a)).
    + cbn [fst snd]. expect_ok. by destruct a.
    + eapply Forall_impl; [exact Hbody|]. intros st Hst t.
      by apply parse_stmt_print.
    + reflexivity.
    + apply flat_map_length_le. intros [| ]; simpl; lia.
  - eapply Forall_impl; [exact Hroms|]. intros d Hd t. by apply parse_rom_print.
  - reflexivity.
  - apply flat_map_length_le. intros d. unfold print_rom.
    rewrite length_app. simpl. lia.
Qed.

Lemma wf_compile es entry : identifier entry -> wf_artifact (compile es entry).
Proof.
  intros Hentry. unfold wf_artifact, compile. cbn [art_roms art_entry art_body].
  split; [|split; [done|]].
  - unfold roms_of. apply Forall_forall. intros d Hd.
    apply elem_of_lookup_imap in Hd as (i & it & -> & _).
    apply identifier_filerom.
  - apply Forall_app. split.
    + unfold mkdirs_of. apply Forall_forall. intros st Hst.
      rewrite map_fmap in Hst. apply list_elem_of_fmap in Hst as (it & -> & _).
      simpl. eauto.
    + unfold writes_of. apply Forall_forall. intros st Hst.
      apply elem_of_lookup_imap in Hst as (i & it & -> & _).
      simpl. split; [eauto|apply identifier_filerom].
Qed.

Example parse_root6 :
  parse_artifact (print_artifact (compile root6 "init")) = Some (compile root6 "init").
Proof. vm_compute. reflexivity. Qed.

(** ** The input tree is reproduced *)

Lemma plain_root6 : plain_tree root6.
Proof. unfold plain_tree. apply (bool_decide_unpack _). by vm_compute. Qed.

(** X18. For a well-formed input tree whose names are ASCII, presented by
    the host under the input directory, the run completes; what it writes
    is the printed form of an artifact (and is read back as that artifact
    when the entry name is an identifier); the entry function of the
    artifact, run on the empty target filesystem, ends without a failed
    assertion; and the filesystem it leaves is the input tree: every node
    of the tree is there at its relative path, a directory as a directory
    and a file as a file with the same bytes; there is nothing else; and a
    path names one sequence of components only. *)
Theorem X18_plain_tree_reproduced h fuel argv es :
  length argv = 4 ->
  presents h (arg argv 1) es ->
  depth es < fuel ->
  wf_tree es ->
  plain_tree es ->
  exists s fs,
    main h fuel argv = (s, Normal) /\
    written (trace s) = print_artifact (compile es (arg argv 3)) /\
    (identifier (arg argv 3) ->
     parse_artifact (written (trace s)) = Some (compile es (arg argv 3))) /\
    run_entry (compile es (arg argv 3)) ∅ = Some fs /\
    (forall comps n,
       comps <> [] -> node_at (Dir es) comps = Some n ->
       fs !! vpath comps = Some (tnode_of n)) /\
    (forall p x,
       fs !! p = Some x ->
       exists comps n, comps <> [] /\ Forall valid_name comps /\ p = vpath comps /\
                       node_at (Dir es) comps = Some n /\ x = tnode_of n) /\
    (forall comps comps',
       Forall valid_name comps -> Forall valid_name comps' ->
       vpath comps = vpath comps' -> comps = comps').
Proof.
  intros Hlen Hp Hfuel Hwf Hplain.
  destruct (main_presents h fuel argv es Hlen Hp Hfuel) as (s & Hrun & _ & _ & Hw).
  exists s, (fs_of (walk es [])).
  split; [exact Hrun|]. split; [exact Hw|].
  split; [intros Hid; rewrite Hw; by apply parse_print_artifact, wf_compile|].
  split; [by apply run_compile|].
  split; [|split; [|exact vpath_inj]].
  - intros [|c cs] n Hne Hn; [done|].
    destruct (walk_finds es [] c cs n Hn) as (it & Hin & Hpath & Hk).
    cbn [app] in Hpath. rewrite <- Hpath, <- Hk. apply fs_of_lookup; [|done].
    destruct (wf_tree_inv es Hwf) as [Hnd Hall]. by apply walk_paths_NoDup.
  - intros p x Hl. by apply (fs_of_walk es p x Hwf).
Qed.

Lemma X18_plain_tree_reproduced_witness :
  exists s fs,
    main host6 2 argv6 = (s, Normal) /\
    written (trace s) = print_artifact (compile root6 (arg argv6 3)) /\
    (identifier (arg argv6 3) ->
     parse_artifact (written (trace s)) = Some (compile root6 (arg argv6 3))) /\
    run_entry (compile root6 (arg argv6 3)) ∅ = Some fs /\
    (forall comps n,
       comps <> [] -> node_at (Dir root6) comps = Some n ->
       fs !! vpath comps = Some (tnode_of n)) /\
    (forall p x,
       fs !! p = Some x ->
       exists comps n, comps <> [] /\ Forall valid_name comps /\ p = vpath comps /\
                       node_at (Dir root6) comps = Some n /\ x = tnode_of n) /\
    (forall comps comps',
       Forall valid_name comps -> Forall valid_name comps' ->
       vpath comps = vpath comps' -> comps = comps').
Proof.
  apply (X18_plain_tree_reproduced host6 2 argv6 root6).
  - reflexivity.
  - apply (observe_presents host6 2). vm_compute. reflexivity.
  - vm_compute. lia.
  - apply wf_nodeb_sound. vm_compute. reflexivity.
  - exact plain_root6.
Defined.

(** C1, at a name that is not ASCII.  The input directory holds one file,
    named by the one character U+00E9.  The tree is well formed and the run
    completes.  The write statement carries the path [/] followed by that
    character and the number 2, the count of its characters; in the output
    file the path is three bytes (2f c3 a9).  The entry function, run on
    the empty target filesystem, passes all its assertions and leaves the
    file at the path of the first two bytes (2f c3): nothing is at the
    relative path of the file. *)
Theorem C1_name_cut_short :
  wf_tree root_accent /\
  presents host_accent "root" root_accent /\
  (exists s,
     main host_accent 1 argv6 = (s, Normal) /\
     written (trace s) = print_artifact (compile root_accent (arg argv6 3))) /\
  compile root_accent (arg argv6 3)
  = Artifact [RomDecl "filerom_0" [x68; x69] 2] (arg argv6 3)
             [WriteFile ("/" ++ [e_acute]) 2 "filerom_0"] /\
  utf8 ("/" ++ [e_acute]) = ["/"%char; ascii_of_nat 195; ascii_of_nat 169] /\
  run_entry (compile root_accent (arg argv6 3)) ∅
  = Some {[ ["/"%char; ascii_of_nat 195] := TFile [x68; x69] ]} /\
  ({[ ["/"%char; ascii_of_nat 195] := TFile [x68; x69] ]} : tfs)
    !! utf8 ("/" ++ [e_acute]) = None.
Proof.
  assert (Hp : presents host_accent "root" root_accent).
  { apply (observe_presents host_accent 1). by vm_compute. }
  split; [apply wf_nodeb_sound; by vm_compute|].
  split; [exact Hp|].
  split.
  { destruct (main_presents host_accent 1 argv6 root_accent)
      as (s & Hrun & _ & _ & Hw); [reflexivity|exact Hp|vm_compute; lia|].
    exists s. split; [exact Hrun|exact Hw]. }
  split; [vm_compute; reflexivity|]. split; [vm_compute; reflexivity|].
  split; vm_compute; reflexivity.
Qed.

(** * Further properties *)

(** ** A walk that fails *)







(** ** An empty input directory *)

(** X2. When the input directory holds nothing, the run completes and the
    output is the header followed by an entry function with the two local
    declarations and the use of [len], and nothing else: no byte array and
    no statement.  The walk makes the one call that lists the input
    directory. *)
Theorem X2_empty_input h fuel argv :
  length argv = 4 ->
  listdir h (arg argv 1) = Some [] ->
  exists s,
    main h (S fuel) argv = (s, Normal) /\
    roms s = [] /\ dirs s = [] /\ files s = [] /\ file_count s = 0 /\
    written (trace s) =
      header
      ++ "void " ++ arg argv 3 ++ "() {" ++ [nl]
      ++ "    file_t fd;" ++ [nl]
      ++ "    errno64_t len;" ++ [nl]
      ++ "    (void)len;" ++ [nl]
      ++ "}" ++ [nl]
      ++ "// NOLINTEND" ++ [nl] /\
    walk_events (arg argv 1) [] = [EvListdir (arg argv 1)] /\
    trace s = run_trace argv [].
Proof.
  intros Hlen Hls.
  destruct (main_ok h (S fuel) argv [] Hlen) as (s & Hrun & Hem & Htr & Hw).
  { cbn [observe]. by rewrite Hls. }
  exists s. split; [exact Hrun|].
  destruct Hem as (Hr & Hd & Hf & Hc). cbn in Hr, Hd, Hf, Hc.
  split; [done|]. split; [done|]. split; [done|]. split; [done|].
  split; [rewrite Hw; reflexivity|]. by split.
Qed.

Lemma X2_empty_input_witness :
  exists s,
    main host_empty 1 argv6 = (s, Normal) /\
    roms s = [] /\ dirs s = [] /\ files s = [] /\ file_count s = 0 /\
    written (trace s) =
      header
      ++ "void " ++ arg argv6 3 ++ "() {" ++ [nl]
      ++ "    file_t fd;" ++ [nl]
      ++ "    errno64_t len;" ++ [nl]
      ++ "    (void)len;" ++ [nl]
      ++ "}" ++ [nl]
      ++ "// NOLINTEND" ++ [nl] /\
    walk_events (arg argv6 1) [] = [EvListdir (arg argv6 1)] /\
    trace s = run_trace argv6 [].
Proof.
  apply (X2_empty_input host_empty 0 argv6).
  - reflexivity.
  - reflexivity.
Defined.

(** ** Every node has its statement *)

Lemma stmt_of_dir_path it :
  stmt_of_dir it = MakeDir (escape (item_path it)) (length (item_path it)).
Proof.
  unfold stmt_of_dir. f_equal. rewrite item_path_eq, length_app. simpl. lia.
Qed.

(** X3. For whatever tree the host presents, the text collected by a
    completed run holds, for every directory of the tree at any depth (an
    empty one as well), the statement that creates it at its virtual path,
    and for every file of the tree a write statement on its virtual path
    from a byte array that holds the bytes of the file and whose length
    constant is their number. *)
Theorem X3_every_node_emitted h fuel argv es :
  length argv = 4 ->
  presents h (arg argv 1) es ->
  depth es < fuel ->
  exists s,
    main h fuel argv = (s, Normal) /\
    dirs s = flat_map print_stmt (mkdirs_of (walk es [])) /\
    files s = flat_map print_stmt (writes_of 0 (walk es [])) /\
    roms s = flat_map print_rom (roms_of 0 (walk es [])) /\
    (forall comps sub,
       comps <> [] -> node_at (Dir es) comps = Some (Dir sub) ->
       MakeDir (escape (vpath comps)) (length (vpath comps))
       ∈ mkdirs_of (walk es [])) /\
    (forall comps data,
       node_at (Dir es) comps = Some (File data) ->
       exists i,
         writes_of 0 (walk es []) !! i
           = Some (WriteFile (escape (vpath comps)) (length (vpath comps))
                             (filerom i)) /\
         roms_of 0 (walk es []) !! i
           = Some (RomDecl (filerom i) data (length data))).
Proof.
  intros Hlen Hp Hfuel.
  destruct (main_presents h fuel argv es Hlen Hp Hfuel)
    as (s & Hrun & (Hr & Hd & Hf & _) & _ & _).
  exists s. split; [exact Hrun|]. split; [exact Hd|]. split; [exact Hf|].
  split; [exact Hr|]. split.
  - intros [|c cs] sub Hne Hn; [done|].
    destruct (walk_finds es [] c cs _ Hn) as (it & Hin & Hpath & Hk).
    cbn [app] in Hpath. rewrite <- Hpath, <- stmt_of_dir_path.
    unfold mkdirs_of. rewrite map_fmap. apply list_elem_of_fmap_2.
    apply list_elem_of_filter. split; [|done].
    destruct it as [? ? []]; [done|discriminate].
  - intros [|c cs] data Hn; [done|].
    destruct (walk_finds es [] c cs _ Hn) as (it & Hin & Hpath & Hk).
    cbn [app] in Hpath.
    assert (Hfile : it ∈ filter is_file (walk es [])).
    { apply list_elem_of_filter. split; [|done].
      destruct it as [? ? []]; [discriminate|done]. }
    apply list_elem_of_lookup in Hfile as [i Hi]. exists i.
    unfold writes_of, roms_of. rewrite !list_lookup_imap, Hi. cbn [fmap option_fmap option_map].
    unfold stmt_of_file, rom_of. rewrite Hpath. cbn [Nat.add].
    destruct it as [? ? [|d]]; [discriminate|]. by injection Hk as ->.
Qed.

Lemma X3_every_node_emitted_witness :
  exists s,
    main host6 2 argv6 = (s, Normal) /\
    dirs s = flat_map print_stmt (mkdirs_of (walk root6 [])) /\
    files s = flat_map print_stmt (writes_of 0 (walk root6 [])) /\
    roms s = flat_map print_rom (roms_of 0 (walk root6 [])) /\
    (forall comps sub,
       comps <> [] -> node_at (Dir root6) comps = Some (Dir sub) ->
       MakeDir (escape (vpath comps)) (length (vpath comps))
       ∈ mkdirs_of (walk root6 [])) /\
    (forall comps data,
       node_at (Dir root6) comps = Some (File data) ->
       exists i,
         writes_of 0 (walk root6 []) !! i
           = Some (WriteFile (escape (vpath comps)) (length (vpath comps))
                             (filerom i)) /\
         roms_of 0 (walk root6 []) !! i
           = Some (RomDecl (filerom i) data (length data))).
Proof.
  apply (X3_every_node_emitted host6 2 argv6 root6).
  - reflexivity.
  - apply (observe_presents host6 2). vm_compute. reflexivity.
  - vm_compute. lia.
Defined.

Lemma walk_counts : forall es parent,
  length (filter is_dir (walk es parent)) = count_dirs es /\
  length (filter is_file (walk es parent)) = count_files es.
Proof.
  apply (tree_induction
    (fun n => forall parent name,
       length (filter is_dir (walk_node parent name n)) = count_dirs_node n /\
       length (filter is_file (walk_node parent name n)) = count_files_node n)
    (fun es => forall parent,
       length (filter is_dir (walk es parent)) = count_dirs es /\
       length (filter is_file (walk es parent)) = count_files es)).
  - intros data parent name. rewrite walk_node_file. by split.
  - intros es IH parent name. rewrite walk_node_dir.
    destruct (IH (parent ++ slash :: name)) as [Hd Hf].
    rewrite filter_cons_True by done. rewrite filter_cons_False by (by intros ?).
    cbn [length count_dirs_node count_files_node]. unfold count_dirs, count_files in *.
    by rewrite Hd, Hf.
  - done.
  - intros name n es Hn Hes parent. rewrite walk_cons, !filter_app, !length_app.
    destruct (Hn parent name) as [-> ->]. destruct (Hes parent) as [-> ->].
    by split.
Qed.

(** X4. A completed run emits exactly one creation statement per directory
    of the tree, empty directories included, and exactly one byte array and
    one write statement per file; the counter ends at the number of
    files. *)
Theorem X4_statement_counts h fuel argv es :
  length argv = 4 ->
  presents h (arg argv 1) es ->
  depth es < fuel ->
  exists s,
    main h fuel argv = (s, Normal) /\
    dirs s = flat_map print_stmt (mkdirs_of (walk es [])) /\
    files s = flat_map print_stmt (writes_of 0 (walk es [])) /\
    roms s = flat_map print_rom (roms_of 0 (walk es [])) /\
    length (mkdirs_of (walk es [])) = count_dirs es /\
    length (writes_of 0 (walk es [])) = count_files es /\
    length (roms_of 0 (walk es [])) = count_files es /\
    file_count s = count_files es.
Proof.
  intros Hlen Hp Hfuel.
  destruct (main_presents h fuel argv es Hlen Hp Hfuel)
    as (s & Hrun & (Hr & Hd & Hf & Hc) & _ & _).
  destruct (walk_counts es []) as [Hcd Hcf].
  exists s. split; [exact Hrun|]. split; [exact Hd|]. split; [exact Hf|].
  split; [exact Hr|]. unfold mkdirs_of, writes_of, roms_of.
  rewrite length_map, !length_imap, Hcd, Hcf. repeat split.
  rewrite Hc. cbn [file_count initial]. by rewrite Hcf.
Qed.

Lemma X4_statement_counts_witness :
  exists s,
    main host6 2 argv6 = (s, Normal) /\
    dirs s = flat_map print_stmt (mkdirs_of (walk root6 [])) /\
    files s = flat_map print_stmt (writes_of 0 (walk root6 [])) /\
    roms s = flat_map print_rom (roms_of 0 (walk root6 [])) /\
    length (mkdirs_of (walk root6 [])) = count_dirs root6 /\
    length (writes_of 0 (walk root6 [])) = count_files root6 /\
    length (roms_of 0 (walk root6 [])) = count_files root6 /\
    file_count s = count_files root6.
Proof.
  apply (X4_statement_counts host6 2 argv6 root6).
  - reflexivity.
  - apply (observe_presents host6 2). vm_compute. reflexivity.
  - vm_compute. lia.
Defined.

(** ** More on escaping *)

Lemma escape_char_length c :
  length (escape_char c) = if special c then 2 else 1.
Proof.
  unfold escape_char. destruct (special c) eqn:Hc; unfold special in Hc.
  - apply bool_decide_eq_true in Hc.
    repeat case_decide; subst; try reflexivity. tauto.
  - apply bool_decide_eq_false in Hc.
    repeat case_decide; subst; try reflexivity; tauto.
Qed.

Lemma escape_char_no_line_break c :
  (nl ∉ escape_char c) /\ (cr ∉ escape_char c).
Proof.
  unfold escape_char.
  repeat case_decide; subst;
    (split; intros Hin;
     repeat (apply elem_of_cons in Hin as [Hin|Hin]; [by simplify_eq|]);
     by apply not_elem_of_nil in Hin).
Qed.

(** X5. [escape] works piece by piece ([escape (s1 ++ s2)] is
    [escape s1 ++ escape s2], and the empty string stays empty); it
    lengthens a string by exactly the number of backslashes, carriage
    returns, line feeds and double quotes in it, so it leaves a string as
    it is exactly when the string has none of them; and the escaped text
    never holds a line feed or a carriage return, so a statement with an
    escaped path stays on its line. *)
Theorem X5_escape_shape :
  escape [] = [] /\
  (forall s1 s2, escape (s1 ++ s2) = escape s1 ++ escape s2) /\
  (forall s, length (escape s) = length s + length (filter special s)) /\
  (forall s, escape s = s <-> filter special s = []) /\
  (forall s, (nl ∉ escape s) /\ (cr ∉ escape s)).
Proof.
  assert (Hlen : forall s, length (escape s) = length s + length (filter special s)).
  { induction s as [|c s IH]; [done|].
    rewrite escape_cons, length_app, escape_char_length, IH, filter_cons.
    destruct (special c); simpl; lia. }
  split; [done|]. split; [exact escape_app|]. split; [exact Hlen|]. split.
  - intros s. split.
    + intros E. apply (f_equal length) in E. rewrite Hlen in E.
      destruct (filter special s); [done|simpl in E; lia].
    + induction s as [|c s IH]; [done|]. rewrite filter_cons.
      destruct (special c) eqn:Hc; [done|]. simpl. intros Hs.
      rewrite escape_cons, (IH Hs). unfold escape_char.
      unfold special in Hc. apply bool_decide_eq_false in Hc.
      repeat case_decide; subst; tauto || done.
  - induction s as [|c s [IH1 IH2]].
    + split; apply not_elem_of_nil.
    + rewrite escape_cons. destruct (escape_char_no_line_break c) as [H1 H2].
      split; intros [Hin|Hin]%elem_of_app; tauto.
Qed.

(** ** The collected text, however the walk ends *)

Lemma whole_seq p q :
  adds_whole_entries p -> adds_whole_entries q -> adds_whole_entries (p >> q).
Proof.
  intros Hp Hq s s' st Hrun.
  apply seq_inv in Hrun as [(s1 & H1 & H2)|[H1 _]].
  - destruct (Hp _ _ _ H1) as [l1 E1]. destruct (Hq _ _ _ H2) as [l2 E2].
    exists (l1 ++ l2). by eapply emitted_app.
  - by eapply Hp.
Qed.

Lemma whole_for_each {A} (l : list A) body :
  (forall x, adds_whole_entries (body x)) -> adds_whole_entries (for_each l body).
Proof.
  intros Hb. induction l as [|x l IH]; cbn [for_each].
  - intros s s' st [= <- <-]. exists []. by apply emitted_nil.
  - by apply whole_seq.
Qed.

Lemma whole_log e : adds_whole_entries (log e).
Proof. intros s s' st [= <- <-]. exists []. by apply emitted_nil. Qed.

Lemma whole_add_dir h fuel : forall path virtpath,
  adds_whole_entries (add_dir h fuel path virtpath).
Proof.
  induction fuel as [|fuel IH]; intros path virtpath; cbn [add_dir].
  - intros s s' st [= <- <-]. exists []. by apply emitted_nil.
  - apply whole_seq; [apply whole_log|].
    destruct (listdir h path) as [names|].
    + apply whole_for_each. intros filename.
      apply whole_seq; [apply whole_log|].
      destruct (isdir h (path ++ "/" ++ filename)).
      * apply whole_seq; [|apply IH].
        intros s s' st [= <- <-]. exists [Item virtpath filename KDir].
        by apply emitted_mkdir.
      * intros s s' st Hrun.
        destruct (read_file h (path ++ "/" ++ filename)) as [data|] eqn:Hread.
        -- erewrite seq_normal in Hrun by (by apply add_rom_ok).
           injection Hrun as <- <-.
           exists [Item virtpath filename (KFile data)]. by apply emitted_file.
        -- erewrite seq_stop in Hrun; [|by apply add_rom_fail|done].
           injection Hrun as <- <-. exists []. by apply emitted_nil.
    + intros s s' st [= <- <-]. exists []. by apply emitted_nil.
Qed.

Lemma emitted_grows l s s' : emitted l s s' ->
  roms s `prefix_of` roms s' /\ dirs s `prefix_of` dirs s' /\
  files s `prefix_of` files s' /\ file_count s <= file_count s'.
Proof.
  intros (Hr & Hd & Hf & Hc). rewrite Hr, Hd, Hf, Hc.
  repeat split; try (by eexists); lia.
Qed.

(** X6. However a walk ends (completed, uncaught exception, or the budget
    of the model used up), what it leaves in the globals is what was there
    before followed by the text of whole discoveries: each directory
    creation line is complete, each byte array comes with its write block,
    and the counter has grown by the number of arrays added.  A file that
    cannot be read adds nothing.  So the globals and the trace only grow:
    nothing collected earlier is changed or lost. *)
Theorem X6_whole_entries_only h fuel path virtpath s :
  (exists l, emitted l s (add_dir h fuel path virtpath s).1 /\
             file_count (add_dir h fuel path virtpath s).1
             = file_count s + length (roms_of (file_count s) l)) /\
  grows s (add_dir h fuel path virtpath s).1 /\
  (forall name, read_file h path = None ->
     roms (add_rom h path virtpath name s).1 = roms s /\
     files (add_rom h path virtpath name s).1 = files s /\
     (add_rom h path virtpath name s).2 = Uncaught).
Proof.
  destruct (add_dir h fuel path virtpath s) as [s' st] eqn:Hrun. cbn [fst].
  destruct (whole_add_dir h fuel path virtpath s s' st Hrun) as [l Hem].
  split; [|split].
  - exists l. split; [done|]. destruct Hem as (_ & _ & _ & ->).
    unfold roms_of. by rewrite length_imap.
  - destruct (emitted_grows l s s' Hem) as (? & ? & ? & ?).
    destruct (reads_only_add_dir h fuel _ _ _ _ _ Hrun) as [(evs & Ht & _) _].
    repeat split; try done. by exists evs.
  - intros name Hread. by rewrite (add_rom_fail h _ _ _ _ Hread).
Qed.

(** ** The output file determines what was found *)

Lemma omap_imap_each {A B C} (g : B -> option C) (k : A -> C) (l : list A) :
  forall f : nat -> A -> B,
  (forall i x, g (f i x) = Some (k x)) -> omap g (imap f l) = k <$> l.
Proof.
  induction l as [|x l IH]; intros f Hf; [done|].
  simpl. rewrite Hf. simpl. f_equal. apply IH.
  intros i y. apply Hf.
Qed.

Lemma omap_imap_none {A B C} (g : B -> option C) (l : list A) :
  forall f : nat -> A -> B,
  (forall i x, g (f i x) = None) -> omap g (imap f l) = [].
Proof.
  induction l as [|x l IH]; intros f Hf; [done|].
  simpl. rewrite Hf. apply IH. intros i y. apply Hf.
Qed.

Lemma omap_map_each {A B C} (g : B -> option C) (k : A -> C) (f : A -> B) l :
  (forall x, g (f x) = Some (k x)) -> omap g (map f l) = k <$> l.
Proof.
  intros Hf. induction l as [|x l IH]; [done|].
  simpl. rewrite Hf. simpl. by f_equal.
Qed.

Lemma omap_map_none {A B C} (g : B -> option C) (f : A -> B) l :
  (forall x, g (f x) = None) -> omap g (map f l) = [].
Proof.
  intros Hf. induction l as [|x l IH]; [done|].
  simpl. by rewrite Hf.
Qed.

Lemma fmap_escape_inj (l1 l2 : list str) :
  escape <$> l1 = escape <$> l2 -> l1 = l2.
Proof.
  revert l2. induction l1 as [|x l1 IH]; intros [|y l2] E; try done.
  injection E as E1 E2. f_equal; [by apply escape_inj|by apply IH].
Qed.

Lemma compile_made_dirs es entry :
  omap (fun st => match st with MakeDir lit _ => Some lit | _ => None end)
       (art_body (compile es entry))
  = escape <$> (item_path <$> filter is_dir (walk es [])).
Proof.
  unfold compile. cbn [art_body]. rewrite omap_app.
  unfold mkdirs_of, writes_of.
  rewrite (omap_map_each _ (fun it => escape (item_path it))) by done.
  rewrite omap_imap_none by done. rewrite app_nil_r.
  by rewrite <- list_fmap_compose.
Qed.

Lemma compile_written_files es entry :
  omap (fun st => match st with WriteFile lit _ _ => Some lit | _ => None end)
       (art_body (compile es entry))
  = escape <$> (item_path <$> filter is_file (walk es [])).
Proof.
  unfold compile. cbn [art_body]. rewrite omap_app.
  unfold mkdirs_of, writes_of.
  rewrite omap_map_none by done.
  rewrite (omap_imap_each _ (fun it => escape (item_path it))) by done.
  by rewrite <- list_fmap_compose.
Qed.

Lemma compile_rom_data es entry :
  rom_data <$> art_roms (compile es entry)
  = item_data <$> filter is_file (walk es []).
Proof.
  unfold compile, roms_of. cbn [art_roms].
  rewrite fmap_imap, <- imap_const. by apply imap_ext.
Qed.

Lemma fmap_pair_zip {A B C} (f : A -> B) (g : A -> C) (l : list A) :
  (fun x => (f x, g x)) <$> l = zip (f <$> l) (g <$> l).
Proof. induction l as [|x l IH]; [done|]. cbn. by f_equal. Qed.

(** X7. The text written by a completed run tells what was found: two
    completed runs whose entry-function names are C identifiers and whose
    output texts are equal have the same entry-function name, found the same
    directories at the same virtual paths in the same order, and the same
    files with the same virtual paths and the same bytes in the same
    order. *)
Theorem X7_output_determines_content h1 h2 fuel1 fuel2 argv1 argv2 es1 es2 :
  length argv1 = 4 -> length argv2 = 4 ->
  presents h1 (arg argv1 1) es1 -> depth es1 < fuel1 ->
  presents h2 (arg argv2 1) es2 -> depth es2 < fuel2 ->
  identifier (arg argv1 3) -> identifier (arg argv2 3) ->
  written (trace (main h1 fuel1 argv1).1)
  = written (trace (main h2 fuel2 argv2).1) ->
  arg argv1 3 = arg argv2 3 /\
  item_path <$> filter is_dir (walk es1 [])
  = item_path <$> filter is_dir (walk es2 []) /\
  (fun it => (item_path it, item_data it)) <$> filter is_file (walk es1 [])
  = (fun it => (item_path it, item_data it)) <$> filter is_file (walk es2 []).
Proof.
  intros Hlen1 Hlen2 Hp1 Hf1 Hp2 Hf2 Hid1 Hid2 Hout.
  destruct (main_presents h1 fuel1 argv1 es1 Hlen1 Hp1 Hf1)
    as (s1 & Hrun1 & _ & _ & Hw1).
  destruct (main_presents h2 fuel2 argv2 es2 Hlen2 Hp2 Hf2)
    as (s2 & Hrun2 & _ & _ & Hw2).
  rewrite Hrun1, Hrun2 in Hout. cbn [fst] in Hout.
  rewrite Hw1, Hw2 in Hout.
  assert (compile es1 (arg argv1 3) = compile es2 (arg argv2 3)) as Hc.
  { apply (f_equal parse_artifact) in Hout.
    rewrite !parse_print_artifact in Hout by (by apply wf_compile).
    congruence. }
  split; [|split].
  - by apply (f_equal art_entry) in Hc.
  - apply fmap_escape_inj.
    rewrite <- (compile_made_dirs es1 (arg argv1 3)),
            <- (compile_made_dirs es2 (arg argv2 3)).
    by rewrite Hc.
  - rewrite !fmap_pair_zip. f_equal.
    + apply fmap_escape_inj.
      rewrite <- (compile_written_files es1 (arg argv1 3)),
              <- (compile_written_files es2 (arg argv2 3)).
      by rewrite Hc.
    + rewrite <- (compile_rom_data es1 (arg argv1 3)),
              <- (compile_rom_data es2 (arg argv2 3)).
      by rewrite Hc.
Qed.

Lemma X7_output_determines_content_witness :
  arg argv6 3 = arg argv6 3 /\
  item_path <$> filter is_dir (walk root6 [])
  = item_path <$> filter is_dir (walk root6 []) /\
  (fun it => (item_path it, item_data it)) <$> filter is_file (walk root6 [])
  = (fun it => (item_path it, item_data it)) <$> filter is_file (walk root6 []).
Proof.
  apply (X7_output_determines_content host6 host6' 2 5 argv6 argv6 root6 root6).
  - reflexivity.
  - reflexivity.
  - apply (observe_presents host6 2). vm_compute. reflexivity.
  - vm_compute. lia.
  - apply (observe_presents host6' 2). reflexivity.
  - vm_compute. lia.
  - split; [done|]. vm_compute. repeat constructor.
  - split; [done|]. vm_compute. repeat constructor.
  - vm_compute. reflexivity.
Defined.

(** ** No path is acted on twice *)




(** ** The byte-array initialiser *)

Lemma bytes_text_app d1 d2 : bytes_text (d1 ++ d2) = bytes_text d1 ++ bytes_text d2.
Proof. unfold bytes_text. by rewrite flat_map_app. Qed.

Lemma bytes_text_read data : parse_bytes (S (length data)) (bytes_text data) = Some (data, []).
Proof.
  unfold bytes_text.
  rewrite <- (app_nil_r (flat_map _ data)).
  apply parse_bytes_text; [lia|done].
Qed.

(** X9. The initialiser of a byte array has five characters per byte
    ([0x], two hexadecimal digits, a comma), is the concatenation of the
    initialisers of its parts, and tells the bytes: it reads back to the
    bytes it was written from, so different contents never give the same
    initialiser. *)
Theorem X9_byte_initialiser :
  (forall data, length (bytes_text data) = 5 * length data) /\
  (forall d1 d2, bytes_text (d1 ++ d2) = bytes_text d1 ++ bytes_text d2) /\
  (forall data, parse_bytes (S (length data)) (bytes_text data) = Some (data, [])) /\
  (forall d1 d2, bytes_text d1 = bytes_text d2 -> d1 = d2) /\
  (forall d, print_rom d
     = "uint8_t const " ++ rom_name d ++ "[] = {" ++ [nl] ++ "    "
       ++ bytes_text (rom_data d) ++ [nl] ++ "};" ++ [nl]
       ++ "size_t const " ++ rom_name d ++ "_len = " ++ dec (rom_len d)
       ++ ";" ++ [nl]).
Proof.
  assert (Hlen : forall data, length (bytes_text data) = 5 * length data).
  { induction data as [|b data IH]; [done|].
    change (bytes_text (b :: data)) with (bytes_text ([b] ++ data)).
    rewrite bytes_text_app, length_app, IH.
    assert (length (bytes_text [b]) = 5) as ->
      by (destruct b; vm_compute; reflexivity).
    cbn [length]. lia. }
  split; [done|]. split; [apply bytes_text_app|]. split; [apply bytes_text_read|].
  split; [|done].
  intros d1 d2 E.
  assert (length d1 = length d2) as El.
  { apply (f_equal length) in E. rewrite !Hlen in E. lia. }
  pose proof (bytes_text_read d1) as H1. pose proof (bytes_text_read d2) as H2.
  rewrite E, El in H1. congruence.
Qed.

(** * The toolchain selection helper *)

Import Selarch SelarchScenario SelarchAnswers.

(** ** The prompts *)

Lemma asked_now {A} P ev ins out (a : A) :
  asked P (ev :: ins) out (Console ins (out ++ [P]), Ret a).
Proof. exists [ev]. by cbn. Qed.

Lemma asked_again {A} P ev ins out (r : console * outcome A) :
  asked P ins (out ++ [P]) r -> asked P (ev :: ins) out r.
Proof.
  intros (read & Hread & Hres). exists (ev :: read).
  split; [by rewrite Hread at 1|].
  destruct r as [c' [a|code|x]]; cbn [fst snd] in *; [| |done].
  - rewrite Hres. by rewrite <- app_assoc.
  - destruct Hres as (-> & n & -> & Hn). split; [done|].
    exists (S n). split; [by rewrite <- app_assoc|].
    destruct Hn as [[-> (before & ->)]|[-> Hnil]].
    + left. split; [done|]. by exists (ev :: before).
    + right. done.
Qed.

Lemma asked_eof {A} P out :
  asked (A := A) P [] out (Console [] ((out ++ [P]) ++ [Printed []]), Exit 1).
Proof.
  exists []. cbn. split; [done|]. split; [done|].
  exists 1. split; [by rewrite <- app_assoc|]. right. done.
Qed.

Lemma asked_interrupt {A} P ins out :
  asked (A := A) P (Interrupt :: ins) out
    (Console ins ((out ++ [P]) ++ [Printed []]), Exit 1).
Proof.
  exists [Interrupt]. cbn. split; [done|]. split; [done|].
  exists 1. split; [by rewrite <- app_assoc|]. left. split; [done|]. by exists [].
Qed.

Lemma choice_loop_asked rt name options preferred : forall ins out,
  asked (Prompted (choice_prompt name preferred)) ins out
    (choice_loop rt name options preferred ins out).
Proof.
  induction ins as [|ev ins IH]; intros out; [apply asked_eof|].
  pose proof (asked_again _ ev _ _ _ (IH (out ++ [Prompted (choice_prompt name preferred)])))
    as Hloop.
  destruct ev as [resp| |]; cbn [choice_loop];
    [|apply asked_interrupt|exact Hloop].
  destruct (if decide (strip rt resp = []) then preferred else None);
    [apply asked_now|].
  destruct (int_of rt resp) as [index|]; [|exact Hloop].
  destruct (decide (1 <= index <= Z.of_nat (length options))%Z);
    [apply asked_now|exact Hloop].
Qed.

Lemma choice_loop_range rt name options preferred : forall ins out c' i,
  choice_loop rt name options preferred ins out = (c', Ret i) ->
  preferred = Some i \/ i < length options.
Proof.
  induction ins as [|ev ins IH]; intros out c' i; [done|].
  destruct ev as [resp| |]; cbn [choice_loop]; [|done|apply IH].
  destruct (decide (strip rt resp = [])).
  - destruct preferred as [p|]; [intros [= _ <-]; by left|].
    destruct (int_of rt resp) as [index|]; [|apply IH].
    destruct (decide (1 <= index <= Z.of_nat (length options))%Z); [|apply IH].
    intros [= _ <-]. right. lia.
  - destruct (int_of rt resp) as [index|]; [|apply IH].
    destruct (decide (1 <= index <= Z.of_nat (length options))%Z); [|apply IH].
    intros [= _ <-]. right. lia.
Qed.

Lemma yesno_loop_asked rt name default : forall ins out,
  asked (Prompted (yesno_prompt name default)) ins out
    (yesno_loop rt name default ins out).
Proof.
  induction ins as [|ev ins IH]; intros out; [apply asked_eof|].
  pose proof (asked_again _ ev _ _ _ (IH (out ++ [Prompted (yesno_prompt name default)])))
    as Hloop.
  destruct ev as [resp| |]; cbn [yesno_loop];
    [|apply asked_interrupt|exact Hloop].
  destruct (if decide (strip rt resp = []) then default else None);
    [apply asked_now|].
  destruct (decide (lower rt (strip rt resp) ∈ ["y" : str; "yes" : str]));
    [apply asked_now|].
  destruct (decide (lower rt (strip rt resp) ∈ ["n" : str; "no" : str]));
    [apply asked_now|exact Hloop].
Qed.

(** X10. [prompt_choice] never raises.  What it returns is the preferred
    option or the index of one of the options.  It reads input only from
    the front, asks once per event it reads, and leaves what was on the
    terminal in place.  It ends the run only with status 1, only after
    Ctrl-C or at the end of the input, and after printing an empty line.
    With [--default] and a preferred option it returns that option and
    neither prints nor reads. *)
Theorem X10_prompt_choice_outcome rt use_defaults name options preferred c c' r :
  prompt_choice rt use_defaults name options preferred c = (c', r) ->
  match r with
  | Ret i => preferred = Some i \/ i < length options
  | Exit code => code = 1%Z /\ last (output c') = Some (Printed [])
  | Raised _ => False
  end /\
  ((c' = c /\ use_defaults = true /\ exists p, preferred = Some p /\ r = Ret p)
   \/ ((use_defaults = false \/ preferred = None) /\
       asked (Prompted (choice_prompt name preferred)) (stdin c)
         (output c ++ menu name options) (c', r))).
Proof.
  unfold prompt_choice. intros Hrun.
  destruct use_defaults; [destruct preferred as [p|]|].
  - injection Hrun as <- <-. split; [by left|]. left. eauto.
  - pose proof (choice_loop_asked rt name options None (stdin c)
                  (output c ++ menu name options)) as Ha.
    unfold menu in *. rewrite Hrun in Ha. split; [|right; by split; [right|]].
    destruct r as [i|code|x].
    + by eapply choice_loop_range.
    + destruct Ha as (read & _ & -> & n & Hout & _). cbn [fst] in Hout.
      split; [done|]. by rewrite Hout, !app_assoc, last_snoc.
    + by destruct Ha as (read & _ & ?).
  - pose proof (choice_loop_asked rt name options preferred (stdin c)
                  (output c ++ menu name options)) as Ha.
    unfold menu in *. rewrite Hrun in Ha. split; [|right; by split; [left|]].
    destruct r as [i|code|x].
    + by eapply choice_loop_range.
    + destruct Ha as (read & _ & -> & n & Hout & _). cbn [fst] in Hout.
      split; [done|]. by rewrite Hout, !app_assoc, last_snoc.
    + by destruct Ha as (read & _ & ?).
Qed.

Lemma X10_prompt_choice_outcome_witness :
  match Ret 1 with
  | Ret i => Some 0 = Some i \/ i < length ["gcc" : str; "clang" : str]
  | Exit code =>
      code = 1%Z /\
      last (output (Console [Line "1"]
                      (menu "compiler" ["gcc" : str; "clang" : str]
                       ++ replicate 2 (Prompted (choice_prompt "compiler" (Some 0))))))
      = Some (Printed [])
  | Raised _ => False
  end /\
  ((Console [Line "1"]
      (menu "compiler" ["gcc" : str; "clang" : str]
       ++ replicate 2 (Prompted (choice_prompt "compiler" (Some 0))))
    = Console [Line "x"; Line "2"; Line "1"] [] /\
    false = true /\ exists p, Some 0 = Some p /\ Ret 1 = Ret p)
   \/ ((false = false \/ Some 0 = None) /\
       asked (Prompted (choice_prompt "compiler" (Some 0)))
         (stdin (Console [Line "x"; Line "2"; Line "1"] []))
         (output (Console [Line "x"; Line "2"; Line "1"] [])
          ++ menu "compiler" ["gcc" : str; "clang" : str])
         (Console [Line "1"]
            (menu "compiler" ["gcc" : str; "clang" : str]
             ++ replicate 2 (Prompted (choice_prompt "compiler" (Some 0)))),
          Ret 1))).
Proof.
  apply (X10_prompt_choice_outcome ascii_runtime false "compiler"
           ["gcc" : str; "clang" : str] (Some 0)
           (Console [Line "x"; Line "2"; Line "1"] [])).
  vm_compute. reflexivity.
Defined.

Lemma choice_loop_rejected rt name options preferred : forall before ins out,
  Forall (rejected rt options preferred) before ->
  choice_loop rt name options preferred (before ++ ins) out
  = choice_loop rt name options preferred ins
      (out ++ replicate (length before) (Prompted (choice_prompt name preferred))).
Proof.
  induction before as [|ev before IH]; intros ins out Hrej.
  - cbn. by rewrite app_nil_r.
  - apply Forall_cons in Hrej as [Hev Hrej].
    assert (choice_loop rt name options preferred ((ev :: before) ++ ins) out
            = choice_loop rt name options preferred (before ++ ins)
                (out ++ [Prompted (choice_prompt name preferred)])) as ->.
    { destruct ev as [resp| |]; cbn [choice_loop app]; [|done|done].
      destruct Hev as [Hs Hint].
      destruct (decide (strip rt resp = [])) as [He|He].
      - rewrite (Hs He). destruct (int_of rt resp) as [index|]; [|done].
        by rewrite decide_False.
      - destruct (int_of rt resp) as [index|]; [|done].
        by rewrite decide_False. }
    rewrite IH by done. cbn [length replicate]. by rewrite <- app_assoc.
Qed.

(** X11. [prompt_choice] asks until it gets an answer it takes: events it
    rejects (an answer that is not a number, a number out of range, an
    empty answer where nothing is preferred, a failed read) each cost one
    more prompt, and the first answer it takes decides.  An empty answer
    gives the preferred option, the number [k] gives the option of index
    [k - 1]; the input after that answer is left unread. *)
Theorem X11_first_accepted_answer rt name options preferred before resp i rest out :
  Forall (rejected rt options preferred) before ->
  accepted rt options preferred resp i ->
  prompt_choice rt false name options preferred
    (Console (before ++ Line resp :: rest) out)
  = (Console rest
       (out ++ menu name options
        ++ replicate (S (length before)) (Prompted (choice_prompt name preferred))),
     Ret i).
Proof.
  intros Hrej Hacc. unfold prompt_choice. cbn [stdin output].
  fold (menu name options).
  rewrite choice_loop_rejected by done. cbn [choice_loop].
  rewrite <- !app_assoc.
  replace (replicate (length before) (Prompted (choice_prompt name preferred))
           ++ [Prompted (choice_prompt name preferred)])
    with (replicate (S (length before)) (Prompted (choice_prompt name preferred)))
    by (by rewrite replicate_S_end).
  destruct Hacc as [[Hs ->]|(Hs & index & Hint & Hr & ->)].
  - by rewrite decide_True.
  - destruct (decide (strip rt resp = [])) as [He|He].
    + rewrite (Hs He), Hint. by rewrite decide_True.
    + rewrite Hint. by rewrite decide_True.
Qed.

Lemma X11_first_accepted_answer_witness :
  prompt_choice ascii_runtime false "compiler" ["gcc" : str; "clang" : str]
    (Some 0)
    (Console ([Line "x"; InputError; Line "3"] ++ Line " 2 " :: [Line "1"]) [])
  = (Console [Line "1"]
       ([] ++ menu "compiler" ["gcc" : str; "clang" : str]
        ++ replicate 4 (Prompted (choice_prompt "compiler" (Some 0)))),
     Ret 1).
Proof.
  apply (X11_first_accepted_answer ascii_runtime "compiler"
           ["gcc" : str; "clang" : str] (Some 0)
           [Line "x"; InputError; Line "3"] " 2 " 1 [Line "1"] []).
  - repeat constructor; try (vm_compute; done).
    vm_compute. intros [_ H]. by apply H.
  - right. split; [vm_compute; done|]. exists 2%Z. vm_compute. repeat split; congruence.
Defined.

Lemma yesno_loop_unclear rt name default : forall before ins out,
  Forall (unclear rt default) before ->
  yesno_loop rt name default (before ++ ins) out
  = yesno_loop rt name default ins
      (out ++ replicate (length before) (Prompted (yesno_prompt name default))).
Proof.
  induction before as [|ev before IH]; intros ins out Hrej.
  - cbn. by rewrite app_nil_r.
  - apply Forall_cons in Hrej as [Hev Hrej].
    assert (yesno_loop rt name default ((ev :: before) ++ ins) out
            = yesno_loop rt name default (before ++ ins)
                (out ++ [Prompted (yesno_prompt name default)])) as ->.
    { destruct ev as [resp| |]; cbn [yesno_loop app]; [|done|done].
      destruct Hev as [Hs Hno].
      assert ((if decide (strip rt resp = []) then default else None) = None) as ->.
      { destruct (decide (strip rt resp = [])) as [He|He]; [by apply Hs|done]. }
      rewrite decide_False
        by (intros Hy; apply Hno; rewrite !elem_of_cons in Hy; rewrite !elem_of_cons; tauto).
      by rewrite decide_False
        by (intros Hy; apply Hno; rewrite !elem_of_cons in Hy; rewrite !elem_of_cons; tauto). }
    rewrite IH by done. cbn [length replicate]. by rewrite <- app_assoc.
Qed.

(** X12. [prompt_yesno] asks until the answer is clear: an empty answer
    gives the default, [y] or [yes] gives true, [n] or [no] gives false
    (after stripping, in any case of letters); anything else, and an empty
    answer where there is no default, costs one more prompt.  It prints one
    empty line before it asks and leaves the input after the answer
    unread.  With [--default] and a default it returns the default and
    neither prints nor reads; it never raises. *)
Theorem X12_first_clear_answer rt name default before resp b rest out :
  Forall (unclear rt default) before ->
  said rt default resp b ->
  prompt_yesno rt false name default (Console (before ++ Line resp :: rest) out)
  = (Console rest
       (out ++ [Printed []]
        ++ replicate (S (length before)) (Prompted (yesno_prompt name default))),
     Ret b) /\
  (forall d c, prompt_yesno rt true name (Some d) c = (c, Ret d)) /\
  (forall use_defaults c x,
     (prompt_yesno rt use_defaults name default c).2 <> Raised x).
Proof.
  intros Hrej Hsaid. split; [|split].
  - unfold prompt_yesno. cbn [stdin output].
    rewrite yesno_loop_unclear by done. cbn [yesno_loop].
    rewrite <- !app_assoc.
    replace (replicate (length before) (Prompted (yesno_prompt name default))
             ++ [Prompted (yesno_prompt name default)])
      with (replicate (S (length before)) (Prompted (yesno_prompt name default)))
      by (by rewrite replicate_S_end).
    destruct Hsaid as [[Hs ->]|(Hs & Hb)].
    + by rewrite decide_True.
    + assert ((if decide (strip rt resp = []) then default else None) = None) as ->.
      { destruct (decide (strip rt resp = [])) as [He|He]; [by apply Hs|done]. }
      destruct b.
      * by rewrite decide_True.
      * destruct Hb as [Hy Hn]. rewrite decide_False by done.
        by rewrite decide_True.
  - done.
  - intros use_defaults c x. unfold prompt_yesno.
    destruct (if use_defaults then default else None); [done|].
    pose proof (yesno_loop_asked rt name default (stdin c) (output c ++ [Printed []]))
      as (read & _ & Hres).
    intros E. by rewrite E in Hres.
Qed.

Lemma X12_first_clear_answer_witness :
  prompt_yesno ascii_runtime false "Use native ISA?" (Some true)
    (Console ([Line "maybe"; Line "1"] ++ Line " No " :: [Line "y"]) [])
  = (Console [Line "y"]
       ([] ++ [Printed []]
        ++ replicate 3 (Prompted (yesno_prompt "Use native ISA?" (Some true)))),
     Ret false).
Proof.
  apply (X12_first_clear_answer ascii_runtime "Use native ISA?" (Some true)
           [Line "maybe"; Line "1"] " No " false [Line "y"] []).
  - repeat constructor; try (vm_compute; done); vm_compute; set_solver.
  - right. split; [vm_compute; done|]. vm_compute. split; set_solver.
Defined.

(** ** Looking for compilers *)

Lemma for_each_in_keeps {A S} (I : S -> Prop) (l : list A)
    (body : A -> S -> outcome S) :
  (forall x s s', x ∈ l -> I s -> body x s = Ret s' -> I s') ->
  forall s s', I s -> for_each_in l body s = Ret s' -> I s'.
Proof.
  induction l as [|x l IH]; intros Hbody s s' Hs; cbn [for_each_in].
  - by intros [= <-].
  - destruct (body x s) as [s1| |] eqn:Hx; [|done|done].
    apply IH; [|by eapply Hbody; [left| |]].
    intros y t t' Hy. apply Hbody. by right.
Qed.

Lemma known_name_not_empty name : name ∈ known_compiler_names -> name <> [].
Proof. unfold known_compiler_names. intros H ->. set_solver. Qed.

Lemma but_last_app stem name : name <> [] -> but_last (length name) (stem ++ name) = stem.
Proof.
  intros Hne. unfold but_last. destruct name as [|c name]; [done|].
  cbn [length]. rewrite length_app. cbn [length].
  replace (length stem + S (length name) - S (length name)) with (length stem) by lia.
  by rewrite take_app_length.
Qed.

Lemma test_candidate_true rt e cpu prefix compiler_name :
  test_candidate rt e cpu prefix compiler_name = Ret true ->
  path_exists e (prefix ++ "objdump") = true /\
  path_exists e (prefix ++ "addr2line") = true /\
  exists out,
    dumpmachine e (prefix ++ compiler_name) = Returned 0 (Some out) /\
    contains cpu (strip rt out) = true /\
    (contains "badgeros" (strip rt out) = true
     \/ contains "linux-gnu" (strip rt out) = true).
Proof.
  unfold test_candidate, query_compiler_arch.
  destruct (path_exists e (prefix ++ "objdump")); [|done].
  destruct (path_exists e (prefix ++ "addr2line")); [|done].
  cbn [negb orb].
  destruct (dumpmachine e (prefix ++ compiler_name)) as [|code out]; [done|].
  destruct (decide (code <> 0%Z)) as [|Hcode]; [done|].
  destruct out as [out|]; [|done].
  intros [= H]. apply andb_true_iff in H as [H1 H2].
  apply orb_true_iff in H2.
  split; [done|]. split; [done|]. exists out.
  assert (code = 0%Z) as -> by lia. done.
Qed.

Lemma try_names_keeps rt e cpu path dir files filename :
  getenv_PATH e = Some path -> dir ∈ split ":" path ->
  listdir e dir = Some files -> filename ∈ files ->
  forall names f f',
    names ⊆ known_compiler_names ->
    paired rt e cpu f ->
    try_names rt e cpu dir filename names f = Ret f' ->
    paired rt e cpu f'.
Proof.
  intros Hpath Hdir Hfiles Hfile.
  induction names as [|name names IH]; intros f f' Hknown Hf; cbn [try_names].
  - by intros [= <-].
  - assert (names ⊆ known_compiler_names) as Hrest by set_solver.
    assert (name ∈ known_compiler_names) as Hname by set_solver.
    destruct (decide (name `suffix_of` filename)) as [[stem Hstem]|_];
      [|by apply IH].
    destruct (bool_decide (length name < length filename)
              && negb (bool_decide
                   (filename !! (length filename - length name - 1)
                    = Some "-"%char))) eqn:Hdash;
      [by apply IH|].
    assert (but_last (length name) filename = stem) as ->.
    { rewrite Hstem. by apply but_last_app, known_name_not_empty. }
    destruct (test_candidate rt e cpu (dir ++ "/" ++ stem) name) as [ok| |] eqn:Htest;
      [|done|done].
    destruct (ok && negb (bool_decide
                ((dir ++ "/" ++ stem) ++ name ∈ candidates f))) eqn:Hadd;
      [|by intros [= <-]].
    intros [= <-].
    apply andb_true_iff in Hadd as [-> Hnew].
    apply negb_true_iff, bool_decide_eq_false in Hnew.
    destruct Hf as (Hlen & Hnd & Hall).
    split; [|split]; cbn [candidates prefixes].
    + rewrite !length_app. cbn. lia.
    + apply NoDup_app. split; [done|]. split; [|apply NoDup_singleton].
      intros x Hx Hx'. apply list_elem_of_singleton in Hx'. by subst.
    + apply Forall2_app; [done|]. constructor; [|constructor].
      destruct (test_candidate_true _ _ _ _ _ Htest) as (Ho & Ha & out & Hd & Hc & Hb).
      exists path, dir, files, filename, name, out.
      repeat split; try done.
      * by rewrite Hstem, <- !app_assoc.
      * destruct stem as [|c stem _] using rev_ind; [by left|]. right.
        exists stem. rewrite Hstem, <- app_assoc. cbn.
        apply andb_false_iff in Hdash as [Hshort|Hd'].
        -- apply bool_decide_eq_false in Hshort.
           rewrite Hstem, !length_app in Hshort. cbn in Hshort. lia.
        -- apply negb_false_iff, bool_decide_eq_true in Hd'.
           rewrite Hstem in Hd'. rewrite !length_app in Hd'. cbn [length] in Hd'.
           replace (length stem + 1 + length name - length name - 1)
             with (length stem) in Hd' by lia.
           rewrite <- app_assoc in Hd'. cbn [app] in Hd'.
           rewrite list_lookup_middle in Hd' by done.
           by injection Hd' as ->.
Qed.

(** X13. When the search along [PATH] completes, the two lists it leaves
    have the same length, no compiler is listed twice, and every listed
    compiler, with the prefix at the same position, is the path of a file
    found in a directory of [PATH], named after [gcc], [cc] or [clang]
    alone or after a dash, whose [objdump] and [addr2line] exist under the
    same prefix and whose [-dumpmachine] answer, with status 0, names the
    chosen architecture and one of [badgeros] and [linux-gnu]. *)
Theorem X13_candidates_are_suitable rt e cpu f :
  scan rt e cpu = Ret f ->
  length (candidates f) = length (prefixes f) /\
  NoDup (candidates f) /\
  Forall2 (suitable rt e cpu) (candidates f) (prefixes f).
Proof.
  unfold scan. destruct (getenv_PATH e) as [path|] eqn:Hpath; [|done].
  apply (for_each_in_keeps (paired rt e cpu)).
  - intros dir s s' Hdir Hs.
    destruct (listdir e dir) as [files|] eqn:Hfiles; [|by intros [= <-]].
    apply (for_each_in_keeps (paired rt e cpu)); [|done].
    intros filename t t' Hfile Ht. by eapply try_names_keeps.
  - split; [done|]. split; [apply NoDup_nil_2|constructor].
Qed.

Lemma X13_candidates_are_suitable_witness :
  length (candidates (Found ["fs/bin1/gcc" : str; "fs/bin2/cc" : str]
                            ["fs/bin1/" : str; "fs/bin2/" : str]))
  = length (prefixes (Found ["fs/bin1/gcc" : str; "fs/bin2/cc" : str]
                            ["fs/bin1/" : str; "fs/bin2/" : str])) /\
  NoDup (candidates (Found ["fs/bin1/gcc" : str; "fs/bin2/cc" : str]
                           ["fs/bin1/" : str; "fs/bin2/" : str])) /\
  Forall2 (suitable ascii_runtime pc "x86_64")
    (candidates (Found ["fs/bin1/gcc" : str; "fs/bin2/cc" : str]
                       ["fs/bin1/" : str; "fs/bin2/" : str]))
    (prefixes (Found ["fs/bin1/gcc" : str; "fs/bin2/cc" : str]
                     ["fs/bin1/" : str; "fs/bin2/" : str])).
Proof.
  apply (X13_candidates_are_suitable ascii_runtime pc "x86_64").
  vm_compute. reflexivity.
Defined.

(** ** The run *)

Lemma bind_ret_inv {A B} (m : io A) (k : A -> io B) c c' b :
  bind m k c = (c', Ret b) ->
  exists a c1, m c = (c1, Ret a) /\ k a c1 = (c', Ret b).
Proof.
  unfold bind. destruct (m c) as [c1 [a|code|x]]; [|done|done].
  intros H. by exists a, c1.
Qed.

Lemma lift_ret_inv {A} (r : outcome A) c c' a :
  lift r c = (c', Ret a) -> r = Ret a /\ c' = c.
Proof. unfold lift. by intros [= -> ->]. Qed.

Lemma index_ret_inv {A} (l : list A) i x : index l i = Ret x -> l !! i = Some x.
Proof. unfold index. destruct (l !! i); [by intros [= ->]|done]. Qed.

Lemma prompt_choice_ret rt use_defaults name options preferred c c' i :
  prompt_choice rt use_defaults name options preferred c = (c', Ret i) ->
  preferred = Some i \/ i < length options.
Proof.
  unfold prompt_choice.
  destruct use_defaults; [destruct preferred as [p|]|].
  - intros [= _ <-]. by left.
  - apply choice_loop_range.
  - apply choice_loop_range.
Qed.

Lemma scan_paired rt e cpu f : scan rt e cpu = Ret f -> paired rt e cpu f.
Proof.
  unfold scan. destruct (getenv_PATH e) as [path|] eqn:Hpath; [|done].
  apply (for_each_in_keeps (paired rt e cpu)).
  - intros dir s s' Hdir Hs.
    destruct (listdir e dir) as [files|] eqn:Hfiles; [|by intros [= <-]].
    apply (for_each_in_keeps (paired rt e cpu)); [|done].
    intros filename t t' Hfile Ht. by eapply try_names_keeps.
  - split; [done|]. split; [apply NoDup_nil_2|constructor].
Qed.

(** X14. A run in which the search finds no suitable compiler never gets
    to a configuration: whatever is typed, it ends in an exit or an
    exception.  With [--default] and an architecture given it is the
    IndexError of line 114, with nothing printed and nothing read. *)
Theorem X14_no_compiler_no_configuration rt e a c :
  (forall cpu f, scan rt e cpu = Ret f -> candidates f = []) ->
  (forall config, (selarch rt e a c).2 <> Ret config) /\
  (forall cpu, use_default a = true -> arch a = Some cpu -> cpu <> [] ->
     (exists f, scan rt e cpu = Ret f) ->
     selarch rt e a c = (c, Raised IndexError)).
Proof.
  intros Hnone. split.
  - intros config Hrun.
    destruct (selarch rt e a c) as [c' r] eqn:Hsel. cbn [snd] in Hrun. subst r.
    unfold selarch in Hsel.
    apply bind_ret_inv in Hsel as (cpu & c1 & _ & Hsel).
    apply bind_ret_inv in Hsel as (f & c2 & Hscan & Hsel).
    apply lift_ret_inv in Hscan as [Hscan ->].
    apply bind_ret_inv in Hsel as (i & c3 & _ & Hsel).
    apply bind_ret_inv in Hsel as (chosen & c4 & Hchosen & _).
    apply lift_ret_inv in Hchosen as [Hchosen _].
    apply index_ret_inv in Hchosen.
    by rewrite (Hnone cpu f Hscan) in Hchosen.
  - intros cpu Hdef Harch Hcpu [f Hscan].
    unfold selarch, choose_cpu. rewrite Harch, Hdef.
    destruct cpu as [|ch cpu]; [done|].
    unfold bind at 1. unfold ret at 1.
    unfold bind at 1. unfold lift at 1. rewrite Hscan.
    unfold bind at 1. unfold prompt_choice at 1.
    unfold bind at 1. unfold lift at 1.
    by rewrite (Hnone _ f Hscan).
Qed.

Lemma X14_no_compiler_no_configuration_witness :
  (forall cpu f, scan ascii_runtime bare cpu = Ret f -> candidates f = []) /\
  (forall config,
     (selarch ascii_runtime bare (Args (Some ("x86_64" : str)) true)
        (Console [Line "1"] [])).2
     <> Ret config) /\
  selarch ascii_runtime bare (Args (Some ("x86_64" : str)) true)
    (Console [Line "1"] [])
  = (Console [Line "1"] [], Raised IndexError).
Proof.
  assert (Hnone : forall cpu f,
            scan ascii_runtime bare cpu = Ret f -> candidates f = []).
  { intros cpu f H. vm_compute in H. by injection H as <-. }
  destruct (X14_no_compiler_no_configuration ascii_runtime bare
              (Args (Some ("x86_64" : str)) true) (Console [Line "1"] []) Hnone)
    as [Hnever Hdefault].
  split; [exact Hnone|]. split; [exact Hnever|].
  apply (Hdefault "x86_64"); [reflexivity|reflexivity|done|].
  exists (Found [] []). vm_compute. reflexivity.
Defined.

Lemma dict_set_new d k v : dict_get d k = None -> dict_set d k v = d ++ [(k, v)].
Proof.
  induction d as [|[k' v'] d IH]; cbn [dict_get dict_set]; [done|].
  destruct (decide (k' = k)); [done|]. intros H. by rewrite IH.
Qed.

Lemma choose_abi_ret cpu config float_spec config' :
  choose_abi cpu config float_spec = Ret config' ->
  (startswith cpu "riscv" = true /\
   exists i float_abi,
     float_spec = Some i /\ (["" : str; "f" : str; "d" : str]) !! i = Some float_abi /\
     config' = dict_set
                 (dict_set config "kabi_spec"
                    (if decide (cpu = "riscv32") then "ilp32" : str else "lp64" : str))
                 "abi_spec"
                 ((if decide (cpu = "riscv32") then "ilp32" : str else "lp64" : str)
                  ++ float_abi))
  \/ (startswith cpu "riscv" = false /\
      config' = dict_set (dict_set config "abi_spec" "sysv") "kabi_spec" "sysv").
Proof.
  unfold choose_abi. destruct (startswith cpu "riscv").
  - destruct float_spec as [i|]; [|done].
    unfold index. destruct (_ !! i) as [float_abi|] eqn:Hi; [|done].
    intros [= <-]. left. split; [done|]. by exists i, float_abi.
  - intros [= <-]. by right.
Qed.

Lemma prompt_yesno_ret_inv rt use_defaults name default c c' b :
  prompt_yesno rt use_defaults name default c = (c', Ret b) ->
  output c `prefix_of` output c'.
Proof.
  unfold prompt_yesno. destruct (if use_defaults then default else None).
  - by intros [= <- _].
  - intros H.
    pose proof (yesno_loop_asked rt name default (stdin c) (output c ++ [Printed []]))
      as (read & _ & Hres).
    rewrite H in Hres. cbn [fst snd] in Hres. rewrite Hres, <- app_assoc.
    by eexists.
Qed.

Lemma choose_isa_ret rt e a cpu config c c' r :
  choose_isa rt e a cpu config c = (c', Ret r) ->
  (machine e = cpu /\
   r = (dict_set (dict_set config "isa_spec" "native") "kisa_spec"
          (if startswith cpu "riscv"
           then "rv" ++ drop 5 cpu ++ "imac_zicsr_zifencei"
           else "x86-64" : str),
        None))
  \/ (startswith cpu "riscv" = true /\
      exists i use_vec float_name float_isa,
        rv_float_enum !! i = Some float_name /\
        rv_float_isa !! i = Some float_isa /\
        r = (dict_set
               (dict_set
                  (dict_set (dict_set config "rv_float_spec" float_name)
                     "rv_use_vector" (str_of_bool use_vec))
                  "isa_spec"
                  ("rv" ++ drop 5 cpu ++ "ima" ++ float_isa ++ "c"
                   ++ (if use_vec then "v" else "") ++ "_zicsr_zifencei"))
               "kisa_spec" ("rv" ++ drop 5 cpu ++ "imac_zicsr_zifencei"),
             Some i))
  \/ (startswith cpu "riscv" = false /\
      exists i isa,
        x64_arch_isa !! i = Some isa /\
        r = (dict_set (dict_set config "isa_spec" isa) "kisa_spec" "x86-64", None)).
Proof.
  unfold choose_isa. intros Hrun.
  apply bind_ret_inv in Hrun as (native & c1 & Hnative & Hrun).
  destruct native.
  - left. split.
    + destruct (decide (machine e = cpu)); [done|]. by injection Hnative.
    + destruct (startswith cpu "riscv"); by injection Hrun as _ <-.
  - right. destruct (startswith cpu "riscv").
    + left. split; [done|].
      apply bind_ret_inv in Hrun as (i & c2 & _ & Hrun).
      apply bind_ret_inv in Hrun as (use_vec & c3 & _ & Hrun).
      apply bind_ret_inv in Hrun as (float_name & c4 & Hname & Hrun).
      apply lift_ret_inv in Hname as [Hname ->].
      apply bind_ret_inv in Hrun as (float_isa & c5 & Hisa & Hrun).
      apply lift_ret_inv in Hisa as [Hisa ->].
      injection Hrun as _ <-.
      exists i, use_vec, float_name, float_isa.
      split; [by apply index_ret_inv|]. split; [by apply index_ret_inv|done].
    + right. split; [done|].
      apply bind_ret_inv in Hrun as (i & c2 & _ & Hrun).
      apply bind_ret_inv in Hrun as (isa & c3 & Hisa & Hrun).
      apply lift_ret_inv in Hisa as [Hisa ->].
      injection Hrun as _ <-. exists i, isa. split; [by apply index_ret_inv|done].
Qed.

Lemma summary_ret a config c c' u :
  summary a config c = (c', Ret u) ->
  exists before, output c' = before ++ summary_lines config.
Proof.
  unfold summary, summary_lines. intros Hrun.
  apply bind_ret_inv in Hrun as (u1 & c1 & _ & Hrun).
  unfold bind, print in Hrun. cbn [stdin output] in Hrun.
  injection Hrun as <- _. cbn [output].
  exists (output c1). by rewrite <- !app_assoc.
Qed.

(** X15. A run that gets to the end of the selection holds one of three
    configurations, with the keys in this order.  The architecture is the
    one given or one of the three known; the compiler and the prefix stand
    at the same position of the two lists of the search and satisfy what
    the search asks.  Either the native ISA was taken, on a machine of the
    chosen architecture that is not RISC-V (kernel ISA [x86-64], both ABIs
    [sysv]); or the architecture is RISC-V, with the float and vector
    answers recorded and the ISA and ABI strings built from them; or the
    ISA is one of the three x86-64 levels.  The last three lines printed
    are the summary of that configuration. *)
Theorem X15_completed_run rt e a c c' config :
  selarch rt e a c = (c', Ret config) ->
  exists cpu f i compiler prefix,
    ((arch a = Some cpu /\ cpu <> []) \/ cpu ∈ architectures) /\
    scan rt e cpu = Ret f /\
    candidates f !! i = Some compiler /\
    prefixes f !! i = Some prefix /\
    suitable rt e cpu compiler prefix /\
    ((machine e = cpu /\ startswith cpu "riscv" = false /\
      config = native_config cpu compiler prefix)
     \/ (startswith cpu "riscv" = true /\
         exists k use_vec float_name float_isa float_abi,
           rv_float_enum !! k = Some float_name /\
           rv_float_isa !! k = Some float_isa /\
           (["" : str; "f" : str; "d" : str]) !! k = Some float_abi /\
           config = riscv_config cpu compiler prefix
                      float_name float_isa float_abi use_vec)
     \/ (startswith cpu "riscv" = false /\
         exists isa, isa ∈ x64_arch_isa /\
                     config = x64_config cpu compiler prefix isa)) /\
    exists before, output c' = before ++ summary_lines config.
Proof.
  unfold selarch. intros Hrun.
  apply bind_ret_inv in Hrun as (cpu & c1 & Hcpu & Hrun).
  apply bind_ret_inv in Hrun as (f & c2 & Hscan & Hrun).
  apply lift_ret_inv in Hscan as [Hscan ->].
  apply bind_ret_inv in Hrun as (i & c3 & _ & Hrun).
  apply bind_ret_inv in Hrun as (compiler & c4 & Hcompiler & Hrun).
  apply lift_ret_inv in Hcompiler as [Hcompiler%index_ret_inv ->].
  apply bind_ret_inv in Hrun as (prefix & c5 & Hprefix & Hrun).
  apply lift_ret_inv in Hprefix as [Hprefix%index_ret_inv ->].
  apply bind_ret_inv in Hrun as (chosen & c6 & Hisa & Hrun).
  apply bind_ret_inv in Hrun as (config' & c7 & Habi & Hrun).
  apply lift_ret_inv in Habi as [Habi ->].
  apply bind_ret_inv in Hrun as (u & c8 & Hsummary & Hrun).
  injection Hrun as -> ->.
  exists cpu, f, i, compiler, prefix.
  split.
  { unfold choose_cpu in Hcpu.
    assert (forall c1 c2,
      bind (prompt_choice rt (use_default a) "architecture" architectures
              (fst <$> list_find (fun x => x = machine e) architectures))
        (fun i => lift (index architectures i)) c1 = (c2, Ret cpu) ->
      cpu ∈ architectures) as Hprompt.
    { intros d1 d2 H. apply bind_ret_inv in H as (j & d3 & _ & H).
      apply lift_ret_inv in H as [H%index_ret_inv _].
      by eapply list_elem_of_lookup_2. }
    destruct (arch a) as [[|ch given]|]; [right; by eapply Hprompt| |right; by eapply Hprompt].
    injection Hcpu as _ <-. by left. }
  split; [done|]. split; [done|]. split; [done|].
  split.
  { destruct (scan_paired _ _ _ _ Hscan) as (_ & _ & Hall).
    by eapply Forall2_lookup_lr. }
  split; [|by eapply summary_ret].
  apply choose_isa_ret in Hisa.
  apply choose_abi_ret in Habi.
  destruct Hisa as [[Hm ->]|[(Hrv & k & use_vec & float_name & float_isa & Hn & Hi & ->)
                            |(Hrv & k & isa & Hisa & ->)]];
    cbn [fst snd] in Habi.
  - destruct Habi as [(Hrv & k & float_abi & Hk & _)|(Hrv & ->)]; [done|].
    left. split; [done|]. split; [done|]. by rewrite Hrv.
  - destruct Habi as [(_ & k' & float_abi & [= <-] & Hk & ->)|[Hrv' _]];
      [|congruence].
    right. left. split; [done|].
    by exists k, use_vec, float_name, float_isa, float_abi.
  - destruct Habi as [(Hrv' & _)|(_ & ->)]; [congruence|].
    right. right. split; [done|]. exists isa.
    split; [by eapply list_elem_of_lookup_2|done].
Qed.

Lemma X15_completed_run_witness :
  exists cpu f i compiler prefix,
    ((arch (Args None false) = Some cpu /\ cpu <> []) \/ cpu ∈ architectures) /\
    scan ascii_runtime pc cpu = Ret f /\
    candidates f !! i = Some compiler /\
    prefixes f !! i = Some prefix /\
    suitable ascii_runtime pc cpu compiler prefix /\
    ((machine pc = cpu /\ startswith cpu "riscv" = false /\
      x64_config "x86_64" "fs/bin2/cc" "fs/bin2/" "x86-64-v2"
      = native_config cpu compiler prefix)
     \/ (startswith cpu "riscv" = true /\
         exists k use_vec float_name float_isa float_abi,
           rv_float_enum !! k = Some float_name /\
           rv_float_isa !! k = Some float_isa /\
           (["" : str; "f" : str; "d" : str]) !! k = Some float_abi /\
           x64_config "x86_64" "fs/bin2/cc" "fs/bin2/" "x86-64-v2"
           = riscv_config cpu compiler prefix
               float_name float_isa float_abi use_vec)
     \/ (startswith cpu "riscv" = false /\
         exists isa, isa ∈ x64_arch_isa /\
                     x64_config "x86_64" "fs/bin2/cc" "fs/bin2/" "x86-64-v2"
                     = x64_config cpu compiler prefix isa)) /\
    exists before,
      output (selarch ascii_runtime pc (Args None false)
                (Console [Line ""; Line "2"; Line "n"; Line "2"] [])).1
      = before ++ summary_lines
                    (x64_config "x86_64" "fs/bin2/cc" "fs/bin2/" "x86-64-v2").
Proof.
  apply (X15_completed_run ascii_runtime pc (Args None false)
           (Console [Line ""; Line "2"; Line "n"; Line "2"] [])).
  vm_compute. reflexivity.
Defined.

Lemma bind_ret_l {A B} (m : io A) (k : A -> io B) c c1 a :
  m c = (c1, Ret a) -> bind m k c = k a c1.
Proof. unfold bind. by intros ->. Qed.

Lemma paired_first rt e cpu f :
  paired rt e cpu f -> candidates f <> [] ->
  exists compiler prefix,
    candidates f !! 0 = Some compiler /\ prefixes f !! 0 = Some prefix.
Proof.
  intros (Hlen & _) Hne.
  destruct (candidates f) as [|compiler l]; [done|].
  destruct (prefixes f) as [|prefix l']; [done|]. by exists compiler, prefix.
Qed.

(** X16. On a RISC-V machine, [--default] for the architecture of the
    machine never gets to a configuration.  The run neither prints nor
    reads; it takes the first compiler found and the native ISA, and then
    dies at line 140 of the NameError for [float_spec], which only the
    branch not taken would have bound (or, when no compiler was found, of
    the IndexError of line 114). *)
Theorem X16_default_on_riscv rt e a c :
  use_default a = true ->
  machine e ∈ ["riscv64" : str; "riscv32" : str] ->
  arch a = None \/ arch a = Some (machine e) ->
  selarch rt e a c
  = (c, match scan rt e (machine e) with
        | Ret f => match candidates f with
                   | [] => Raised IndexError
                   | _ => Raised NameError
                   end
        | Exit code => Exit code
        | Raised x => Raised x
        end).
Proof.
  intros Hdef Hm Harch.
  assert (choose_cpu rt e a c = (c, Ret (machine e))) as Hcpu.
  { unfold choose_cpu. rewrite Hdef.
    assert (forall k : nat,
      fst <$> list_find (fun x => x = machine e) architectures = Some k ->
      architectures !! k = Some (machine e) ->
      bind (prompt_choice rt true "architecture" architectures
              (fst <$> list_find (fun x => x = machine e) architectures))
        (fun i => lift (index architectures i)) c = (c, Ret (machine e))) as Hprompt.
    { intros k Hk Hat. unfold bind, prompt_choice, lift, index.
      by rewrite Hk, Hat. }
    assert (exists k,
      fst <$> list_find (fun x => x = machine e) architectures = Some k /\
      architectures !! k = Some (machine e)) as (k & Hk & Hat).
    { apply elem_of_cons in Hm as [->| ->%list_elem_of_singleton].
      - by exists 0.
      - by exists 1. }
    destruct Harch as [-> | ->]; [by eapply Hprompt|].
    destruct (machine e) as [|ch m] eqn:Hmach; [|done].
    by eapply Hprompt. }
  assert (startswith (machine e) "riscv" = true) as Hrv.
  { by apply elem_of_cons in Hm as [->| ->%list_elem_of_singleton]. }
  unfold selarch. rewrite (bind_ret_l _ _ _ _ _ Hcpu).
  destruct (scan rt e (machine e)) as [f|code|x] eqn:Hscan; [|done|done].
  rewrite (bind_ret_l _ _ c c f) by done.
  rewrite (bind_ret_l _ _ c c 0) by (unfold prompt_choice; by rewrite Hdef).
  destruct (candidates f) as [|compiler l] eqn:Hcand; [done|].
  destruct (paired_first _ _ _ _ (scan_paired _ _ _ _ Hscan))
    as (compiler' & prefix & Hc & Hp); [by rewrite Hcand|].
  rewrite (bind_ret_l _ _ c c compiler) by done.
  rewrite (bind_ret_l _ _ c c prefix) by (unfold lift, index; by rewrite Hp).
  erewrite (bind_ret_l (choose_isa rt e a (machine e) _)).
  2:{ unfold choose_isa. rewrite decide_True by done.
      rewrite (bind_ret_l _ _ c c true) by (unfold prompt_yesno; by rewrite Hdef).
      rewrite Hrv. reflexivity. }
  cbn [fst snd]. unfold bind, lift, choose_abi. by rewrite Hrv.
Qed.

Lemma X16_default_on_riscv_witness :
  selarch ascii_runtime board (Args None true) (Console [Line "1"] [])
  = (Console [Line "1"] [],
     match scan ascii_runtime board (machine board) with
     | Ret f => match candidates f with
                | [] => Raised IndexError
                | _ => Raised NameError
                end
     | Exit code => Exit code
     | Raised x => Raised x
     end).
Proof.
  apply (X16_default_on_riscv ascii_runtime board (Args None true)
           (Console [Line "1"] [])).
  - reflexivity.
  - vm_compute. set_solver.
  - by left.
Defined.

(** ** The search misses nothing *)

Lemma for_each_in_reaches {A S} (I : S -> Prop) (l : list A)
    (body : A -> S -> outcome S) (x0 : A) :
  x0 ∈ l ->
  (forall x s s', I s -> body x s = Ret s' -> I s') ->
  (forall s s', body x0 s = Ret s' -> I s') ->
  forall s s', for_each_in l body s = Ret s' -> I s'.
Proof.
  intros Hin Hkeep Hhit. induction l as [|x l IH]; intros s s'; [by inversion Hin|].
  cbn [for_each_in]. destruct (body x s) as [s1| |] eqn:Hx; [|done|done].
  apply elem_of_cons in Hin as [<-|Hin]; [|by apply IH].
  apply (for_each_in_keeps I); [|by eapply Hhit].
  intros y t t' _. apply Hkeep.
Qed.

Lemma try_names_grows rt e cpu dir filename cand : forall names f f',
  cand ∈ candidates f ->
  try_names rt e cpu dir filename names f = Ret f' ->
  cand ∈ candidates f'.
Proof.
  induction names as [|name names IH]; intros f f' Hin; cbn [try_names].
  - by intros [= <-].
  - destruct (decide (name `suffix_of` filename)); [|by apply IH].
    destruct (_ && _); [by apply IH|].
    destruct (test_candidate _ _ _ _ _) as [ok| |]; [|done|done].
    destruct (_ && _); intros [= <-]; [|done].
    cbn [candidates]. apply elem_of_app. by left.
Qed.

Lemma try_names_skip rt e cpu dir filename name names f :
  ~ name `suffix_of` filename ->
  try_names rt e cpu dir filename (name :: names) f
  = try_names rt e cpu dir filename names f.
Proof. intros Hno. cbn [try_names]. by rewrite decide_False. Qed.

Lemma not_suffix_by_tail (tail tail' front : str) :
  length tail = length tail' -> tail <> tail' ->
  ~ tail' `suffix_of` front ++ tail.
Proof.
  intros Hlen Hne [k Hk]. apply app_inj_2 in Hk as [_ Hk]; [|done]. done.
Qed.

Lemma not_suffix_longer (name filename : str) :
  length filename < length name -> ~ name `suffix_of` filename.
Proof. intros Hlen [k ->]. rewrite length_app in Hlen. lia. Qed.

Lemma test_candidate_passes rt e cpu prefix name out :
  path_exists e (prefix ++ "objdump") = true ->
  path_exists e (prefix ++ "addr2line") = true ->
  dumpmachine e (prefix ++ name) = Returned 0 (Some out) ->
  contains cpu (strip rt out) = true ->
  contains "badgeros" (strip rt out) = true
  \/ contains "linux-gnu" (strip rt out) = true ->
  test_candidate rt e cpu prefix name = Ret true.
Proof.
  intros Ho Ha Hd Hc Hb. unfold test_candidate, query_compiler_arch.
  rewrite Ho, Ha, Hd. cbn [negb orb]. rewrite decide_False by lia.
  rewrite Hc. apply orb_true_iff in Hb. by rewrite Hb.
Qed.

Lemma try_names_takes rt e cpu dir stem name names f f' out :
  name <> [] ->
  stem = [] \/ (exists stem', stem = stem' ++ "-") ->
  path_exists e ((dir ++ "/" ++ stem) ++ "objdump") = true ->
  path_exists e ((dir ++ "/" ++ stem) ++ "addr2line") = true ->
  dumpmachine e ((dir ++ "/" ++ stem) ++ name) = Returned 0 (Some out) ->
  contains cpu (strip rt out) = true ->
  contains "badgeros" (strip rt out) = true
  \/ contains "linux-gnu" (strip rt out) = true ->
  try_names rt e cpu dir (stem ++ name) (name :: names) f = Ret f' ->
  (dir ++ "/" ++ stem) ++ name ∈ candidates f'.
Proof.
  intros Hne Hstem Ho Ha Hd Hc Hb. cbn [try_names].
  rewrite decide_True by (by exists stem).
  assert (bool_decide (length name < length (stem ++ name))
          && negb (bool_decide
               ((stem ++ name) !! (length (stem ++ name) - length name - 1)
                = Some "-"%char)) = false) as ->.
  { destruct Hstem as [->|[stem' ->]].
    - cbn [app]. rewrite bool_decide_eq_false_2 by lia. done.
    - apply andb_false_iff. right. apply negb_false_iff, bool_decide_eq_true.
      rewrite !length_app. cbn [length list_ascii_of_string].
      replace (length stem' + 1 + length name - length name - 1)
        with (length stem') by lia.
      rewrite <- !app_assoc. cbn [app list_ascii_of_string].
      by rewrite list_lookup_middle. }
  rewrite but_last_app by done.
  rewrite (test_candidate_passes rt e cpu _ name out) by done.
  cbn [andb].
  destruct (bool_decide ((dir ++ "/" ++ stem) ++ name ∈ candidates f)) eqn:Hin;
    cbn [negb]; intros [= <-].
  - by apply bool_decide_eq_true in Hin.
  - cbn [candidates]. apply elem_of_app. right. by left.
Qed.

(** X17. The search misses nothing: when it completes, every file that
    satisfies what line 108 asks (a file of a directory of [PATH] named
    after [gcc], [cc] or [clang], alone or after a dash, with [objdump]
    and [addr2line] under the same prefix and a [-dumpmachine] answer that
    names the architecture and one of [badgeros] and [linux-gnu]) is among
    the candidates. *)
Theorem X17_search_is_complete rt e cpu f cand prefix :
  scan rt e cpu = Ret f ->
  suitable rt e cpu cand prefix ->
  cand ∈ candidates f.
Proof.
  intros Hscan (path & dir & files & filename & name & out & Hpath & Hdir & Hfiles
                & Hfile & Hname & Hcand & Hprefix & Hshape & Ho & Ha & Hd & Hc & Hb).
  unfold scan in Hscan. rewrite Hpath in Hscan.
  revert Hscan.
  apply (for_each_in_reaches (fun s => cand ∈ candidates s) _ _ dir Hdir).
  { intros d s s' Hs. destruct (listdir e d) as [fs|]; [|by intros [= <-]].
    apply (for_each_in_keeps (fun s => cand ∈ candidates s)); [|done].
    intros fn t t' _ Ht. by apply try_names_grows. }
  intros s s'. rewrite Hfiles.
  apply (for_each_in_reaches (fun s => cand ∈ candidates s) _ _ filename Hfile).
  { intros fn t t' Ht. by apply try_names_grows. }
  clear s s'. intros s s'.
  assert (exists stem, filename = stem ++ name /\
            (stem = [] \/ exists stem', stem = stem' ++ "-")) as (stem & Hfn & Hstem).
  { destruct Hshape as [->|[stem' ->]].
    - exists []. by split; [|left].
    - exists (stem' ++ "-"). split; [by rewrite <- app_assoc|]. right. by exists stem'. }
  assert (prefix = dir ++ "/" ++ stem) as ->.
  { rewrite Hcand, Hfn in Hprefix.
    rewrite !app_assoc in Hprefix. apply app_inv_tail in Hprefix.
    by rewrite <- app_assoc in Hprefix. }
  assert (cand = (dir ++ "/" ++ stem) ++ name) as Hcand' by done.
  rewrite Hcand' in Hd |- *. rewrite Hfn. clear Hcand Hcand' Hprefix Hshape.
  unfold known_compiler_names in *.
  apply elem_of_cons in Hname as [->|Hname].
  { by eapply try_names_takes. }
  apply elem_of_cons in Hname as [->|Hname%list_elem_of_singleton].
  - rewrite try_names_skip; [by eapply try_names_takes|].
    destruct Hstem as [->|[stem' ->]].
    + apply not_suffix_longer. vm_compute. lia.
    + rewrite <- app_assoc.
      apply not_suffix_by_tail; [reflexivity|vm_compute; congruence].
  - subst name.
    rewrite try_names_skip.
    2:{ replace (stem ++ "clang") with ((stem ++ "cl") ++ "ang")
          by (by rewrite <- app_assoc).
        apply not_suffix_by_tail; [reflexivity|vm_compute; congruence]. }
    rewrite try_names_skip; [by eapply try_names_takes|].
    replace (stem ++ "clang") with ((stem ++ "cla") ++ "ng")
      by (by rewrite <- app_assoc).
    apply not_suffix_by_tail; [reflexivity|vm_compute; congruence].
Qed.

Lemma suitable_gcc : suitable ascii_runtime pc "x86_64" "fs/bin1/gcc" "fs/bin1/".
Proof.
  exists ("fs/bin1:/nonexistent::fs/bin2:fs/bin1" : str), ("fs/bin1" : str),
         bin1, ("gcc" : str), ("gcc" : str), ("x86_64-linux-gnu" ++ [nl]).
  repeat split; try (vm_compute; reflexivity).
  - vm_compute. set_solver.
  - vm_compute. set_solver.
  - vm_compute. set_solver.
  - by left.
  - right. vm_compute. reflexivity.
Qed.

Lemma X17_search_is_complete_witness :
  ("fs/bin1/gcc" : str)
  ∈ candidates (Found ["fs/bin1/gcc" : str; "fs/bin2/cc" : str]
                      ["fs/bin1/" : str; "fs/bin2/" : str]).
Proof.
  apply (X17_search_is_complete ascii_runtime pc "x86_64" _ _ "fs/bin1/").
  - vm_compute. reflexivity.
  - exact suitable_gcc.
Defined.
